(** * es_orm: the field model of [src/es_orm/fields.py]

    A shallow embedding of the [Field] hierarchy (scalar fields, [Choices],
    [List], [Dict], [ConvertedDict]) with its [set] / [update] / [clean] /
    [serialize] / [deserialize] pipeline, and the properties the
    specification states about it.

    Layout:
    - Part 1: Python values and the builtins the fields call;
    - Part 2: fields as trees, one constructor per class, and the methods
      of [fields.py] as functions on them (a method that mutates [self]
      returns the new field; a method that can raise returns an outcome);
    - Part 3: module [Store], the same [set] family over a store of dict
      objects, for the properties that are about the caller's dict being
      edited in place;
    - Part 4: the properties the specification states;
    - Part 5: further properties of the code: the conversion of
      [ConvertedDict], [Dict] as a mapping, item access, instance attrs,
      [List], and what [update], [update_attrs] and [set_attrs] do to the
      caller's dicts.

    Conventions of Part 2.  A value is a tree and is handed over by value:
    what [set] does to the caller's own dict object is the subject of
    Part 3, and a value that a call returns is the value as the call
    obtained it.  Dict keys are [str], as in the JSON documents the library
    stores, and the keys of one dict are pairwise distinct.  [float],
    [datetime] and [bytes] values, hence the [Float], [Double], [Date] and
    [Bytes] classes, are not modelled; neither is [mapping()], which no
    property below reads. *)

From stdpp Require Import base strings list gmap pretty.
From Stdlib Require Import ZArith Lia.

Set Warnings "-register-all".
Open Scope string_scope.
Open Scope nat_scope.

(** * Part 1: Python values *)

Inductive pyval : Type :=
  | PNone
  | PBool (b : bool)
  | PInt (z : Z)
  | PStr (s : string)
  | PList (l : list pyval)
  | PDict (d : list (string * pyval)).

(** ** Association lists: insertion-ordered maps with [str] keys

    Used for Python dicts and for [Dict._properties]. *)
Section AList.
Context {V : Type}.
Implicit Types (k : string) (m : list (string * V)).

(** [m.get(k)] *)
Fixpoint alist_get k m : option V :=
  match m with
  | [] => None
  | (k', v) :: m' => if String.eqb k' k then Some v else alist_get k m'
  end.

(** [k in m] *)
Definition alist_has k m : bool :=
  match alist_get k m with Some _ => true | None => false end.

(** [m.pop(k, None)], as the new dict *)
Fixpoint alist_pop k m : list (string * V) :=
  match m with
  | [] => []
  | (k', v) :: m' =>
      if String.eqb k' k then alist_pop k m' else (k', v) :: alist_pop k m'
  end.

(** [m[k] = v]: an existing key keeps its position, a new key goes last *)
Fixpoint alist_set k (v : V) m : list (string * V) :=
  match m with
  | [] => [(k, v)]
  | (k', v') :: m' =>
      if String.eqb k' k then (k', v) :: m' else (k', v') :: alist_set k v m'
  end.

(** [m.update(m2)]; [{**m, **m2}] is the same on a copy *)
Definition alist_update m (m2 : list (string * V)) : list (string * V) :=
  fold_left (λ acc kv, alist_set kv.1 kv.2 acc) m2 m.

Definition alist_keys m : list string := map fst m.
End AList.

Abbreviation dict := (list (string * pyval)).

(** [v in Field.EMPTY_VALUES]: [None], the empty list, tuple, dict and
    set, and the empty string. *)
Definition is_empty (v : pyval) : bool :=
  match v with
  | PNone | PStr "" | PList [] | PDict [] => true
  | _ => false
  end.

(** [bool(v)] *)
Definition truthy (v : pyval) : bool :=
  match v with
  | PNone => false
  | PBool b => b
  | PInt z => negb (z =? 0)%Z
  | PStr s => negb (String.eqb s "")
  | PList l => match l with [] => false | _ => true end
  | PDict d => match d with [] => false | _ => true end
  end.

(** [a == b] *)
Fixpoint py_eq (a b : pyval) {struct a} : bool :=
  match a, b with
  | PNone, PNone => true
  | PBool x, PBool y => Bool.eqb x y
  | PBool x, PInt z | PInt z, PBool x => (z =? (if x then 1 else 0))%Z
  | PInt x, PInt y => (x =? y)%Z
  | PStr x, PStr y => String.eqb x y
  | PList l1, PList l2 =>
      (fix go (l1 l2 : list pyval) {struct l1} : bool :=
         match l1, l2 with
         | [], [] => true
         | x :: l1', y :: l2' => py_eq x y && go l1' l2'
         | _, _ => false
         end) l1 l2
  | PDict d1, PDict d2 =>
      Nat.eqb (length d1) (length d2) &&
      (fix go (d1 : dict) {struct d1} : bool :=
         match d1 with
         | [] => true
         | (k, x) :: d1' =>
             match alist_get k d2 with
             | Some y => py_eq x y && go d1'
             | None => false
             end
         end) d1
  | _, _ => false
  end.

(** [v in l] for a list [l] *)
Definition py_in_list (v : pyval) (l : list pyval) : bool :=
  existsb (py_eq v) l.

(** ** Rendering: [repr], [str], [type] *)

Definition ascii_of_nat' (n : nat) : string := String (Ascii.ascii_of_nat n) "".
Definition quote1 : string := ascii_of_nat' 39.   (* ' *)
Definition quote2 : string := ascii_of_nat' 34.   (* double quote *)
Definition backslash : string := ascii_of_nat' 92.

Fixpoint string_has_byte (n : nat) (s : string) : bool :=
  match s with
  | EmptyString => false
  | String c s' => Nat.eqb (Ascii.nat_of_ascii c) n || string_has_byte n s'
  end.

Fixpoint escape_with (q : nat) (s : string) : string :=
  match s with
  | EmptyString => ""
  | String c s' =>
      let n := Ascii.nat_of_ascii c in
      (if Nat.eqb n 92 then backslash ++ backslash
       else if Nat.eqb n q then backslash ++ ascii_of_nat' q
       else if Nat.eqb n 10 then backslash ++ "n"
       else if Nat.eqb n 13 then backslash ++ "r"
       else if Nat.eqb n 9 then backslash ++ "t"
       else String c "") ++ escape_with q s'
  end.

(** [repr(s)] of a [str]: single quotes unless the text has a single and
    no double quote; backslash, the quote, newline, return and tab are
    escaped.  (CPython also escapes the other control characters.) *)
Definition repr_str (s : string) : string :=
  let q := if string_has_byte 39 s && negb (string_has_byte 34 s) then 34 else 39 in
  ascii_of_nat' q ++ escape_with q s ++ ascii_of_nat' q.

Fixpoint join (sep : string) (l : list string) : string :=
  match l with
  | [] => ""
  | [x] => x
  | x :: l' => x ++ sep ++ join sep l'
  end.

Fixpoint py_repr (v : pyval) : string :=
  match v with
  | PNone => "None"
  | PBool true => "True"
  | PBool false => "False"
  | PInt z => pretty z
  | PStr s => repr_str s
  | PList l => "[" ++ join ", " (map py_repr l) ++ "]"
  | PDict d =>
      "{" ++ join ", " (map (λ kv, repr_str kv.1 ++ ": " ++ py_repr kv.2) d) ++ "}"
  end.

(** [str(v)], also what an f-string shows for [{v}] *)
Definition py_str (v : pyval) : string :=
  match v with
  | PStr s => s
  | _ => py_repr v
  end.

Definition type_name (v : pyval) : string :=
  match v with
  | PNone => "NoneType"
  | PBool _ => "bool"
  | PInt _ => "int"
  | PStr _ => "str"
  | PList _ => "list"
  | PDict _ => "dict"
  end.

(** [str(type(v))] *)
Definition type_repr (v : pyval) : string :=
  "<class " ++ quote1 ++ type_name v ++ quote1 ++ ">".

(** ** Exceptions and outcomes *)

Inductive exn : Type :=
  | EValidation (message : string)        (* ValidationException *)
  | EInitializationRequired               (* InitializationRequired *)
  | ETypeError (message : string)
  | EValueError (message : string)
  | EAttributeError (message : string)
  | EKeyError (message : string)
  | ERecursionError.

(** [NotPerformedException.__init__]: an empty message is replaced by the
    class's [default_message]. *)
Definition ValidationException (message : string) : exn :=
  EValidation (if String.eqb message "" then "There was an error during validation."
               else message).

Definition InitializationRequired : exn := EInitializationRequired.

(** [str(error)] *)
Definition exn_str (e : exn) : string :=
  match e with
  | EValidation m => m
  | EInitializationRequired => "The initialization of index is required to continue."
  | ETypeError m | EValueError m | EAttributeError m => m
  | EKeyError m => repr_str m
  | ERecursionError => "maximum recursion depth exceeded"
  end.

Definition is_validation (e : exn) : bool :=
  match e with EValidation _ => true | _ => false end.

Inductive outcome (A : Type) : Type :=
  | Return (a : A)
  | Raise (e : exn).
Arguments Return {A} a.
Arguments Raise {A} e.

Definition bind {A B} (x : outcome A) (k : A → outcome B) : outcome B :=
  match x with
  | Return a => k a
  | Raise e => Raise e
  end.

Notation "x <- c ;; k" := (bind c (λ x, k))
  (at level 100, c at next level, right associativity, only parsing).

(** ** Builtin constructors: [int], [str], [bool], [list] *)

Definition is_digit (n : nat) : bool := (48 <=? n)%nat && (n <=? 57)%nat.

(** Whitespace that [int] strips, in ASCII. *)
Definition is_space (n : nat) : bool :=
  ((9 <=? n)%nat && (n <=? 13)%nat) || ((28 <=? n)%nat && (n <=? 32)%nat).

Fixpoint lstrip (l : list nat) : list nat :=
  match l with
  | n :: l' => if is_space n then lstrip l' else l
  | [] => []
  end.

Definition strip (l : list nat) : list nat := rev (lstrip (rev (lstrip l))).

(** Digits with single underscores between them: [acc] is the value read
    so far, [after_digit] tells whether an underscore may come next. *)
Fixpoint parse_digits (l : list nat) (acc : Z) (after_digit : bool) : option Z :=
  match l with
  | [] => if after_digit then Some acc else None
  | n :: l' =>
      if is_digit n then parse_digits l' (10 * acc + Z.of_nat (n - 48))%Z true
      else if Nat.eqb n 95 && after_digit then
        match l' with
        | [] => None
        | _ => parse_digits l' acc false
        end
      else None
  end.

Fixpoint string_bytes (s : string) : list nat :=
  match s with
  | EmptyString => []
  | String c s' => Ascii.nat_of_ascii c :: string_bytes s'
  end.

(** [int(s)] for a [str] in base 10 (ASCII digits). *)
Definition parse_int (s : string) : option Z :=
  match strip (string_bytes s) with
  | 45 :: l => option_map Z.opp (parse_digits l 0 false)
  | 43 :: l => parse_digits l 0 false
  | l => parse_digits l 0 false
  end.

(** [int(v)] *)
Definition py_int (v : pyval) : outcome pyval :=
  match v with
  | PInt z => Return (PInt z)
  | PBool b => Return (PInt (if b then 1 else 0))
  | PStr s =>
      match parse_int s with
      | Some z => Return (PInt z)
      | None => Raise (EValueError
          ("invalid literal for int() with base 10: " ++ repr_str s))
      end
  | _ => Raise (ETypeError
      ("int() argument must be a string, a bytes-like object or a real number, not "
       ++ quote1 ++ type_name v ++ quote1))
  end.

(** The characters of a [str] held as UTF-8: a byte [10xxxxxx] continues
    the character before it. *)
Fixpoint utf8_chars (s : string) : list string :=
  match s with
  | EmptyString => []
  | String c s' =>
      let n := Ascii.nat_of_ascii c in
      match utf8_chars s' with
      | x :: rest =>
          match s' with
          | String c' _ =>
              let n' := Ascii.nat_of_ascii c' in
              if (128 <=? n')%nat && (n' <? 192)%nat
              then String c x :: rest
              else String c "" :: x :: rest
          | EmptyString => [String c ""]
          end
      | [] => [String c ""]
      end
  end.

(** [list(v)] *)
Definition py_list (v : pyval) : outcome pyval :=
  match v with
  | PList l => Return (PList l)
  | PStr s => Return (PList (map PStr (utf8_chars s)))
  | PDict d => Return (PList (map (λ kv, PStr kv.1) d))
  | _ => Raise (ETypeError
      (quote1 ++ type_name v ++ quote1 ++ " object is not iterable"))
  end.

Fixpoint is_prefix (p s : string) : bool :=
  match p, s with
  | EmptyString, _ => true
  | String a p', String b s' => Ascii.eqb a b && is_prefix p' s'
  | _, _ => false
  end.

(** [p in s] for two [str] *)
Fixpoint is_substring (p s : string) : bool :=
  is_prefix p s ||
  match s with
  | EmptyString => false
  | String _ s' => is_substring p s'
  end.

(** [key in v] for a [str] key *)
Definition py_contains (key : string) (v : pyval) : outcome bool :=
  match v with
  | PDict d => Return (alist_has key d)
  | PList l => Return (py_in_list (PStr key) l)
  | PStr s => Return (is_substring key s)
  | _ => Raise (ETypeError
      ("argument of type " ++ quote1 ++ type_name v ++ quote1 ++ " is not iterable"))
  end.

(** [v[key]] for a [str] key *)
Definition py_getitem (v : pyval) (key : string) : outcome pyval :=
  match v with
  | PDict d =>
      match alist_get key d with
      | Some x => Return x
      | None => Raise (EKeyError key)
      end
  | PStr _ => Raise (ETypeError "string indices must be integers, not 'str'")
  | PList _ => Raise (ETypeError "list indices must be integers or slices, not str")
  | _ => Raise (ETypeError
      (quote1 ++ type_name v ++ quote1 ++ " object is not subscriptable"))
  end.

(** [isinstance(v, dict) and 'value' in v] *)
Definition has_value_key (v : pyval) : bool :=
  match v with
  | PDict d => alist_has "value" d
  | _ => false
  end.

Definition is_dict (v : pyval) : bool :=
  match v with PDict _ => true | _ => false end.

Definition is_list (v : pyval) : bool :=
  match v with PList _ => true | _ => false end.

(** The classes a scalar field names as its [_value_type]. *)
Inductive value_type : Type := VObject | VStr | VInt | VBool.

(** [str(cls)] *)
Definition class_repr (name : string) : string :=
  "<class " ++ quote1 ++ name ++ quote1 ++ ">".

Definition value_type_name (t : value_type) : string :=
  match t with
  | VObject => "object"
  | VStr => "str"
  | VInt => "int"
  | VBool => "bool"
  end.

(** [isinstance(v, t)]; [bool] is a subclass of [int]. *)
Definition py_isinstance (v : pyval) (t : value_type) : bool :=
  match t, v with
  | VObject, _ => true
  | VStr, PStr _ => true
  | VInt, (PInt _ | PBool _) => true
  | VBool, PBool _ => true
  | _, _ => false
  end.

(** [t(v)], the call of the class as a constructor; [Field._deserialize]
    never calls [object]. *)
Definition construct (t : value_type) (v : pyval) : outcome pyval :=
  match t with
  | VInt => py_int v
  | VBool => Return (PBool (truthy v))
  | VStr | VObject => Return (PStr (py_str v))
  end.

(** * Part 2: fields *)

(** [Field.ValidationLevel] *)
Inductive ValidationLevel : Type := STRICT | WARNING | DISABLED.

(** The attributes every [Field] instance carries ([_default_value],
    [_default_attrs], [_required], [_validation_level], [_attrs_enabled],
    [_attrs]). *)
Record base : Type := Base {
  default_value : pyval;
  default_attrs : dict;
  required : bool;
  validation_level : ValidationLevel;
  attrs_enabled : bool;
  attrs : dict;
}.

Definition with_attrs (a : dict) (b : base) : base :=
  Base (default_value b) (default_attrs b) (required b) (validation_level b)
       (attrs_enabled b) a.

Definition with_attrs_enabled (e : bool) (b : base) : base :=
  Base (default_value b) (default_attrs b) (required b) (validation_level b)
       e (attrs b).

Definition with_validation_level (l : ValidationLevel) (b : base) : base :=
  Base (default_value b) (default_attrs b) (required b) l
       (attrs_enabled b) (attrs b).

(** One constructor per modelled class.  [FScalar] is [Field] itself and
    its subclasses that only fix [_value_type] ([Text], [Keyword],
    [Wildcard], [ForeignKey]: [str]; [Integer], [Long], [Short]: [int];
    [Boolean]: [bool]).  A [Dict] has no stored value: its [value] is a
    property computed from [_properties]. *)
Inductive field : Type :=
  | FScalar (b : base) (value_type_ : value_type) (value : pyval)
  | FChoices (b : base) (choices : list pyval) (value : pyval)
  | FList (b : base) (element_object : field) (value : pyval)
  | FDict (b : base) (inner_attrs_enabled : bool) (is_properties_defined : bool)
          (properties : list (string * field))
  | FConvertedDict (b : base) (depth : nat) (properties : field) (value : pyval).

Definition field_base (f : field) : base :=
  match f with
  | FScalar b _ _ | FChoices b _ _ | FList b _ _ | FDict b _ _ _
  | FConvertedDict b _ _ _ => b
  end.

Definition map_base (g : base → base) (f : field) : field :=
  match f with
  | FScalar b t v => FScalar (g b) t v
  | FChoices b c v => FChoices (g b) c v
  | FList b eo v => FList (g b) eo v
  | FDict b i d ps => FDict (g b) i d ps
  | FConvertedDict b n p v => FConvertedDict (g b) n p v
  end.

Definition is_dict_field (f : field) : bool :=
  match f with FDict _ _ _ _ => true | _ => false end.

(** The instance attribute [value] of a field that stores one. *)
Definition stored_value (f : field) : pyval :=
  match f with
  | FScalar _ _ v | FChoices _ _ v | FList _ _ v | FConvertedDict _ _ _ v => v
  | FDict _ _ _ _ => PNone
  end.

(** [self.value = v] on a field that stores its value. *)
Definition store_value (v : pyval) (f : field) : field :=
  match f with
  | FScalar b t _ => FScalar b t v
  | FChoices b c _ => FChoices b c v
  | FList b eo _ => FList b eo v
  | FConvertedDict b n p _ => FConvertedDict b n p v
  | FDict _ _ _ _ => f
  end.

(** ** Construction *)

(** The class attribute [Field._default_attrs]. *)
Definition class_default_attrs : dict :=
  [("pretty_name", PStr "Поле"); ("content_type", PStr "text")].

(** [Field.__init__(default, default_attrs, required, validation_level,
    attrs_enabled)], with the level already one of the three constants. *)
Definition Field___init__ (default : pyval) (default_attrs_ : pyval)
    (required_ : bool) (level : ValidationLevel) (attrs_enabled_ : bool)
    : outcome base :=
  if truthy default_attrs_ then
    match default_attrs_ with
    | PDict d =>
        Return (Base default (alist_update class_default_attrs d) required_
                     level attrs_enabled_ [])
    | _ => Raise (ETypeError
        ("Default attributes must be an instance of a dict type, but got "
         ++ type_repr default_attrs_ ++ " instead."))
    end
  else Return (Base default class_default_attrs required_ level attrs_enabled_ []).

(** [Field.__init__()] with every argument at its default. *)
Definition default_base : base :=
  Base PNone class_default_attrs false STRICT true [].

(** [Text(attrs_enabled=e)] *)
Definition Text (e : bool) : field :=
  FScalar (with_attrs_enabled e default_base) VStr PNone.

(** [Dict.__init__(properties, inner_attrs_enabled, **kwargs)]: [b] is what
    [Field.__init__(kwargs)] builds.  Without inner attrs every property
    has its [_attrs_enabled] switched off; a composite built with no
    property is in open mode for good. *)
Definition Dict___init__ (properties : list (string * field))
    (inner_attrs_enabled : bool) (b : base) : field :=
  let props :=
    if inner_attrs_enabled then properties
    else map (λ kc, (kc.1, map_base (with_attrs_enabled false) kc.2)) properties in
  FDict b inner_attrs_enabled (match props with [] => false | _ => true end) props.

(** [List.__init__(element_object, **kwargs)]: the template's level is
    overwritten with [STRICT]. *)
Definition List___init__ (element_object : field) (b : base) : field :=
  FList b (map_base (with_validation_level STRICT) element_object) PNone.

(** ** [ConvertedDict]: schema and conversion *)

(** The loop of [__update_mapping] that nests [inner_dict] levels. *)
Fixpoint new_mapping (levels : nat) : list (string * field) :=
  match levels with
  | O => [("key", Text true); ("value", Text true)]
  | S n =>
      [("key", Text true); ("value", Text true);
       ("inner_dict",
        Dict___init__ (new_mapping n) false (with_attrs_enabled false default_base))]
  end.

(** [ConvertedDict.__determine_depth] *)
Fixpoint determine_depth (data : pyval) : nat :=
  match data with
  | PDict d =>
      match d with
      | [] => 0
      | _ => S (list_max (map (λ kv, determine_depth kv.2) d))
      end
  | _ => 0
  end.

(** [ConvertedDict.__update_mapping(depth)]: returns the new depth and
    schema when the mapping was updated, [None] when it was not. *)
Definition update_mapping (depth : nat) (value : pyval) (requested : option nat)
    : option (nat * field) :=
  let current_depth :=
    match requested with
    | Some (S n) => S n
    | _ => determine_depth value
    end in
  if (current_depth <=? depth)%nat then None
  else Some (current_depth,
             Dict___init__ (new_mapping (current_depth - 1)) false
                           (with_attrs_enabled false default_base)).

(** [ConvertedDict.__init__(kwargs)] *)
Definition ConvertedDict___init__ (b : base) : field :=
  match update_mapping 0 PNone (Some 1) with
  | Some (n, p) => FConvertedDict b n p PNone
  | None => FConvertedDict b 0 (Dict___init__ [] false default_base) PNone
  end.

(** [ConvertedDict.__convert_dict], on the dict held in [data] *)
Fixpoint convert_dict (data : pyval) : list pyval :=
  match data with
  | PDict d =>
      map (λ kv,
             match kv.2 with
             | PDict _ =>
                 PDict [("key", PStr kv.1); ("inner_dict", PList (convert_dict kv.2))]
             | _ => PDict [("key", PStr kv.1); ("value", kv.2)]
             end) d
  | _ => []
  end.

(** ** [set] and [update] *)

(** The first half of [Field.set]: with attrs enabled, a dict that has a
    ["value"] key is split into the new value (the popped entry) and the
    new instance attrs (the rest). *)
Definition Field_set_split (b : base) (value : pyval) : base * pyval :=
  match value with
  | PDict d =>
      if attrs_enabled b && alist_has "value" d
      then (with_attrs (alist_pop "value" d) b, default PNone (alist_get "value" d))
      else (b, value)
  | _ => (b, value)
  end.

(** [Field.set(value)] on a field that stores its value. *)
Definition Field_set (f : field) (value : pyval) : field :=
  let '(b, new_value) := Field_set_split (field_base f) value in
  store_value new_value (map_base (λ _, b) f).

(** [Dict.__add_undefined_property]: the property created for a key that
    was not declared.  A dict without a ["value"] key gives a nested open
    [Dict], filled by its own [set(value, include_undefined=True)], whose
    keys are all undeclared in turn; anything else gives a [Text]. *)
Fixpoint undefined_property (inner_attrs_enabled : bool) (value : pyval) : field :=
  match value with
  | PDict d =>
      if alist_has "value" d then Field_set (Text inner_attrs_enabled) value
      else FDict (with_attrs_enabled inner_attrs_enabled default_base) false false
             (fold_left (λ props kv, alist_set kv.1 (undefined_property false kv.2) props)
                        d [])
  | _ => Field_set (Text inner_attrs_enabled) value
  end.

(** [child.set(value)] of one property, as a function of the value. *)
Definition setter : Type := pyval → field * outcome unit.

(** The loop of [Dict.update] over [value.items()].  [setters] holds the
    [set] of the properties the composite had on entry; a property that
    this loop created is met again only if [items] repeats a key. *)
Fixpoint Dict_update_loop (setters : list (string * setter))
    (inner_attrs_enabled include_undefined : bool)
    (props : list (string * field)) (items : dict)
    : list (string * field) * outcome unit :=
  match items with
  | [] => (props, Return tt)
  | (property_name, property_value) :: rest =>
      if alist_has property_name props then
        match alist_get property_name setters with
        | Some set_child =>
            let '(c, r) := set_child property_value in
            let props := alist_set property_name c props in
            match r with
            | Return _ =>
                Dict_update_loop setters inner_attrs_enabled include_undefined props rest
            | Raise e => (props, Raise e)
            end
        | None =>
            Dict_update_loop setters inner_attrs_enabled include_undefined
              (alist_set property_name
                 (undefined_property inner_attrs_enabled property_value) props) rest
        end
      else if include_undefined then
        Dict_update_loop setters inner_attrs_enabled include_undefined
          (alist_set property_name
             (undefined_property inner_attrs_enabled property_value) props) rest
      else Dict_update_loop setters inner_attrs_enabled include_undefined props rest
  end.

(** [Dict.update(value, include_undefined, **kwargs)], on [_properties]. *)
Definition Dict_update_with (setters : list (string * setter))
    (inner_attrs_enabled is_properties_defined : bool)
    (props : list (string * field))
    (value : pyval) (include_undefined : bool) (kwargs : dict)
    : list (string * field) * outcome unit :=
  let value := if truthy value then value else PDict [] in
  match value with
  | PDict d =>
      let include_undefined :=
        if is_properties_defined then include_undefined else true in
      Dict_update_loop setters inner_attrs_enabled include_undefined props
                       (alist_update d kwargs)
  | _ => (props, Raise (ETypeError
      ("Update method can only work with dictionaries, but got "
       ++ type_repr value ++ " instead.")))
  end.

(** The setter of the [Dict.value] property. *)
Definition Dict_value_setter (setters : list (string * setter))
    (inner_attrs_enabled is_properties_defined : bool)
    (props : list (string * field)) (value : pyval)
    : list (string * field) * outcome unit :=
  if truthy value && negb (is_dict value) then
    (props, Raise (ETypeError
       ("Value must be an instance of dict type, but got " ++ type_repr value)))
  else
    let new_value :=
      alist_update (map (λ kc, (kc.1, PNone)) props)
                   (match value with PDict d => d | _ => [] end) in
    Dict_update_with setters inner_attrs_enabled is_properties_defined props
                     (PDict new_value) true [].

(** The keys of [d] that [Dict.set] keeps when undefined keys are not
    admitted. *)
Definition keep_declared (props : list (string * field)) (d : dict) : dict :=
  List.filter (λ kv, alist_has kv.1 props) d.

(** The loop of [Dict.set] that pops the undeclared keys, from [value]
    or, with attrs enabled and a ["value"] key, from [value['value']]. *)
Definition Dict_drop_undefined (b : base) (props : list (string * field))
    (value : pyval) : outcome pyval :=
  match value with
  | PDict d =>
      if attrs_enabled b && alist_has "value" d then
        match alist_get "value" d with
        | Some (PDict new_value) =>
            Return (PDict (alist_set "value" (PDict (keep_declared props new_value)) d))
        | Some other =>
            Raise (EAttributeError
              (quote1 ++ type_name other ++ quote1
               ++ " object has no attribute " ++ quote1 ++ "keys" ++ quote1))
        | None => Return value
        end
      else Return (PDict (keep_declared props d))
  | _ => Return value
  end.

(** [Dict.set(value, include_undefined)], called without further keyword
    arguments, so that its closing [self.update(...)] has nothing to
    apply. *)
Definition Dict_set_with (setters : list (string * setter))
    (b : base) (inner_attrs_enabled is_properties_defined : bool)
    (props : list (string * field)) (value : pyval) (include_undefined : bool)
    : field * outcome unit :=
  let include_undefined :=
    if is_properties_defined then include_undefined else true in
  let unchanged := FDict b inner_attrs_enabled is_properties_defined props in
  if truthy value && negb (is_dict value) then
    (unchanged, Raise (ETypeError
       ("Value must be an instance of dict type, but got " ++ type_repr value)))
  else
    match (if truthy value && negb include_undefined
           then Dict_drop_undefined b props value else Return value) with
    | Raise e => (unchanged, Raise e)
    | Return value =>
        let '(b, new_value) := Field_set_split b value in
        let '(props, r) :=
          Dict_value_setter setters inner_attrs_enabled is_properties_defined
                            props new_value in
        (FDict b inner_attrs_enabled is_properties_defined props, r)
    end.

(** [f.set(value)], by the class of [f]. *)
Fixpoint set_ (f : field) (value : pyval) {struct f} : field * outcome unit :=
  match f with
  | FDict b i d props =>
      Dict_set_with (map (λ kc, (kc.1, set_ kc.2)) props) b i d props value false
  | _ => (Field_set f value, Return tt)
  end.

Definition setters_of (props : list (string * field)) : list (string * setter) :=
  map (λ kc, (kc.1, set_ kc.2)) props.

(** [Dict.set(value, include_undefined)]; on another class, whose [set]
    has no such parameter, the call is a [TypeError]. *)
Definition Dict_set (f : field) (value : pyval) (include_undefined : bool)
    : field * outcome unit :=
  match f with
  | FDict b i d props =>
      Dict_set_with (setters_of props) b i d props value include_undefined
  | _ => (f, Raise (ETypeError
      "set() got an unexpected keyword argument 'include_undefined'"))
  end.

(** [self.value = value] *)
Definition assign_value (f : field) (value : pyval) : field * outcome unit :=
  match f with
  | FDict b i d props =>
      let '(props, r) := Dict_value_setter (setters_of props) i d props value in
      (FDict b i d props, r)
  | _ => (store_value value f, Return tt)
  end.

(** [Dict.update(value, include_undefined, **kwargs)] *)
Definition Dict_update (f : field) (value : pyval) (include_undefined : bool)
    (kwargs : dict) : field * outcome unit :=
  match f with
  | FDict b i d props =>
      let '(props, r) :=
        Dict_update_with (setters_of props) i d props value include_undefined kwargs in
      (FDict b i d props, r)
  | _ => (f, Raise (ETypeError
      "update() got an unexpected keyword argument 'include_undefined'"))
  end.

(** [f.update(value)]: [Field.update] merges the present instance attrs
    under the ones that come with the value; [Dict.update] overrides it. *)
Definition update_ (f : field) (value : pyval) : field * outcome unit :=
  match f with
  | FDict _ _ _ _ => Dict_update f value false []
  | _ =>
      let b := field_base f in
      match value with
      | PDict d =>
          if attrs_enabled b && alist_has "value" d
          then set_ f (PDict (alist_update (attrs b) d))
          else set_ f value
      | _ => set_ f value
      end
  end.

(** ** Instance attrs *)

(** [Field.set_attrs(attrs, include_undefined, **kwargs)] *)
Definition Field_set_attrs (b : base) (attrs_ : pyval) (include_undefined : bool)
    (kwargs : dict) : base * outcome unit :=
  if truthy attrs_ && negb (is_dict attrs_) then
    (b, Raise (ETypeError
       ("Attributes must be declared using dictionaries, but got "
        ++ type_repr attrs_ ++ " instead.")))
  else
    let a := match attrs_ with PDict d => d | _ => [] end in
    let a := alist_pop "value" (alist_update a kwargs) in
    if include_undefined then (with_attrs a b, Return tt)
    else
      let result :=
        fold_left (λ result attr_name,
                     match alist_get attr_name a with
                     | Some v => alist_set attr_name v result
                     | None => result
                     end)
                  (alist_keys (attrs b) ++ alist_keys (default_attrs b)) [] in
      (with_attrs result b, Return tt).

(** [Field.update_attrs(attrs, include_undefined, **kwargs)] *)
Definition Field_update_attrs (b : base) (attrs_ : pyval) (include_undefined : bool)
    (kwargs : dict) : base * outcome unit :=
  let attrs_ := if truthy attrs_ then attrs_ else PDict [] in
  match attrs_ with
  | PDict d =>
      Field_set_attrs b (PDict (alist_update (attrs b) d)) include_undefined kwargs
  | _ => (b, Raise (ETypeError
      (quote1 ++ type_name attrs_ ++ quote1 ++ " object is not a mapping")))
  end.

Definition set_attrs (f : field) (attrs_ : pyval) (include_undefined : bool)
    (kwargs : dict) : field * outcome unit :=
  let '(b, r) := Field_set_attrs (field_base f) attrs_ include_undefined kwargs in
  (map_base (λ _, b) f, r).

Definition update_attrs (f : field) (attrs_ : pyval) (include_undefined : bool)
    (kwargs : dict) : field * outcome unit :=
  let '(b, r) := Field_update_attrs (field_base f) attrs_ include_undefined kwargs in
  (map_base (λ _, b) f, r).

(** ** [deserialize] *)

(** [Field._deserialize] *)
Definition Field__deserialize (t : value_type) (data : pyval) : outcome pyval :=
  match t with
  | VObject => Return (PStr (py_str data))
  | _ => construct t data
  end.

(** The loop of [__deconvert_dict] over the records of a converted dict.
    Each record comes with the deconversion of its entries, of which the
    loop reads the one under ["inner_dict"].  The dicts modelled have
    [str] keys: a record whose ["key"] is not a [str] is reported as a
    [TypeError], which is what CPython raises for an unhashable key. *)
Fixpoint deconvert_pairs (pairs : list (pyval * list (string * outcome pyval)))
    (result : dict) : outcome pyval :=
  match pairs with
  | [] => Return (PDict result)
  | (record, inner) :: rest =>
      has_value <- py_contains "value" record ;;
      has_inner <- py_contains "inner_dict" record ;;
      has_key <- py_contains "key" record ;;
      if (has_value && has_inner) || (negb has_value && negb has_inner)
         || negb has_key
      then Raise (EValueError "Incorrect structure of converted dict.")
      else
        key <- py_getitem record "key" ;;
        v <- (if has_value then py_getitem record "value"
              else default (Raise (EKeyError "inner_dict"))
                           (alist_get "inner_dict" inner)) ;;
        match key with
        | PStr k => deconvert_pairs rest (alist_set k v result)
        | _ => Raise (ETypeError
            ("unhashable type: " ++ quote1 ++ type_name key ++ quote1))
        end
  end.

(** [ConvertedDict.__deconvert_dict] *)
Fixpoint deconvert_dict (data : pyval) : outcome pyval :=
  match data with
  | PList pairs =>
      match pairs with
      | [] => Return data
      | _ :: _ =>
          deconvert_pairs
            (map (λ record,
                    (record,
                     match record with
                     | PDict d => map (λ kv, (kv.1, deconvert_dict kv.2)) d
                     | _ => []
                     end)) pairs) []
      end
  | PDict d => Return (default data (alist_get "value" d))
  | _ => Return data
  end.

(** [child.deserialize(value)] of one property. *)
Definition deserializer : Type := pyval → outcome pyval.

(** The loop of [Dict._deserialize] over [data.items()]. *)
Fixpoint Dict__deserialize_loop (table : list (string * deserializer))
    (items : dict) (data : dict) : outcome pyval :=
  match items with
  | [] => Return (PDict data)
  | (key, value) :: rest =>
      match alist_get key table with
      | None => Dict__deserialize_loop table rest data
      | Some deserialize_child =>
          v <- deserialize_child value ;;
          Dict__deserialize_loop table rest (alist_set key v data)
      end
  end.

(** [Dict._deserialize] *)
Definition Dict__deserialize (table : list (string * deserializer))
    (data : pyval) : outcome pyval :=
  if truthy data then
    match data with
    | PDict d => Dict__deserialize_loop table d d
    | _ => Raise (EAttributeError
        (quote1 ++ type_name data ++ quote1
         ++ " object has no attribute " ++ quote1 ++ "items" ++ quote1))
    end
  else Return PNone.

(** What [Field.deserialize] hands to [_deserialize]: with attrs enabled,
    the entry under ["value"] when [data] is a dict that has one. *)
Definition data_to_deserialize (b : base) (data : pyval) : pyval :=
  match data with
  | PDict d =>
      if attrs_enabled b then default data (alist_get "value" d) else data
  | _ => data
  end.

(** [f.deserialize(data)], the deserialized value. *)
Fixpoint deserialize (f : field) (data : pyval) {struct f} : outcome pyval :=
  let data := data_to_deserialize (field_base f) data in
  match f with
  | FScalar _ t _ => Field__deserialize t data
  | FChoices _ _ _ => Field__deserialize VObject data
  | FList _ _ _ => py_list data
  | FDict _ _ _ props =>
      Dict__deserialize (map (λ kc, (kc.1, deserialize kc.2)) props) data
  | FConvertedDict _ _ _ _ => deconvert_dict data
  end.

(** [f.deserialize(data, auto_set=True)]: the field after the call and the
    deserialized value.  [ConvertedDict.deserialize] then brings the schema
    up to the depth of the new value. *)
Definition deserialize_auto_set (f : field) (data : pyval)
    : field * outcome pyval :=
  match deserialize f data with
  | Raise e => (f, Raise e)
  | Return deserialized_data =>
      let '(f, r) := set_ f deserialized_data in
      match r with
      | Raise e => (f, Raise e)
      | Return _ =>
          match f with
          | FConvertedDict b n p v =>
              match update_mapping n v None with
              | Some (n', p') => (FConvertedDict b n' p' v, Return deserialized_data)
              | None => (f, Return deserialized_data)
              end
          | _ => (f, Return deserialized_data)
          end
      end
  end.

(** ** [serialize] *)

(** [Field.serialize(include_all_attrs)], given what [_serialize()]
    returned. *)
Definition Field_serialize_with (b : base) (raw : outcome pyval)
    (include_all_attrs : bool) : outcome pyval :=
  value <- raw ;;
  if is_empty value && is_empty (default_value b) then Return PNone
  else
    let value := if is_empty value then default_value b else value in
    if attrs_enabled b then
      Return (PDict (alist_update
                       (alist_update [("value", value)]
                          (if include_all_attrs then default_attrs b else []))
                       (attrs b)))
    else Return value.

(** The nesting of [List] templates in a field: the recursion of
    [_serialize] and [clean] through [element_object] goes that deep, and
    no method changes it. *)
Fixpoint list_nesting (f : field) : nat :=
  match f with
  | FList _ eo _ => S (list_nesting eo)
  | FDict _ _ _ props => list_max (map (λ kc, list_nesting kc.2) props)
  | _ => 0
  end.

Section Serialize.
(** [element_object._serialize()] for the template of a [List]. *)
Variable _serialize_element : field → outcome pyval.

(** The loop of [List._serialize]: the copy of the template is set to
    each element in turn. *)
Fixpoint List__serialize_loop (element_object : field) (elements : list pyval)
    (result : list pyval) : outcome pyval :=
  match elements with
  | [] => Return (PList result)
  | element :: rest =>
      let '(eo, r) := set_ element_object element in
      _ <- r ;;
      s <- _serialize_element eo ;;
      List__serialize_loop eo rest (result ++ [s])%list
  end.

(** The loop of the [Dict.value] getter over [_properties.items()]; each
    property comes with the outcome of its [_serialize()]. *)
Fixpoint Dict_value_loop (children : list (string * (field * outcome pyval)))
    (result : dict) : outcome pyval :=
  match children with
  | [] => Return (PDict result)
  | (property_name, (property_object, raw)) :: rest =>
      v <- (if is_dict_field property_object then raw
            else Return (stored_value property_object)) ;;
      if is_empty v then Dict_value_loop rest result
      else
        s <- Field_serialize_with (field_base property_object) raw false ;;
        Dict_value_loop rest (alist_set property_name s result)
  end.

(** [f._serialize()], by the class of [f]. *)
Fixpoint _serialize_step (f : field) : outcome pyval :=
  match f with
  | FScalar _ _ v | FChoices _ _ v => Return v
  | FList _ eo v =>
      match v with
      | PList l => List__serialize_loop eo l []
      | _ => Return (PStr (py_str v))
      end
  | FDict _ _ _ props =>
      Dict_value_loop (map (λ kc, (kc.1, (kc.2, _serialize_step kc.2))) props) []
  | FConvertedDict _ _ _ v =>
      match v with
      | PDict _ => Return (PList (convert_dict v))
      | _ => Return (PDict [("value", PStr (py_str v))])
      end
  end.
End Serialize.

Fixpoint _serialize_n (n : nat) (f : field) {struct n} : outcome pyval :=
  match n with
  | O => _serialize_step (λ _, Raise ERecursionError) f
  | S m => _serialize_step (_serialize_n m) f
  end.

(** [f._serialize()] *)
Definition _serialize (f : field) : outcome pyval :=
  _serialize_n (list_nesting f) f.

(** [f.value]: the stored value, or the property of a [Dict]. *)
Definition value_of (f : field) : outcome pyval :=
  if is_dict_field f then _serialize f else Return (stored_value f).

(** [f.serialize(include_all_attrs)] *)
Definition serialize (f : field) (include_all_attrs : bool) : outcome pyval :=
  Field_serialize_with (field_base f) (_serialize f) include_all_attrs.

(** ** [clean] *)

Definition required_message : string :=
  "В данном поле ожидается значение, но оно осталось пустым.".

(** [Field._clean], on the value: [deserialized] is what
    [self._deserialize(data)] gives and [cls] names [self._value_type]. *)
Definition Field__clean_value (is_instance : bool) (deserialized : outcome pyval)
    (cls : string) (value : pyval) : outcome pyval :=
  if is_instance then Return value
  else
    match deserialized with
    | Return data => Return data
    | Raise error =>
        Raise (ValidationException
          ("Не удалось перобразовать значение поля типа " ++ type_repr value
           ++ " к " ++ class_repr cls ++ " (" ++ exn_str error ++ ")."))
    end.

(** [ConvertedDict._clean] *)
Definition ConvertedDict__clean (b : base) (depth : nat) (properties : field)
    (value : pyval) : field * outcome unit :=
  match Field__clean_value (is_dict value) (deconvert_dict value) "dict" value with
  | Raise e => (FConvertedDict b depth properties value, Raise e)
  | Return data =>
      if negb (is_dict data) then
        (FConvertedDict b depth properties data,
         Raise (ValidationException "Значение поля не является словарем."))
      else
        match update_mapping depth data None with
        | Some (depth', properties') =>
            (FConvertedDict b depth' properties' data, Raise InitializationRequired)
        | None => (FConvertedDict b depth properties data, Return tt)
        end
  end.

(** [Field.clean], given the outcome of reading [self.value] and what
    [self._clean()] does. *)
Definition Field_clean_with (f : field) (value : outcome pyval)
    (_clean : field * outcome unit) : field * outcome unit :=
  match value with
  | Raise e => (f, Raise e)
  | Return v =>
      if is_empty v then
        if required (field_base f)
        then (f, Raise (ValidationException required_message))
        else assign_value f PNone
      else
        let '(f', r) := _clean in
        match r with
        | Raise (EValidation message) =>
            match validation_level (field_base f') with
            | STRICT => (f', Raise (EValidation message))
            | WARNING =>
                (map_base (λ b, with_attrs (alist_set "warning" (PStr message) (attrs b)) b) f',
                 Return tt)
            | DISABLED => (f', Return tt)
            end
        | _ => (f', r)
        end
  end.

Definition element_check_message (element : pyval) (error : exn) : string :=
  "Не удалось проверить элемент " ++ py_str element ++ " списка: "
  ++ exn_str error ++ ".".

Definition element_validation_message (element : pyval) (error : string) : string :=
  "Не удалось валидировать элемент " ++ py_str element ++ " списка: "
  ++ error ++ ".".

Definition property_validation_message (property_name error : string) : string :=
  "Поле " ++ property_name ++ " не было успешно валидировано: " ++ error ++ ". ".

Section Clean.
(** [element_object.clean()] for the template of a [List]. *)
Variable clean_element : field → field * outcome unit.

(** The loop of [List._clean]: [done] holds the elements already
    replaced by their cleaned value, [todo] the ones still to check. *)
Fixpoint List__clean_loop (element_object : field) (done todo : list pyval)
    : list pyval * outcome unit :=
  match todo with
  | [] => (done, Return tt)
  | element :: rest =>
      let '(eo, r) := set_ element_object element in
      match r with
      | Raise error =>
          ((done ++ todo)%list,
           Raise (ValidationException (element_check_message element error)))
      | Return _ =>
          let '(eo, r) := clean_element eo in
          match (_ <- r ;; value_of eo) with
          | Raise (EValidation error) =>
              ((done ++ todo)%list,
               Raise (ValidationException (element_validation_message element error)))
          | Raise e => ((done ++ todo)%list, Raise e)
          | Return v => List__clean_loop eo (done ++ [v])%list rest
          end
      end
  end.

(** The loop of [Dict._clean]: each property comes with the outcome of
    its [clean()]. *)
Fixpoint Dict__clean_loop (children : list (string * field * (field * outcome unit)))
    (error_message : string) : list (string * field) * outcome unit :=
  match children with
  | [] =>
      ([], if String.eqb error_message "" then Return tt
           else Raise (ValidationException error_message))
  | (property_name, _, (cleaned, r)) :: rest =>
      match r with
      | Return _ =>
          let '(ps, out) := Dict__clean_loop rest error_message in
          ((property_name, cleaned) :: ps, out)
      | Raise (EValidation error) =>
          let '(ps, out) :=
            Dict__clean_loop rest
              (error_message ++ property_validation_message property_name error) in
          ((property_name, cleaned) :: ps, out)
      | Raise e =>
          ((property_name, cleaned) :: map (λ x, (x.1.1, x.1.2)) rest, Raise e)
      end
  end.

(** [f.clean()], by the class of [f]. *)
Fixpoint clean_step (f : field) : field * outcome unit :=
  match f with
  | FScalar b t v =>
      Field_clean_with f (Return v)
        (match Field__clean_value (py_isinstance v t) (Field__deserialize t v)
                                  (value_type_name t) v with
         | Return data => (FScalar b t data, Return tt)
         | Raise e => (f, Raise e)
         end)
  | FChoices b choices v =>
      Field_clean_with f (Return v)
        (f, if py_in_list v choices then Return tt
            else Raise (ValidationException
                   "Значение поля не находится в списке допустимых."))
  | FList b eo v =>
      Field_clean_with f (Return v)
        (match v with
         | PList l =>
             let '(l', r) := List__clean_loop eo [] l in (FList b eo (PList l'), r)
         | _ => (f, Raise (ValidationException "Значение поля не является списком."))
         end)
  | FDict b i d props =>
      Field_clean_with f (value_of f)
        (let '(ps, r) :=
           Dict__clean_loop (map (λ kc, (kc.1, kc.2, clean_step kc.2)) props) "" in
         (FDict b i d ps, r))
  | FConvertedDict b n p v =>
      Field_clean_with f (Return v) (ConvertedDict__clean b n p v)
  end.
End Clean.

Fixpoint clean_n (n : nat) (f : field) {struct n} : field * outcome unit :=
  match n with
  | O => clean_step (λ g, (g, Raise ERecursionError)) f
  | S m => clean_step (clean_n m) f
  end.

(** [f.clean()] *)
Definition clean (f : field) : field * outcome unit :=
  clean_n (list_nesting f) f.

(** The methods [_clean] of the classes, with [clean] for the fields
    inside. *)

(** [Dict._clean]: every property is cleaned. *)
Definition Dict__clean (b : base) (i d : bool) (ps : list (string * field))
    : field * outcome unit :=
  let '(ps', r) := Dict__clean_loop (map (λ kc, (kc.1, kc.2, clean kc.2)) ps) "" in
  (FDict b i d ps', r).

(** [List._clean] *)
Definition List__clean (b : base) (eo : field) (v : pyval) : field * outcome unit :=
  match v with
  | PList l =>
      let '(l', r) := List__clean_loop clean eo [] l in (FList b eo (PList l'), r)
  | _ => (FList b eo v, Raise (ValidationException "Значение поля не является списком."))
  end.

(** [Field._clean] of a scalar field *)
Definition Field__clean (b : base) (t : value_type) (v : pyval) : field * outcome unit :=
  match Field__clean_value (py_isinstance v t) (Field__deserialize t v)
                           (value_type_name t) v with
  | Return data => (FScalar b t data, Return tt)
  | Raise e => (FScalar b t v, Raise e)
  end.

(** [Choices._clean] *)
Definition Choices__clean (b : base) (choices : list pyval) (v : pyval)
    : field * outcome unit :=
  (FChoices b choices v,
   if py_in_list v choices then Return tt
   else Raise (ValidationException "Значение поля не находится в списке допустимых.")).

(** [f._clean()], by the class of [f]. *)
Definition _clean (f : field) : field * outcome unit :=
  match f with
  | FScalar b t v => Field__clean b t v
  | FChoices b choices v => Choices__clean b choices v
  | FList b eo v => List__clean b eo v
  | FDict b i d ps => Dict__clean b i d ps
  | FConvertedDict b n p v => ConvertedDict__clean b n p v
  end.

#[global] Arguments Dict__clean : simpl never.
#[global] Arguments List__clean : simpl never.
#[global] Arguments Field__clean : simpl never.
#[global] Arguments Choices__clean : simpl never.

#[global] Arguments ValidationException : simpl never.
#[global] Arguments Field_clean_with : simpl never.
#[global] Arguments Field_serialize_with : simpl never.
#[global] Arguments Field__clean_value : simpl never.
#[global] Arguments ConvertedDict__clean : simpl never.
#[global] Arguments Dict_set_with : simpl never.
#[global] Arguments Dict_value_setter : simpl never.
#[global] Arguments Dict_update_with : simpl never.

(** ** [repr] and item access *)

(** What [__repr__] shows for an entry: a [str] between double quotes,
    anything else as [str()] gives it. *)
Definition show_value (value : pyval) : string :=
  match value with
  | PStr s => quote2 ++ s ++ quote2
  | _ => py_str value
  end.

(** The loop of [__repr__] over [repr_dict.items()], from the text
    [result]. *)
Definition repr_entries (result : string) (repr_dict : dict) : string :=
  fold_left (λ result kv,
               result ++ quote2 ++ kv.1 ++ quote2 ++ ": " ++ show_value kv.2 ++ ", ")
            repr_dict result.

(** [result[:-2]], for a text that ends with two ASCII characters, as the
    one of [__repr__] does. *)
Definition drop_last_two (s : string) : string :=
  String.substring 0 (String.length s - 2) s.

(** [Field.__repr__], on a field that stores its value; [cls] is
    [self.__class__.__name__]. *)
Definition Field___repr__ (cls : string) (f : field) : string :=
  cls ++ "({"
  ++ drop_last_two
       (repr_entries "" (alist_update [("value", stored_value f)] (attrs (field_base f))))
  ++ "})".

(** [Dict.__repr__] *)
Definition Dict___repr__ (b : base) : string :=
  "Dict({"
  ++ drop_last_two (repr_entries (quote2 ++ "value" ++ quote2 ++ ": {...}, ") (attrs b))
  ++ "})".

(** [Field.__getitem__], on a field that stores its value. *)
Definition Field___getitem__ (cls : string) (f : field) (item : string)
    : outcome pyval :=
  if String.eqb item "value" then Return (stored_value f)
  else
    match alist_get item (attrs (field_base f)) with
    | Some v => Return v
    | None =>
        match alist_get item (default_attrs (field_base f)) with
        | Some v => Return v
        | None =>
            Raise (EKeyError
              ("There is no " ++ quote2 ++ item ++ quote2
               ++ " attribute in the field " ++ Field___repr__ cls f ++ "."))
        end
    end.

(** [Field.__setitem__], on a field that stores its value. *)
Definition Field___setitem__ (cls : string) (f : field) (key : string)
    (value : pyval) : field * outcome unit :=
  if String.eqb key "value" then (store_value value f, Return tt)
  else if alist_has key (attrs (field_base f))
          || alist_has key (default_attrs (field_base f))
  then set_attrs f (PDict [(key, value)]) false []
  else
    (f, Raise (EKeyError
       ("There is no " ++ quote2 ++ key ++ quote2
        ++ " attribute in the field " ++ Field___repr__ cls f ++ "."))).

(** ** [Dict] as a mapping

    The methods below are given the parts of the composite: its [base],
    the two flags and [_properties]. *)

(** [Dict.__getitem__]: the property object. *)
Definition Dict___getitem__ (props : list (string * field)) (item : string)
    : outcome field :=
  match alist_get item props with
  | Some c => Return c
  | None => Raise (EKeyError item)
  end.

(** [Dict.__setitem__] *)
Definition Dict___setitem__ (b : base) (i d : bool) (props : list (string * field))
    (key : string) (value : pyval) : field * outcome unit :=
  match alist_get key props with
  | Some c =>
      let '(c', r) := set_ c value in
      (FDict b i d (alist_set key c' props), r)
  | None => (FDict b i d props, Raise (EKeyError key))
  end.

(** [Dict.keys()], also what [Dict.__iter__] yields. *)
Definition Dict_keys (props : list (string * field)) : list string :=
  alist_keys props.

(** The loop of [Dict.clear]: every property is set to [None]. *)
Fixpoint Dict_clear_loop (props : list (string * field))
    : list (string * field) * outcome unit :=
  match props with
  | [] => ([], Return tt)
  | (property_name, property_object) :: rest =>
      let '(c, r) := set_ property_object PNone in
      match r with
      | Return _ =>
          let '(ps, out) := Dict_clear_loop rest in
          ((property_name, c) :: ps, out)
      | Raise e => ((property_name, c) :: rest, Raise e)
      end
  end.

(** [Dict.clear()] *)
Definition Dict_clear (b : base) (i d : bool) (props : list (string * field))
    : field * outcome unit :=
  let '(ps, r) := Dict_clear_loop props in
  (FDict b i d ps, r).

(** [Dict.get(key, *args)]; [args] is the default, when one is given. *)
Definition Dict_get (b : base) (props : list (string * field)) (key : string)
    (args : option pyval) : outcome pyval :=
  match alist_get key props with
  | Some c => serialize c false
  | None =>
      match args with
      | Some default_ => Return default_
      | None =>
          Raise (EKeyError
            ("There is no key " ++ key ++ " in the dictionary object "
             ++ Dict___repr__ b ++ "."))
      end
  end.

(** [Dict.pop(key, *args)]; [args] is the default, when one is given (a
    value, not a field).  The property stays in [_properties]: it is set
    to [None]. *)
Definition Dict_pop (b : base) (i d : bool) (props : list (string * field))
    (key : string) (args : option pyval) : field * outcome pyval :=
  match alist_get key props with
  | Some c =>
      match value_of c with
      | Raise e => (FDict b i d props, Raise e)
      | Return value =>
          let '(c', r) := set_ c PNone in
          (FDict b i d (alist_set key c' props), _ <- r ;; Return value)
      end
  | None =>
      match args with
      | Some default_ => (FDict b i d props, Return default_)
      | None =>
          (FDict b i d props,
           Raise (EKeyError
             ("There is no key " ++ key ++ " in the Dict object "
              ++ Dict___repr__ b ++ ".")))
      end
  end.

(** * Part 3: [set] over a store of dict objects

    A Python dict is an object: the dict a caller hands to [set] is the one
    the field works on, and the one it may keep as its [_attrs].  Here a
    value refers to a dict by its location in a store, so that a call can
    be seen to edit the caller's dict and to share it.  The module covers
    the methods that do so: [Field.set], [Field.update], [Field.set_attrs],
    [Field.update_attrs], and [Dict.set] up to the assignment of
    [self.value], whose setter is a parameter (its code is in Part 2). *)
Module Store.

Abbreviation loc := positive.

Inductive val : Type :=
  | VNone
  | VBool (b : bool)
  | VInt (z : Z)
  | VStr (s : string)
  | VList (l : list val)
  | VRef (l : loc).          (* a dict, by the location of the object *)

(** The dict objects that exist, each a map from its keys. *)
Abbreviation store := (gmap loc (gmap string val)).

(** [isinstance(v, dict)], with the location and the content. *)
Definition as_dict (σ : store) (v : val) : option (loc * gmap string val) :=
  match v with
  | VRef l => d ← σ !! l; Some (l, d)
  | _ => None
  end.

Definition is_dict (σ : store) (v : val) : bool :=
  match as_dict σ v with Some _ => true | None => false end.

(** [bool(v)] *)
Definition truthy (σ : store) (v : val) : bool :=
  match v with
  | VNone => false
  | VBool b => b
  | VInt z => negb (z =? 0)%Z
  | VStr s => negb (String.eqb s "")
  | VList l => match l with [] => false | _ => true end
  | VRef l =>
      match σ !! l with
      | Some d => negb (bool_decide (d = ∅))
      | None => true
      end
  end.

Definition type_name (σ : store) (v : val) : string :=
  match v with
  | VNone => "NoneType"
  | VBool _ => "bool"
  | VInt _ => "int"
  | VStr _ => "str"
  | VList _ => "list"
  | VRef l => match σ !! l with Some _ => "dict" | None => "object" end
  end.

(** A field: [_attrs] is a reference to a dict object.  [declared] is
    [None] for a field that stores its value, and the names of
    [_properties] for a [Dict]. *)
Record field : Type := Field {
  attrs_enabled : bool;
  value : val;
  attrs : loc;
  default_attrs_keys : list string;
  declared : option (list string);
  is_properties_defined : bool;
}.

Definition with_attrs (l : loc) (f : field) : field :=
  Field (attrs_enabled f) (value f) l (default_attrs_keys f) (declared f)
        (is_properties_defined f).

Definition with_value (v : val) (f : field) : field :=
  Field (attrs_enabled f) v (attrs f) (default_attrs_keys f) (declared f)
        (is_properties_defined f).

(** The first half of [Field.set]: [value.pop('value')] on the caller's
    dict, which becomes [self._attrs]. *)
Definition Field_set_split (σ : store) (f : field) (value_ : val)
    : store * field * val :=
  match as_dict σ value_ with
  | Some (l, d) =>
      match d !! "value" with
      | Some new_value =>
          if attrs_enabled f
          then (<[l := delete "value" d]> σ, with_attrs l f, new_value)
          else (σ, f, value_)
      | None => (σ, f, value_)
      end
  | None => (σ, f, value_)
  end.

(** [Field.set(value)] on a field that stores its value. *)
Definition Field_set (σ : store) (f : field) (value_ : val) : store * field :=
  let '(σ, f, new_value) := Field_set_split σ f value_ in
  (σ, with_value new_value f).

(** [Field.update(value)]: the merged dict is a new object. *)
Definition Field_update (σ : store) (f : field) (value_ : val) : store * field :=
  match as_dict σ value_ with
  | Some (l, d) =>
      match d !! "value" with
      | Some _ =>
          if attrs_enabled f then
            let merged := fresh (dom σ) in
            Field_set (<[merged := d ∪ default ∅ (σ !! attrs f)]> σ) f (VRef merged)
          else Field_set σ f value_
      | None => Field_set σ f value_
      end
  | None => Field_set σ f value_
  end.

(** [Field.set_attrs(attrs, include_undefined, **kwargs)]: the caller's
    dict takes [kwargs] and loses ["value"]. *)
Definition Field_set_attrs (σ : store) (f : field) (attrs_ : val)
    (include_undefined : bool) (kwargs : gmap string val)
    : store * field * outcome unit :=
  if truthy σ attrs_ && negb (is_dict σ attrs_) then
    (σ, f, Raise (ETypeError
       ("Attributes must be declared using dictionaries, but got <class "
        ++ quote1 ++ type_name σ attrs_ ++ quote1 ++ "> instead.")))
  else
    let '(l, d) :=
      match (if truthy σ attrs_ then as_dict σ attrs_ else None) with
      | Some (l, d) => (l, d)
      | None => (fresh (dom σ), ∅)
      end in
    let d := delete "value" (kwargs ∪ d) in
    let σ := <[l := d]> σ in
    if include_undefined then (σ, with_attrs l f, Return tt)
    else
      let names :=
        (map fst (map_to_list (default ∅ (σ !! attrs f))) ++ default_attrs_keys f)%list in
      let result := filter (λ kv, kv.1 ∈ names) d in
      let r := fresh (dom σ) in
      (<[r := result]> σ, with_attrs r f, Return tt).

(** [Field.update_attrs(attrs, include_undefined, **kwargs)] *)
Definition Field_update_attrs (σ : store) (f : field) (attrs_ : val)
    (include_undefined : bool) (kwargs : gmap string val)
    : store * field * outcome unit :=
  let given : option (gmap string val) :=
    if truthy σ attrs_ then snd <$> as_dict σ attrs_ else Some ∅ in
  match given with
  | Some d =>
      let merged := fresh (dom σ) in
      Field_set_attrs (<[merged := d ∪ default ∅ (σ !! attrs f)]> σ) f (VRef merged)
                      include_undefined kwargs
  | None => (σ, f, Raise (ETypeError
      (quote1 ++ type_name σ attrs_ ++ quote1 ++ " object is not a mapping")))
  end.

(** The loop of [Dict.set] that pops the undeclared keys, in place. *)
Definition Dict_drop_undefined (σ : store) (f : field) (names : list string)
    (value_ : val) : outcome store :=
  match as_dict σ value_ with
  | Some (l, d) =>
      match (if attrs_enabled f then d !! "value" else None) with
      | Some new_value =>
          match as_dict σ new_value with
          | Some (l2, d2) => Return (<[l2 := filter (λ kv, kv.1 ∈ names) d2]> σ)
          | None =>
              Raise (EAttributeError
                (quote1 ++ type_name σ new_value ++ quote1
                 ++ " object has no attribute " ++ quote1 ++ "keys" ++ quote1))
          end
      | None => Return (<[l := filter (λ kv, kv.1 ∈ names) d]> σ)
      end
  | None => Return σ
  end.

Section DictSet.
(** The setter of the [Dict.value] property, entered with the store and
    the field as [Dict.set] and [Field.set] left them. *)
Variable value_setter : store → field → val → store * field * outcome unit.

(** [Dict.set(value, include_undefined)], called without further keyword
    arguments, so that its closing [self.update(...)] has nothing to
    apply. *)
Definition Dict_set (σ : store) (f : field) (value_ : val)
    (include_undefined : bool) : store * field * outcome unit :=
  let include_undefined :=
    if is_properties_defined f then include_undefined else true in
  if truthy σ value_ && negb (is_dict σ value_) then
    (σ, f, Raise (ETypeError
       ("Value must be an instance of dict type, but got <class "
        ++ quote1 ++ type_name σ value_ ++ quote1 ++ ">")))
  else
    match (if truthy σ value_ && negb include_undefined
           then Dict_drop_undefined σ f (default [] (declared f)) value_
           else Return σ) with
    | Raise e => (σ, f, Raise e)
    | Return σ =>
        let '(σ, f, new_value) := Field_set_split σ f value_ in
        value_setter σ f new_value
    end.

(** [f.set(value)], by the class of [f]. *)
Definition set_ (σ : store) (f : field) (value_ : val)
    : store * field * outcome unit :=
  match declared f with
  | Some _ => Dict_set σ f value_ false
  | None => (Field_set σ f value_, Return tt)
  end.
End DictSet.

(** The operations on a field that stores its value. *)
Inductive operation : Type :=
  | OpSet (value_ : val)
  | OpUpdate (value_ : val)
  | OpSetAttrs (attrs_ : val) (include_undefined : bool) (kwargs : gmap string val)
  | OpUpdateAttrs (attrs_ : val) (include_undefined : bool) (kwargs : gmap string val).

Definition perform (s : store * field) (o : operation) : store * field :=
  let '(σ, f) := s in
  match o with
  | OpSet v => Field_set σ f v
  | OpUpdate v => Field_update σ f v
  | OpSetAttrs a iu kw => (Field_set_attrs σ f a iu kw).1
  | OpUpdateAttrs a iu kw => (Field_update_attrs σ f a iu kw).1
  end.

(** The dict object that is [self._attrs] has no ["value"] key. *)
Definition attrs_without_value (s : store * field) : Prop :=
  ∃ d, s.1 !! attrs s.2 = Some d ∧ d !! "value" = None.

(** What is said of [f.set(d)] for a dict [d] with a ["value"] key, for
    a field [f] with attrs enabled: the key is removed from the object
    [d] and that object is [f]'s instance attrs afterwards. *)
Definition set_edits_in_place
    (value_setter : store → field → val → store * field * outcome unit)
    (σ : store) (f : field) (l : loc) : Prop :=
  ∀ d, σ !! l = Some d → is_Some (d !! "value") → attrs_enabled f = true →
    let '(σ', f', _) := set_ value_setter σ f (VRef l) in
    σ' !! l = Some (delete "value" d) ∧ attrs f' = l.

End Store.

(** ** Vocabulary of the properties *)

(** The field [f] configured with validation level [l]. *)
Definition at_level (l : ValidationLevel) (f : field) : field :=
  map_base (with_validation_level l) f.

(** [self._attrs['warning'] = message] *)
Definition record_warning (message : string) (f : field) : field :=
  map_base (λ b, with_attrs (alist_set "warning" (PStr message) (attrs b)) b) f.

(** The instance attrs of a field. *)
Definition attrs_of (f : field) : dict := attrs (field_base f).

(** [part] occurs in [text]. *)
Definition occurs_in (part text : string) : Prop :=
  ∃ before after, text = (before ++ part ++ after)%string.


(** [deserialize(serialize())] reproduces the cleaned value: whenever
    [set(x)] and then [clean()] succeed, the serialized form deserializes
    to a value equal to the one the field holds. *)
Definition round_trip (f : field) (x : pyval) : Prop :=
  ∀ f1 f2,
    set_ f x = (f1, Return tt) →
    clean f1 = (f2, Return tt) →
    ∃ s d v,
      serialize f2 false = Return s
      ∧ deserialize f2 s = Return d
      ∧ value_of f2 = Return v
      ∧ py_eq d v = true.


(** The outcome of a [clean()] that returned or raised a
    [ValidationException], as opposed to any other exception. *)
Definition is_validation_outcome (r : outcome unit) : Prop :=
  match r with
  | Return _ | Raise (EValidation _) => True
  | Raise _ => False
  end.

(** What the specification says of cleaning a composite of which at least
    two properties fail validation: the composite configured STRICT
    cleans every property, raises one [ValidationException], and the
    message holds, for every failing property, its name with its error. *)
Definition aggregates_child_errors (f : field) : Prop :=
  match f with
  | FDict b i d ps =>
      validation_level b = STRICT →
      (∃ k1 c1 m1 k2 c2 m2,
          k1 ≠ k2 ∧ (k1, c1) ∈ ps ∧ (k2, c2) ∈ ps
          ∧ (clean c1).2 = Raise (EValidation m1)
          ∧ (clean c2).2 = Raise (EValidation m2)) →
      ∃ message,
        clean f = (FDict b i d (map (λ kc, (kc.1, (clean kc.2).1)) ps),
                   Raise (EValidation message))
        ∧ ∀ k c m, (k, c) ∈ ps → (clean c).2 = Raise (EValidation m) →
            occurs_in (property_validation_message k m) message
  | _ => True
  end.

(** The messages that the loop of [Dict._clean] appends, in the order of
    the properties. *)
Fixpoint child_messages (children : list (string * field * (field * outcome unit)))
    : string :=
  match children with
  | [] => ""
  | (k, _, (_, Raise (EValidation m))) :: rest =>
      (property_validation_message k m ++ child_messages rest)%string
  | _ :: rest => child_messages rest
  end.

#[global] Arguments property_validation_message : simpl never.
#[global] Arguments element_validation_message : simpl never.
#[global] Arguments element_check_message : simpl never.


(** The keys of every [_properties] in [f] are pairwise distinct, as the
    keys of a Python dict are. *)
Fixpoint keys_distinct (f : field) : Prop :=
  match f with
  | FDict _ _ _ ps =>
      NoDup (map fst ps) ∧ fold_right (λ kc P, keys_distinct kc.2 ∧ P) True ps
  | _ => True
  end.

(** The properties after each was set to [None]. *)
Definition reset_properties (ps : list (string * field)) : list (string * field) :=
  map (λ kc, (kc.1, (set_ kc.2 PNone).1)) ps.

(** What the specification says of setting [{'a': 1}] on a composite [f]
    that does not declare ["a"]: without [include_undefined] the value of
    [f] is [{}] afterwards, with it the value is [{'a': 1}]. *)
Definition admits_undefined_key (f : field) : Prop :=
  value_of (Dict_set f (PDict [("a", PInt 1%Z)]) false).1 = Return (PDict [])
  ∧ value_of (Dict_set f (PDict [("a", PInt 1%Z)]) true).1
    = Return (PDict [("a", PInt 1%Z)]).


(** The error that a [List] with template [eo] reports for [element]
    when it is the element that fails, if it fails. *)
Definition element_error (eo : field) (element : pyval) : option string :=
  let '(eo1, r) := set_ eo element in
  match r with
  | Raise error => Some (element_check_message element error)
  | Return _ =>
      let '(eo2, r) := clean eo1 in
      match (_ <- r ;; value_of eo2) with
      | Raise (EValidation error) => Some (element_validation_message element error)
      | _ => None
      end
  end.

(** What the specification says of a [List] configured WARNING: [clean()]
    returns, and the ["warning"] attribute holds the error of the last of
    the failing elements. *)
Definition warning_is_last_error (f : field) : Prop :=
  match f with
  | FList b eo (PList l) =>
      ∃ f', clean f = (f', Return tt)
            ∧ alist_get "warning" (attrs_of f')
              = option_map PStr (last (omap (element_error eo) l))
  | _ => True
  end.


(** The public operations on a field. *)
Inductive operation : Type :=
  | OpSet (value : pyval)                      (* [f.set(value)] *)
  | OpDictSet (value : pyval) (include_undefined : bool)
                             (* [f.set(value, include_undefined)] *)
  | OpUpdate (value : pyval)                   (* [f.update(value)] *)
  | OpDictUpdate (value : pyval) (include_undefined : bool) (kwargs : dict)
  | OpSetAttrs (attrs_ : pyval) (include_undefined : bool) (kwargs : dict)
  | OpUpdateAttrs (attrs_ : pyval) (include_undefined : bool) (kwargs : dict)
  | OpDeserialize (data : pyval)               (* [f.deserialize(data, auto_set=True)] *)
  | OpClean.                                   (* [f.clean()] *)

(** The field after one operation, whether the call returned or raised. *)
Definition perform (f : field) (o : operation) : field :=
  match o with
  | OpSet value => (set_ f value).1
  | OpDictSet value include_undefined => (Dict_set f value include_undefined).1
  | OpUpdate value => (update_ f value).1
  | OpDictUpdate value include_undefined kwargs =>
      (Dict_update f value include_undefined kwargs).1
  | OpSetAttrs a include_undefined kwargs => (set_attrs f a include_undefined kwargs).1
  | OpUpdateAttrs a include_undefined kwargs =>
      (update_attrs f a include_undefined kwargs).1
  | OpDeserialize data => (deserialize_auto_set f data).1
  | OpClean => (clean f).1
  end.

(** The field after a sequence of operations. *)
Definition perform_all (f : field) (ops : list operation) : field :=
  fold_left perform ops f.

(** [self._element_object] of a [List]. *)
Definition element_object_of (f : field) : option field :=
  match f with
  | FList _ eo _ => Some eo
  | _ => None
  end.

(** The deepest [List] nesting among properties. *)
Definition props_nesting (ps : list (string * field)) : nat :=
  list_max (map (λ kc, list_nesting kc.2) ps).


(** The composite [{a: Integer(required=True), b: Integer(required=True)}]
    before anything is set. *)
Definition two_required : field :=
  Dict___init__
    [("a", FScalar (Base PNone class_default_attrs true STRICT true []) VInt PNone);
     ("b", FScalar (Base PNone class_default_attrs true STRICT true []) VInt PNone)]
    false default_base.


(** The instance attrs of [f] have no ["value"] key. *)
Definition no_value_key (f : field) : Prop := alist_has "value" (attrs_of f) = false.


(** Every dict inside [v] that [__convert_dict] descends into, [v]
    included, is non-empty and has pairwise distinct keys. *)
Fixpoint convertible (v : pyval) : Prop :=
  match v with
  | PDict d =>
      d ≠ [] ∧ NoDup (map fst d) ∧ fold_right (λ kv P, convertible kv.2 ∧ P) True d
  | _ => True
  end.


(** The schema that [__update_mapping] builds for the depth [n]. *)
Definition schema (n : nat) : field :=
  Dict___init__ (new_mapping (n - 1)) false (with_attrs_enabled false default_base).


(** [v] is neither a list nor a dict: an object that no call can edit. *)
Definition atomic (v : pyval) : bool :=
  match v with
  | PList _ | PDict _ => false
  | _ => true
  end.

(** The loops of [List._clean] and [List._serialize] call
    [element_object.set(element)] on the element that the list holds, and
    [set] edits a dict it is given: [Field.set] pops ["value"] from it,
    [Dict.set] drops its undeclared keys, and the properties of a [Dict]
    template keep the lists and dicts inside it.  Part 2 hands the element
    over by value; [left_alone element_object element] says that the calls
    leave the object [element] as it is, so that nothing is lost:
    - an element that is neither a list nor a dict;
    - a dict from which nothing is popped (the template has its attrs
      disabled, or the dict has no ["value"] key) and, for a [Dict]
      template, nothing is dropped and whose entries are neither lists nor
      dicts;
    - a list, unless the template is itself a [List], which would clean
      the list in place; the empty list is never looped over. *)
Definition left_alone (element_object : field) (element : pyval) : bool :=
  match element with
  | PDict d =>
      negb (attrs_enabled (field_base element_object) && alist_has "value" d)
      && match element_object with
         | FDict _ _ is_properties_defined props =>
             forallb (λ kv, atomic kv.2
                            && (negb is_properties_defined || alist_has kv.1 props)) d
         | _ => true
         end
  | PList l =>
      match element_object with
      | FList _ _ _ => match l with [] => true | _ => false end
      | _ => true
      end
  | _ => true
  end.

(** Every element of every list that [f] holds, in a [List] property at
    any depth, is left alone by the template of its list: reading
    [f.value], [f.serialize()] and [f.clean()] then edit no stored
    element in place. *)
Fixpoint elements_left_alone (f : field) : bool :=
  match f with
  | FList _ eo v =>
      match v with
      | PList l => forallb (left_alone eo) l
      | _ => true
      end
  | FDict _ _ _ props => forallb (λ kc, elements_left_alone kc.2) props
  | _ => true
  end.

(** What the specification says of the three validation levels, for a
    field on whose value the validation of its class, [_clean], fails with
    [message]. *)
Definition levels_as_specified (f : field) : Prop :=
  ∀ f' message,
    _clean f = (f', Raise (EValidation message)) →
    (clean (at_level STRICT f)).2 = Raise (EValidation message)
    ∧ (clean (at_level WARNING f)).2 = Return tt
    ∧ alist_get "warning" (attrs_of (clean (at_level WARNING f)).1) = Some (PStr message)
    ∧ (clean (at_level DISABLED f)).2 = Return tt
    ∧ alist_get "warning" (attrs_of (clean (at_level DISABLED f)).1) = None.

(** The composite [Dict({'l': List(Dict({'a': Integer()}))})] after
    [set({'l': [5]})]. *)
Definition list_of_composites : field :=
  (Dict_set
     (Dict___init__
        [("l", List___init__
                 (Dict___init__ [("a", FScalar default_base VInt PNone)] false default_base)
                 default_base)]
        false default_base)
     (PDict [("l", PList [PInt 5%Z])]) false).1.

(** [a == b] for a value [a] that a call returned: [a] is [b] itself, or
    compares equal to it. *)
Definition equal_values (a b : pyval) : Prop := a = b ∨ py_eq a b = true.

(** Proves [NoDup] of a list of distinct literal keys. *)
Ltac distinct_keys :=
  repeat (apply NoDup_cons_2;
          [ let H := fresh in
            intros H;
            repeat (apply elem_of_cons in H as [H | H]; [ discriminate H | ]);
            apply elem_of_nil in H; exact H
          | ]);
  apply NoDup_nil_2.

(** * Part 4: properties *)

(** ** Induction on values and on fields *)

(** Induction that reaches the elements of lists and dicts. *)
Lemma pyval_nested_ind (P : pyval → Prop) :
  P PNone →
  (∀ b, P (PBool b)) →
  (∀ z, P (PInt z)) →
  (∀ s, P (PStr s)) →
  (∀ l, Forall P l → P (PList l)) →
  (∀ d, Forall (λ kv, P kv.2) d → P (PDict d)) →
  ∀ v, P v.
Proof.
  intros HN HB HI HS HL HD.
  fix IH 1. intros [ | b | z | s | l | d ].
  - exact HN.
  - apply HB.
  - apply HI.
  - apply HS.
  - apply HL. induction l as [ | x l IHl ]; constructor; [ apply IH | exact IHl ].
  - apply HD. induction d as [ | [k x] d IHd ]; constructor; [ apply IH | exact IHd ].
Qed.


(** Induction that reaches the template of a list and the properties of a
    composite. *)
Lemma field_nested_ind (P : field → Prop) :
  (∀ b t v, P (FScalar b t v)) →
  (∀ b c v, P (FChoices b c v)) →
  (∀ b eo v, P eo → P (FList b eo v)) →
  (∀ b i d ps, Forall (λ kc, P kc.2) ps → P (FDict b i d ps)) →
  (∀ b n p v, P p → P (FConvertedDict b n p v)) →
  ∀ f, P f.
Proof.
  intros HS HC HL HD HK.
  fix IH 1. intros [ b t v | b c v | b eo v | b i d ps | b n p v ].
  - apply HS.
  - apply HC.
  - apply HL, IH.
  - apply HD. induction ps as [ | [k c] ps IHps ]; constructor; [ apply IH | exact IHps ].
  - apply HK, IH.
Qed.


(** ** The recursion through [element_object] is well founded *)

Lemma list_nesting_child (ps : list (string * field)) (k : string) (c : field) :
  (k, c) ∈ ps → list_nesting c ≤ list_max (map (λ kc, list_nesting kc.2) ps).
Proof.
  induction ps as [ | [k' c'] ps IH ]; intros Hin.
  - inversion Hin.
  - simpl. apply elem_of_cons in Hin as [ [= -> ->] | Hin ]; [ lia | ].
    specialize (IH Hin). lia.
Qed.

Lemma list_nesting_map_base g f : list_nesting (map_base g f) = list_nesting f.
Proof. destruct f; reflexivity. Qed.

Lemma list_nesting_store_value v f : list_nesting (store_value v f) = list_nesting f.
Proof. destruct f; reflexivity. Qed.

Lemma list_nesting_Field_set f v : list_nesting (Field_set f v) = list_nesting f.
Proof.
  unfold Field_set. destruct (Field_set_split (field_base f) v) as [b nv].
  rewrite list_nesting_store_value. apply list_nesting_map_base.
Qed.

Lemma props_nesting_cons k c ps :
  props_nesting ((k, c) :: ps) = Nat.max (list_nesting c) (props_nesting ps).
Proof. reflexivity. Qed.

Lemma props_nesting_alist_set k c ps n :
  list_nesting c ≤ n → props_nesting ps ≤ n → props_nesting (alist_set k c ps) ≤ n.
Proof.
  intros Hc. induction ps as [ | [k' c'] ps IH ]; intros Hps.
  - simpl. rewrite props_nesting_cons. unfold props_nesting. simpl. lia.
  - simpl. rewrite props_nesting_cons in Hps.
    destruct (String.eqb k' k); rewrite props_nesting_cons.
    + lia.
    + specialize (IH ltac:(lia)). lia.
Qed.

Lemma list_nesting_undefined_property i v :
  list_nesting (undefined_property i v) = 0.
Proof.
  revert i. induction v as [ | | | | l _ | d IH ] using pyval_nested_ind; intros i;
    try reflexivity.
  simpl. destruct (alist_has "value" d); [ apply list_nesting_Field_set | ].
  simpl. fold (props_nesting
    (fold_left (λ props kv, alist_set kv.1 (undefined_property false kv.2) props) d [])).
  enough (H : ∀ acc, props_nesting acc ≤ 0 →
            props_nesting (fold_left
              (λ props kv, alist_set kv.1 (undefined_property false kv.2) props) d acc) ≤ 0).
  { specialize (H [] ltac:(reflexivity)). lia. }
  induction IH as [ | [k x] d Hx _ IHd ]; intros acc Hacc; simpl.
  - exact Hacc.
  - apply IHd. apply props_nesting_alist_set; [ | exact Hacc ].
    simpl in Hx. rewrite Hx. lia.
Qed.

Lemma props_nesting_Dict_update_loop setters i iu n :
  (∀ k (s : setter) v, alist_get k setters = Some s → list_nesting (s v).1 ≤ n) →
  ∀ items ps, props_nesting ps ≤ n →
    props_nesting (Dict_update_loop setters i iu ps items).1 ≤ n.
Proof.
  intros Hs. induction items as [ | [k v] items IH ]; intros ps Hps; simpl.
  - exact Hps.
  - destruct (alist_has k ps).
    + destruct (alist_get k setters) as [s | ] eqn:Es.
      * specialize (Hs k s v Es). destruct (s v) as [c r]. simpl in Hs.
        destruct r as [ [] | e ].
        -- apply IH. apply props_nesting_alist_set; assumption.
        -- simpl. apply props_nesting_alist_set; assumption.
      * apply IH. apply props_nesting_alist_set; [ | exact Hps ].
        rewrite list_nesting_undefined_property. lia.
    + destruct iu.
      * apply IH. apply props_nesting_alist_set; [ | exact Hps ].
        rewrite list_nesting_undefined_property. lia.
      * apply IH, Hps.
Qed.

Lemma props_nesting_Dict_update_with setters i d iu kwargs n value ps :
  (∀ k (s : setter) v, alist_get k setters = Some s → list_nesting (s v).1 ≤ n) →
  props_nesting ps ≤ n →
  props_nesting (Dict_update_with setters i d ps value iu kwargs).1 ≤ n.
Proof.
  intros Hs Hps. unfold Dict_update_with.
  destruct (if truthy value then value else PDict []); try exact Hps.
  apply props_nesting_Dict_update_loop; assumption.
Qed.

Lemma props_nesting_Dict_value_setter setters i d n value ps :
  (∀ k (s : setter) v, alist_get k setters = Some s → list_nesting (s v).1 ≤ n) →
  props_nesting ps ≤ n →
  props_nesting (Dict_value_setter setters i d ps value).1 ≤ n.
Proof.
  intros Hs Hps. unfold Dict_value_setter.
  destruct (truthy value && negb (is_dict value)); [ exact Hps | ].
  apply props_nesting_Dict_update_with; assumption.
Qed.

Lemma alist_get_map {A B} (g : A → B) k (ps : list (string * A)) :
  alist_get k (map (λ kc, (kc.1, g kc.2)) ps) = option_map g (alist_get k ps).
Proof.
  induction ps as [ | [k' c] ps IH ]; simpl; [ reflexivity | ].
  destruct (String.eqb k' k); [ reflexivity | exact IH ].
Qed.

Lemma alist_get_elem_of {A} k (c : A) (ps : list (string * A)) :
  alist_get k ps = Some c → (k, c) ∈ ps.
Proof.
  induction ps as [ | [k' c'] ps IH ]; simpl; [ discriminate | ].
  destruct (String.eqb k' k) eqn:E.
  - intros [= ->]. apply String.eqb_eq in E as ->. left.
  - intros H. right. apply IH, H.
Qed.

Lemma setters_nesting ps n :
  Forall (λ kc, ∀ v, list_nesting (set_ kc.2 v).1 ≤ list_nesting kc.2) ps →
  props_nesting ps ≤ n →
  ∀ k (s : setter) v, alist_get k (setters_of ps) = Some s → list_nesting (s v).1 ≤ n.
Proof.
  intros IH Hps k s v. unfold setters_of. rewrite alist_get_map.
  destruct (alist_get k ps) as [c | ] eqn:E; [ | discriminate ]. intros [= <-].
  apply alist_get_elem_of in E.
  rewrite Forall_forall in IH. specialize (IH (k, c) E v). simpl in IH.
  pose proof (list_nesting_child ps k c E) as Hc. unfold props_nesting in Hps. lia.
Qed.

(** [set] never adds a [List] level. *)
Lemma list_nesting_set f v : list_nesting (set_ f v).1 ≤ list_nesting f.
Proof.
  revert v. induction f as [ | | | b i d ps IH | ] using field_nested_ind; intros w;
    try (simpl; rewrite ?list_nesting_Field_set; simpl; lia).
  cbn [set_ list_nesting]. fold (setters_of ps). fold (props_nesting ps).
  unfold Dict_set_with.
  destruct (truthy w && negb (is_dict w)); [ simpl; reflexivity | ].
  destruct (if truthy w && negb (if d then false else true)
            then Dict_drop_undefined b ps w else Return w) as [v' | e];
    [ | simpl; reflexivity ].
  destruct (Field_set_split b v') as [b' nv].
  pose proof (props_nesting_Dict_value_setter (setters_of ps) i d (props_nesting ps) nv ps
                (setters_nesting ps _ IH (Nat.le_refl _)) (Nat.le_refl _)) as H.
  destruct (Dict_value_setter (setters_of ps) i d ps nv) as [ps' r]. exact H.
Qed.

Lemma list_nesting_assign_value f v :
  list_nesting (assign_value f v).1 ≤ list_nesting f.
Proof.
  destruct f as [ | | | b i d ps | ]; simpl; try lia.
  fold (props_nesting ps).
  pose proof (props_nesting_Dict_value_setter (setters_of ps) i d (props_nesting ps) v ps) as H.
  destruct (Dict_value_setter (setters_of ps) i d ps v) as [ps' r]. simpl in *.
  apply H; [ | reflexivity ].
  apply setters_nesting; [ | reflexivity ].
  apply Forall_forall. intros kc _ w. apply list_nesting_set.
Qed.

Lemma List__serialize_loop_ext (rec1 rec2 : field → outcome pyval) n :
  (∀ g, list_nesting g ≤ n → rec1 g = rec2 g) →
  ∀ l eo acc, list_nesting eo ≤ n →
    List__serialize_loop rec1 eo l acc = List__serialize_loop rec2 eo l acc.
Proof.
  intros Hrec. induction l as [ | x l IH ]; intros eo acc Heo; simpl; [ reflexivity | ].
  pose proof (list_nesting_set eo x) as Hset.
  destruct (set_ eo x) as [eo' r]. simpl in Hset.
  destruct r as [ [] | e ]; simpl; [ | reflexivity ].
  rewrite (Hrec eo') by lia.
  destruct (rec2 eo') as [ s | e ]; simpl; [ | reflexivity ].
  apply IH. lia.
Qed.

Lemma _serialize_step_ext (rec1 rec2 : field → outcome pyval) f :
  (∀ g, list_nesting g < list_nesting f → rec1 g = rec2 g) →
  _serialize_step rec1 f = _serialize_step rec2 f.
Proof.
  induction f as [ | | b eo v _ | b i d ps IH | ] using field_nested_ind; intros Hrec;
    try reflexivity.
  - simpl. destruct v; try reflexivity.
    apply (List__serialize_loop_ext rec1 rec2 (list_nesting eo)); [ | lia ].
    intros g Hg. apply Hrec. simpl. lia.
  - simpl. f_equal.
    induction IH as [ | [k c] ps Hc _ IHps ]; simpl; [ reflexivity | ].
    simpl in Hrec. f_equal.
    + f_equal. f_equal. apply Hc. intros g Hg. apply Hrec.
      simpl in Hg |- *. lia.
    + apply IHps. intros g Hg. apply Hrec. simpl in Hg |- *. lia.
Qed.

Lemma _serialize_n_unfold n f :
  _serialize_n n f =
  _serialize_step (match n with
                   | O => λ _, Raise ERecursionError
                   | S m => _serialize_n m
                   end) f.
Proof. destruct n; reflexivity. Qed.

Lemma _serialize_n_stable n : ∀ f, list_nesting f ≤ n → _serialize_n n f = _serialize f.
Proof.
  induction n as [n IH] using lt_wf_ind. intros f Hf.
  unfold _serialize. rewrite !_serialize_n_unfold.
  apply _serialize_step_ext. intros g Hg.
  destruct n as [ | n ]; [ lia | ].
  destruct (list_nesting f) as [ | m ] eqn:E; [ lia | ].
  rewrite (IH n) by lia. rewrite (IH m) by lia. reflexivity.
Qed.

(** [_serialize] follows the code of each class, with itself for the
    template of a [List]. *)
Lemma _serialize_unfold f : _serialize f = _serialize_step _serialize f.
Proof.
  unfold _serialize at 1. rewrite _serialize_n_unfold.
  apply _serialize_step_ext. intros g Hg.
  destruct (list_nesting f) as [ | m ]; [ lia | ].
  apply _serialize_n_stable. lia.
Qed.

Lemma _serialize_step_children (rec : field → outcome pyval) ps :
  (∀ g, rec g = _serialize g) →
  map (λ kc : string * field, (kc.1, (kc.2, _serialize_step rec kc.2))) ps
  = map (λ kc, (kc.1, (kc.2, _serialize kc.2))) ps.
Proof.
  intros Hrec. apply map_ext. intros [k c]. simpl. do 2 f_equal.
  rewrite _serialize_unfold. apply _serialize_step_ext. intros g _. apply Hrec.
Qed.

(** The [Dict.value] getter, over the [_serialize] of the properties. *)
Lemma _serialize_FDict b i d ps :
  _serialize (FDict b i d ps)
  = Dict_value_loop (map (λ kc, (kc.1, (kc.2, _serialize kc.2))) ps) [].
Proof.
  rewrite _serialize_unfold. simpl. f_equal.
  apply _serialize_step_children. reflexivity.
Qed.

Lemma _serialize_FList b eo v :
  _serialize (FList b eo v)
  = match v with
    | PList l => List__serialize_loop _serialize eo l []
    | _ => Return (PStr (py_str v))
    end.
Proof. rewrite _serialize_unfold. reflexivity. Qed.

(** ** [clean] keeps the nesting, and follows the code too *)

Lemma list_nesting_Field_clean_with f value _clean n :
  list_nesting f ≤ n → list_nesting _clean.1 ≤ n →
  list_nesting (Field_clean_with f value _clean).1 ≤ n.
Proof.
  intros Hf Hc. unfold Field_clean_with.
  destruct value as [ v | e ]; [ | exact Hf ].
  destruct (is_empty v).
  - destruct (required (field_base f)); [ exact Hf | ].
    pose proof (list_nesting_assign_value f PNone). lia.
  - destruct _clean as [f' r]. simpl in Hc.
    destruct r as [ [] | [ m | | | | | | ] ]; simpl; try exact Hc.
    destruct (validation_level (field_base f')); simpl; try exact Hc.
    rewrite list_nesting_map_base. exact Hc.
Qed.

Lemma props_nesting_Dict__clean_loop children msg n :
  Forall (λ x : string * field * (field * outcome unit),
            list_nesting x.1.2 ≤ n ∧ list_nesting x.2.1 ≤ n) children →
  props_nesting (Dict__clean_loop children msg).1 ≤ n.
Proof.
  intros H. revert msg.
  induction H as [ | [[k c] [c' r]] children [Hc Hc'] Hrest IH ]; intros msg; simpl.
  - unfold props_nesting. simpl. lia.
  - simpl in Hc, Hc'.
    destruct r as [ [] | [ m | | | | | | ] ];
      try (simpl; rewrite props_nesting_cons;
           assert (props_nesting (map (λ x : string * field * (field * outcome unit),
                                         (x.1.1, x.1.2)) children) ≤ n);
           [ clear IH; induction Hrest as [ | [[k1 c1] [c1' r1]] rest [H1 _] _ IHr ];
             [ unfold props_nesting; simpl; lia
             | simpl; rewrite props_nesting_cons; simpl in H1; lia ]
           | lia ]).
    + specialize (IH msg). destruct (Dict__clean_loop children msg) as [ps out].
      simpl in *. rewrite props_nesting_cons. lia.
    + specialize (IH (msg ++ property_validation_message k m)%string).
      destruct (Dict__clean_loop children _) as [ps out].
      simpl in *. rewrite props_nesting_cons. lia.
Qed.

Lemma list_nesting_clean_step (rec : field → field * outcome unit) f :
  (∀ g, list_nesting g < list_nesting f → list_nesting (rec g).1 ≤ list_nesting g) →
  list_nesting (clean_step rec f).1 ≤ list_nesting f.
Proof.
  induction f as [ b t v | b c v | b eo v _ | b i d ps IH | b n p v _ ]
    using field_nested_ind; intros Hrec.
  - cbn [clean_step]. apply list_nesting_Field_clean_with; [ reflexivity | ].
    destruct (Field__clean_value _ _ _ _); reflexivity.
  - cbn [clean_step]. apply list_nesting_Field_clean_with; reflexivity.
  - cbn [clean_step]. apply list_nesting_Field_clean_with; [ reflexivity | ].
    destruct v; try reflexivity.
    destruct (List__clean_loop rec eo [] l) as [l' r]. reflexivity.
  - cbn [clean_step]. apply list_nesting_Field_clean_with; [ reflexivity | ].
    pose proof (props_nesting_Dict__clean_loop
                  (map (λ kc : string * field, (kc.1, kc.2, clean_step rec kc.2)) ps) ""
                  (props_nesting ps)) as H.
    destruct (Dict__clean_loop _ _) as [ps' r]. simpl. apply H.
    apply Forall_fmap. rewrite Forall_forall in IH |- *.
    intros [k c] Hin. simpl. pose proof (list_nesting_child ps k c Hin) as Hc.
    unfold props_nesting. split; [ exact Hc | ].
    specialize (IH (k, c) Hin). simpl in IH.
    etransitivity; [ apply IH | exact Hc ].
    intros g Hg. apply Hrec. simpl. lia.
  - cbn [clean_step]. apply list_nesting_Field_clean_with; [ reflexivity | ].
    unfold ConvertedDict__clean.
    destruct (Field__clean_value _ _ _ _) as [ data | e ]; [ | reflexivity ].
    destruct (negb (is_dict data)); [ reflexivity | ].
    destruct (update_mapping n data None) as [ [n' p'] | ]; reflexivity.
Qed.

Lemma clean_n_unfold n f :
  clean_n n f =
  clean_step (match n with
              | O => λ g, (g, Raise ERecursionError)
              | S m => clean_n m
              end) f.
Proof. destruct n; reflexivity. Qed.

Lemma list_nesting_clean_n n f : list_nesting (clean_n n f).1 ≤ list_nesting f.
Proof.
  revert f. induction n as [ | n IH ]; intros f; rewrite clean_n_unfold;
    apply list_nesting_clean_step; intros g _; [ reflexivity | apply IH ].
Qed.

Lemma List__clean_loop_ext (rec1 rec2 : field → field * outcome unit) n :
  (∀ g, list_nesting g ≤ n → rec1 g = rec2 g ∧ list_nesting (rec1 g).1 ≤ list_nesting g) →
  ∀ todo eo done, list_nesting eo ≤ n →
    List__clean_loop rec1 eo done todo = List__clean_loop rec2 eo done todo.
Proof.
  intros Hrec. induction todo as [ | x todo IH ]; intros eo done Heo; simpl;
    [ reflexivity | ].
  pose proof (list_nesting_set eo x) as Hset.
  destruct (set_ eo x) as [eo' r]. simpl in Hset.
  destruct r as [ [] | e ]; [ | reflexivity ].
  destruct (Hrec eo' ltac:(lia)) as [Heq Hle]. rewrite <- Heq.
  destruct (rec1 eo') as [eo'' r]. simpl in Hle.
  destruct (_ <- r ;; value_of eo'') as [ v | e ]; [ | reflexivity ].
  apply IH. lia.
Qed.

Lemma clean_step_ext (rec1 rec2 : field → field * outcome unit) f :
  (∀ g, list_nesting g < list_nesting f →
        rec1 g = rec2 g ∧ list_nesting (rec1 g).1 ≤ list_nesting g) →
  clean_step rec1 f = clean_step rec2 f.
Proof.
  induction f as [ | | b eo v _ | b i d ps IH | ] using field_nested_ind; intros Hrec;
    try reflexivity.
  - cbn [clean_step]. f_equal. destruct v; try reflexivity.
    rewrite (List__clean_loop_ext rec1 rec2 (list_nesting eo)); [ reflexivity | | lia ].
    intros g Hg. apply Hrec. simpl. lia.
  - cbn [clean_step]. f_equal.
    enough (E : map (λ kc : string * field, (kc.1, kc.2, clean_step rec1 kc.2)) ps
                = map (λ kc, (kc.1, kc.2, clean_step rec2 kc.2)) ps) by (rewrite E; reflexivity).
    induction IH as [ | [k c] ps Hc _ IHps ]; simpl; [ reflexivity | ].
    f_equal.
    + f_equal. apply Hc. intros g Hg. apply Hrec. simpl in Hg |- *. lia.
    + apply IHps. intros g Hg. apply Hrec. simpl in Hg |- *. lia.
Qed.

Lemma clean_n_stable n : ∀ f, list_nesting f ≤ n → clean_n n f = clean f.
Proof.
  induction n as [n IH] using lt_wf_ind. intros f Hf.
  unfold clean. rewrite !clean_n_unfold.
  apply clean_step_ext. intros g Hg.
  destruct n as [ | n ]; [ lia | ].
  destruct (list_nesting f) as [ | m ] eqn:E; [ lia | ].
  split; [ | apply list_nesting_clean_n ].
  rewrite (IH n) by lia. rewrite (IH m) by lia. reflexivity.
Qed.

(** [clean] never adds a [List] level. *)
Lemma list_nesting_clean f : list_nesting (clean f).1 ≤ list_nesting f.
Proof. apply list_nesting_clean_n. Qed.

(** [clean] follows the code of each class, with itself for the template
    of a [List]. *)
Lemma clean_unfold f : clean f = clean_step clean f.
Proof.
  unfold clean at 1. rewrite clean_n_unfold.
  apply clean_step_ext. intros g Hg.
  destruct (list_nesting f) as [ | m ]; [ lia | ].
  split; [ apply clean_n_stable; lia | apply list_nesting_clean_n ].
Qed.

Lemma clean_step_children (rec : field → field * outcome unit) ps :
  (∀ g, rec g = clean g) →
  map (λ kc : string * field, (kc.1, kc.2, clean_step rec kc.2)) ps
  = map (λ kc, (kc.1, kc.2, clean kc.2)) ps.
Proof.
  intros Hrec. apply map_ext. intros [k c]. simpl. f_equal.
  rewrite clean_unfold. apply clean_step_ext. intros g _. split.
  - apply Hrec.
  - rewrite Hrec. apply list_nesting_clean.
Qed.

(** [Field.clean] is the same wrapper around [_clean] for every class. *)
Lemma clean_eq f : clean f = Field_clean_with f (value_of f) (_clean f).
Proof.
  rewrite clean_unfold.
  destruct f as [ b t v | b c v | b eo v | b i d ps | b n p v ]; try reflexivity.
  cbn [clean_step _clean]. unfold Dict__clean.
  rewrite clean_step_children by reflexivity. reflexivity.
Qed.

(** ** Association lists *)

Lemma alist_get_set_eq {V} k (v : V) m : alist_get k (alist_set k v m) = Some v.
Proof.
  induction m as [ | [k' v'] m IH ]; simpl.
  - rewrite String.eqb_refl. reflexivity.
  - destruct (String.eqb k' k) eqn:E; simpl; rewrite E; [ reflexivity | exact IH ].
Qed.

Lemma alist_get_set_ne {V} k k' (v : V) m :
  k ≠ k' → alist_get k (alist_set k' v m) = alist_get k m.
Proof.
  intros Hne. induction m as [ | [k1 v1] m IH ]; simpl.
  - destruct (String.eqb k' k) eqn:E; [ apply String.eqb_eq in E; congruence | reflexivity ].
  - destruct (String.eqb k1 k') eqn:E1; simpl.
    + apply String.eqb_eq in E1 as ->.
      destruct (String.eqb k' k) eqn:E; [ apply String.eqb_eq in E; congruence | reflexivity ].
    + destruct (String.eqb k1 k); [ reflexivity | exact IH ].
Qed.

Lemma alist_has_set_ne {V} k k' (v : V) m :
  k ≠ k' → alist_has k (alist_set k' v m) = alist_has k m.
Proof. intros H. unfold alist_has. rewrite alist_get_set_ne by exact H. reflexivity. Qed.

Lemma alist_get_pop_eq {V} k (m : list (string * V)) : alist_get k (alist_pop k m) = None.
Proof.
  induction m as [ | [k' v'] m IH ]; simpl; [ reflexivity | ].
  destruct (String.eqb k' k) eqn:E; simpl; [ exact IH | rewrite E; exact IH ].
Qed.

Lemma alist_has_pop_eq {V} k (m : list (string * V)) : alist_has k (alist_pop k m) = false.
Proof. unfold alist_has. rewrite alist_get_pop_eq. reflexivity. Qed.

Lemma alist_get_update_absent {V} k (m m2 : list (string * V)) :
  alist_get k m2 = None → alist_get k (alist_update m m2) = alist_get k m.
Proof.
  unfold alist_update. revert m.
  induction m2 as [ | [k' v'] m2 IH ]; intros m H; simpl; [ reflexivity | ].
  simpl in H. destruct (String.eqb k' k) eqn:E; [ discriminate | ].
  rewrite IH by exact H. apply alist_get_set_ne.
  intros ->. rewrite String.eqb_refl in E. discriminate.
Qed.

(** ** Validation errors always carry a message *)

Lemma ValidationException_message m :
  ∃ m', ValidationException m = EValidation m' ∧ m' ≠ "".
Proof.
  unfold ValidationException. destruct (String.eqb m "") eqn:E.
  - eexists. split; [ reflexivity | discriminate ].
  - exists m. split; [ reflexivity | ]. intros ->. discriminate.
Qed.

Lemma ValidationException_inv m m' : ValidationException m = EValidation m' → m' ≠ "".
Proof.
  destruct (ValidationException_message m) as (m1 & -> & H). intros [= <-]. exact H.
Qed.

Lemma ValidationException_nonempty m : m ≠ "" → ValidationException m = EValidation m.
Proof.
  intros H. unfold ValidationException.
  destruct (String.eqb m "") eqn:E; [ apply String.eqb_eq in E; contradiction | reflexivity ].
Qed.

Lemma raise_validation_inv {A B} (x y : A) s m :
  (x, @Raise B (ValidationException s)) = (y, Raise (EValidation m)) → m ≠ "".
Proof.
  destruct (ValidationException_message s) as (m' & E & H). rewrite E.
  intros [= _ <-]. exact H.
Qed.

Lemma List__clean_loop_message rec eo done todo l' m :
  List__clean_loop rec eo done todo = (l', Raise (EValidation m)) → m ≠ "".
Proof.
  revert eo done. induction todo as [ | x todo IH ]; intros eo done; simpl.
  - intros [= ]. 
  - destruct (set_ eo x) as [eo1 [ [] | e ]].
    + destruct (rec eo1) as [eo2 r].
      destruct (_ <- r ;; value_of eo2) as [ v | [ m2 | | | | | | ] ];
        try (intros [= ]; fail).
      * intros H; eapply IH, H.
      * apply raise_validation_inv.
    + apply raise_validation_inv.
Qed.

Lemma Dict__clean_loop_message children msg ps m :
  Dict__clean_loop children msg = (ps, Raise (EValidation m)) → m ≠ "".
Proof.
  revert msg ps. induction children as [ | [[k c] [c' r]] children IH ]; intros msg ps; simpl.
  - destruct (String.eqb msg ""); [ intros [= ] | ].
    apply raise_validation_inv.
  - destruct r as [ [] | [ m2 | | | | | | ] ]; try (intros [= ]; fail).
    + destruct (Dict__clean_loop children msg) as [ps' out] eqn:E.
      intros [= _ ->]. eapply IH, E.
    + destruct (Dict__clean_loop children _) as [ps' out] eqn:E.
      intros [= _ ->]. eapply IH, E.
Qed.

(** Whatever the class, the [ValidationException] that [_clean] raises
    has a message. *)
Lemma _clean_message f f' m : _clean f = (f', Raise (EValidation m)) → m ≠ "".
Proof.
  destruct f as [ b t v | b c v | b eo v | b i d ps | b n p v ]; simpl.
  - unfold Field__clean, Field__clean_value.
    destruct (py_isinstance v t); [ intros [= ] | ].
    destruct (Field__deserialize t v); [ intros [= ] | ].
    apply raise_validation_inv.
  - unfold Choices__clean. destruct (py_in_list v c); [ intros [= ] | ].
    apply raise_validation_inv.
  - unfold List__clean. destruct v; try (apply raise_validation_inv).
    destruct (List__clean_loop clean eo [] l) as [l' r] eqn:E.
    intros [= _ ->]. eapply List__clean_loop_message, E.
  - unfold Dict__clean.
    destruct (Dict__clean_loop _ _) as [ps' r] eqn:E.
    intros [= _ ->]. eapply Dict__clean_loop_message, E.
  - unfold ConvertedDict__clean, Field__clean_value.
    destruct (is_dict v).
    + destruct (negb (is_dict v)); [ apply raise_validation_inv | ].
      destruct (update_mapping n v None) as [ [n' p'] | ]; intros [= ].
    + destruct (deconvert_dict v) as [ data | e ].
      * destruct (negb (is_dict data)); [ apply raise_validation_inv | ].
        destruct (update_mapping n data None) as [ [n' p'] | ]; intros [= ].
      * apply raise_validation_inv.
Qed.

(** ** The validation level is read by [clean] alone *)

Lemma _serialize_map_base g f : _serialize (map_base g f) = _serialize f.
Proof.
  rewrite (_serialize_unfold (map_base g f)), (_serialize_unfold f).
  destruct f; reflexivity.
Qed.

Lemma value_of_at_level l f : value_of (at_level l f) = value_of f.
Proof.
  unfold value_of, at_level. rewrite _serialize_map_base. destruct f; reflexivity.
Qed.

Lemma _clean_map_base g f :
  _clean (map_base g f) = (map_base g (_clean f).1, (_clean f).2).
Proof.
  destruct f as [ b t v | b c v | b eo v | b i d ps | b n p v ]; simpl.
  - unfold Field__clean. destruct (Field__clean_value _ _ _ _); reflexivity.
  - reflexivity.
  - unfold List__clean. destruct v; try reflexivity.
    destruct (List__clean_loop clean eo [] l); reflexivity.
  - unfold Dict__clean. destruct (Dict__clean_loop _ _); reflexivity.
  - unfold ConvertedDict__clean. destruct (Field__clean_value _ _ _ _); [ | reflexivity ].
    destruct (negb (is_dict a)); [ reflexivity | ].
    destruct (update_mapping n a None) as [ [n' p'] | ]; reflexivity.
Qed.

(** [_clean] leaves the attributes of the field itself as they are. *)
Lemma _clean_base f : field_base (_clean f).1 = field_base f.
Proof.
  destruct f as [ b t v | b c v | b eo v | b i d ps | b n p v ]; simpl.
  - unfold Field__clean. destruct (Field__clean_value _ _ _ _); reflexivity.
  - reflexivity.
  - unfold List__clean. destruct v; try reflexivity.
    destruct (List__clean_loop clean eo [] l); reflexivity.
  - unfold Dict__clean. destruct (Dict__clean_loop _ _); reflexivity.
  - unfold ConvertedDict__clean. destruct (Field__clean_value _ _ _ _); [ | reflexivity ].
    destruct (negb (is_dict a)); [ reflexivity | ].
    destruct (update_mapping n a None) as [ [n' p'] | ]; reflexivity.
Qed.

Lemma field_base_map_base g f : field_base (map_base g f) = g (field_base f).
Proof. destruct f; reflexivity. Qed.

(** C5, as stated, fails on [list_of_composites], whatever its level: the
    validation of its class fails, since the list [l] cannot check the
    element [5] against its composite template, but [clean()] reads the
    value of the composite first, and the getter, which serializes [l],
    raises the [TypeError] of [Dict.set]. *)
Lemma C5_counterexample :
  (∃ f' message, _clean list_of_composites = (f', Raise (EValidation message)))
  ∧ (∀ l, ∃ message,
       clean (at_level l list_of_composites)
       = (at_level l list_of_composites, Raise (ETypeError message)))
  ∧ ¬ levels_as_specified list_of_composites.
Proof.
  split; [ eexists; eexists; vm_compute; reflexivity | ]. split.
  - intros l. eexists. destruct l; vm_compute; reflexivity.
  - intros H.
    destruct (H _ _ ltac:(vm_compute; reflexivity)) as (_ & HW & _).
    vm_compute in HW. discriminate HW.
Qed.

(** C5, amended.  A field stores its value, or it is a composite none of
    whose lists holds an element that [set] would edit in place.
    - Its value [v] can be read and is not empty, and the validation of its
      class, [_clean], fails with [message].  Configured STRICT, [clean()]
      raises that [ValidationException]; configured WARNING, it returns and
      leaves [message], which is not empty, under the instance attribute
      ["warning"]; configured DISABLED, it returns and the instance attrs
      are the ones the field had, so that no warning is recorded.
    - Reading its value raises (the getter of a composite does, when the
      template of one of its lists cannot be set to an element): [clean()]
      raises that exception, whatever the level, and leaves the field as it
      is. *)
Theorem C5_validation_levels (f : field) :
  (is_dict_field f = true → elements_left_alone f = true) →
  (∀ f' v message,
     value_of f = Return v →
     is_empty v = false →
     _clean f = (f', Raise (EValidation message)) →
     clean (at_level STRICT f) = (at_level STRICT f', Raise (EValidation message))
     ∧ (clean (at_level WARNING f)
          = (record_warning message (at_level WARNING f'), Return tt)
        ∧ alist_get "warning" (attrs_of (clean (at_level WARNING f)).1)
          = Some (PStr message)
        ∧ message ≠ "")
     ∧ (clean (at_level DISABLED f) = (at_level DISABLED f', Return tt)
        ∧ attrs_of (clean (at_level DISABLED f)).1 = attrs_of f))
  ∧ (∀ e l, value_of f = Raise e → clean (at_level l f) = (at_level l f, Raise e)).
Proof.
  intros _. split.
  - intros f' v message Hv He Hc.
    assert (Hb : field_base f' = field_base f)
      by (rewrite <- (_clean_base f), Hc; reflexivity).
    assert (step : ∀ l, clean (at_level l f)
              = Field_clean_with (at_level l f) (Return v)
                  (at_level l f', Raise (EValidation message))).
    { intros l. rewrite clean_eq, value_of_at_level, Hv.
      unfold at_level. rewrite _clean_map_base, Hc. reflexivity. }
    repeat split.
    + rewrite step. unfold Field_clean_with. rewrite He.
      unfold at_level at 1. rewrite field_base_map_base. reflexivity.
    + rewrite step. unfold Field_clean_with. rewrite He.
      unfold at_level at 1. rewrite field_base_map_base. reflexivity.
    + rewrite step. unfold Field_clean_with. rewrite He.
      unfold at_level at 1. rewrite field_base_map_base. simpl.
      unfold attrs_of, record_warning. rewrite field_base_map_base. simpl.
      apply alist_get_set_eq.
    + eapply _clean_message, Hc.
    + rewrite step. unfold Field_clean_with. rewrite He.
      unfold at_level at 1. rewrite field_base_map_base. reflexivity.
    + rewrite step. unfold Field_clean_with. rewrite He.
      unfold at_level at 1. rewrite field_base_map_base. simpl.
      unfold attrs_of, at_level. rewrite field_base_map_base, Hb. reflexivity.
  - intros e l Hv. rewrite clean_eq, value_of_at_level, Hv. reflexivity.
Qed.

(** An [Integer] holding ["abc"], and the composite [{a: Integer()}]
    holding [{'a': 'abc'}] and configured WARNING. *)
Lemma C5_validation_levels_witness :
  (∃ f f' v message,
     value_of f = Return v ∧ is_empty v = false
     ∧ _clean f = (f', Raise (EValidation message))
     ∧ clean (at_level STRICT f) = (at_level STRICT f', Raise (EValidation message))
     ∧ alist_get "warning" (attrs_of (clean (at_level WARNING f)).1)
       = Some (PStr message)
     ∧ clean (at_level DISABLED f) = (at_level DISABLED f', Return tt))
  ∧ (∃ message,
       alist_get "warning"
         (attrs_of
            (clean (at_level WARNING
                      (FDict default_base false true
                         [("a", FScalar default_base VInt (PStr "abc"))]))).1)
       = Some (PStr message)).
Proof.
  split.
  - pose (f := FScalar default_base VInt (PStr "abc")).
    pose (message := ("Не удалось перобразовать значение поля типа <class 'str'> к "
                      ++ "<class 'int'> (invalid literal for int() with base 10: 'abc').")%string).
    assert (Hv : value_of f = Return (PStr "abc")) by reflexivity.
    assert (He : is_empty (PStr "abc") = false) by reflexivity.
    assert (Hc : _clean f = (f, Raise (EValidation message))) by (vm_compute; reflexivity).
    assert (Hf : is_dict_field f = true → elements_left_alone f = true) by discriminate.
    destruct (proj1 (C5_validation_levels f Hf) f (PStr "abc") message Hv He Hc)
      as (HS & (_ & HW & _) & (HD & _)).
    exists f, f, (PStr "abc"), message. repeat split; assumption.
  - pose (f := FDict default_base false true [("a", FScalar default_base VInt (PStr "abc"))]).
    assert (Hf : is_dict_field f = true → elements_left_alone f = true)
      by (intros _; reflexivity).
    destruct (proj1 (C5_validation_levels f Hf) _ _ _
                ltac:(vm_compute; reflexivity) ltac:(reflexivity)
                ltac:(vm_compute; reflexivity))
      as (_ & (_ & HW & _) & _).
    eexists. exact HW.
Defined.

(** ** [ConvertedDict]: the provisioned depth *)

Lemma determine_depth_nonempty d n : determine_depth (PDict d) = S n → is_empty (PDict d) = false.
Proof. destruct d; [ discriminate | reflexivity ]. Qed.

Lemma ConvertedDict_clean_eq b n p v :
  clean (FConvertedDict b n p v)
  = Field_clean_with (FConvertedDict b n p v) (Return v) (ConvertedDict__clean b n p v).
Proof. rewrite clean_eq. reflexivity. Qed.

(** C2. A [ConvertedDict] provisioned for depth [n] holds the dict [d].
    If the nesting depth of [d] is at most [n], [clean()] does not raise
    [InitializationRequired].  If it is [n + 1], [clean()] raises it and
    leaves the field provisioned for depth [n + 1]; cleaning the same value
    once more then returns without raising. *)
Theorem C2_depth_monotonicity (b : base) (n : nat) (p : field) (d : dict) :
  (determine_depth (PDict d) ≤ n →
     (clean (FConvertedDict b n p (PDict d))).2 ≠ Raise InitializationRequired)
  ∧ (determine_depth (PDict d) = S n →
     ∃ p', clean (FConvertedDict b n p (PDict d))
           = (FConvertedDict b (S n) p' (PDict d), Raise InitializationRequired)
         ∧ clean (FConvertedDict b (S n) p' (PDict d))
           = (FConvertedDict b (S n) p' (PDict d), Return tt)).
Proof.
  split.
  - intros Hd. rewrite ConvertedDict_clean_eq. unfold Field_clean_with.
    destruct (is_empty (PDict d)).
    + destruct (required _); simpl.
      * destruct (ValidationException_message required_message) as (m & -> & _). discriminate.
      * discriminate.
    + unfold ConvertedDict__clean, Field__clean_value, update_mapping. simpl is_dict. cbv iota.
      simpl negb. cbv iota.
      apply Nat.leb_le in Hd. rewrite Hd. simpl. discriminate.
  - intros Hd.
    pose (p' := Dict___init__ (new_mapping (S n - 1)) false
                  (with_attrs_enabled false default_base)).
    exists p'. rewrite !ConvertedDict_clean_eq. unfold Field_clean_with.
    rewrite (determine_depth_nonempty d n Hd).
    unfold ConvertedDict__clean, Field__clean_value, update_mapping. simpl is_dict. cbv iota.
    simpl negb. cbv iota. rewrite Hd.
    assert (E1 : (S n <=? n) = false) by (apply Nat.leb_gt; lia).
    rewrite E1, Nat.leb_refl. split; reflexivity.
Qed.

(** A field provisioned for depth 1, with the dicts [{'a': 1}] and
    [{'a': {'b': 1}}]. *)
Lemma C2_depth_monotonicity_witness :
  (clean (FConvertedDict default_base 1 (Text false) (PDict [("a", PInt 1%Z)]))).2
    ≠ Raise InitializationRequired
  ∧ ∃ p', clean (FConvertedDict default_base 1 (Text false)
                   (PDict [("a", PDict [("b", PInt 1%Z)])]))
          = (FConvertedDict default_base 2 p' (PDict [("a", PDict [("b", PInt 1%Z)])]),
             Raise InitializationRequired).
Proof.
  split.
  - apply (proj1 (C2_depth_monotonicity default_base 1 (Text false) [("a", PInt 1%Z)])).
    simpl. lia.
  - destruct (proj2 (C2_depth_monotonicity default_base 1 (Text false)
                       [("a", PDict [("b", PInt 1%Z)])]) eq_refl) as (p' & H & _).
    exists p'. exact H.
Defined.

(** ** Round trip through [serialize] and [deserialize] *)

(** C1, as stated, fails on [Choices([1, 2, 3])] set to [1]: the cleaned
    value is the int [1], it serializes to [{'value': 1}], and
    [deserialize] gives the str ['1'], since a field whose [_value_type] is
    [object] deserializes with [str]. *)
Lemma C1_counterexample :
  ¬ round_trip (FChoices default_base [PInt 1%Z; PInt 2%Z; PInt 3%Z] PNone) (PInt 1%Z).
Proof.
  intros H.
  destruct (H (FChoices default_base [PInt 1%Z; PInt 2%Z; PInt 3%Z] (PInt 1%Z))
              (FChoices default_base [PInt 1%Z; PInt 2%Z; PInt 3%Z] (PInt 1%Z))
              eq_refl eq_refl) as (s & d & v & Hs & Hd & Hv & He).
  vm_compute in Hs. injection Hs as <-.
  vm_compute in Hd. injection Hd as <-.
  vm_compute in Hv. injection Hv as <-.
  discriminate He.
Qed.

Lemma set_scalar b t v0 x :
  set_ (FScalar b t v0) x
  = (FScalar (Field_set_split b x).1 t (Field_set_split b x).2, Return tt).
Proof.
  simpl. unfold Field_set. simpl. destruct (Field_set_split b x). reflexivity.
Qed.

Lemma Field_set_split_attrs b x :
  alist_has "value" (attrs b) = false →
  alist_has "value" (attrs (Field_set_split b x).1) = false.
Proof.
  intros H. unfold Field_set_split. destruct x; try exact H.
  destruct (attrs_enabled b && alist_has "value" d); [ | exact H ].
  simpl. apply alist_has_pop_eq.
Qed.

Lemma Field_set_split_config b x :
  attrs_enabled (Field_set_split b x).1 = attrs_enabled b
  ∧ validation_level (Field_set_split b x).1 = validation_level b
  ∧ default_value (Field_set_split b x).1 = default_value b
  ∧ required (Field_set_split b x).1 = required b.
Proof.
  unfold Field_set_split. destruct x; try (repeat split; reflexivity).
  destruct (attrs_enabled b && alist_has "value" d); repeat split; reflexivity.
Qed.

(** What a concrete [_value_type] builds from one of its instances. *)
Lemma construct_instance t v :
  t ≠ VObject → py_isinstance v t = true →
  ∃ d, construct t v = Return d ∧ py_eq d v = true.
Proof.
  intros Ht Hi. destruct t, v; try discriminate; try contradiction; simpl.
  - eexists. split; [ reflexivity | ]. simpl. apply String.eqb_refl.
  - eexists. split; [ reflexivity | ]. simpl. destruct b; reflexivity.
  - eexists. split; [ reflexivity | ]. simpl. apply Z.eqb_refl.
  - eexists. split; [ reflexivity | ]. simpl. destruct b; reflexivity.
Qed.

Lemma serialize_scalar_value b t v :
  is_empty v = false →
  alist_has "value" (attrs b) = false →
  ∃ s, serialize (FScalar b t v) false = Return s
       ∧ data_to_deserialize b s = v.
Proof.
  intros He Ha. unfold serialize. rewrite _serialize_unfold. simpl.
  unfold Field_serialize_with. simpl. rewrite He. simpl.
  destruct (attrs_enabled b) eqn:Ea.
  - eexists. split; [ reflexivity | ]. unfold data_to_deserialize. rewrite Ea.
    unfold alist_has in Ha.
    rewrite alist_get_update_absent
      by (destruct (alist_get "value" (attrs b)); [ discriminate | reflexivity ]).
    reflexivity.
  - exists v. split; [ reflexivity | ]. unfold data_to_deserialize. rewrite Ea.
    destruct v; reflexivity.
Qed.

(** A scalar field cleaned at STRICT holds [None] or an instance of its
    [_value_type]. *)
Lemma clean_scalar_strict b t v f2 :
  validation_level b = STRICT →
  clean (FScalar b t v) = (f2, Return tt) →
  ∃ v', f2 = FScalar b t v' ∧ (v' = PNone ∨ py_isinstance v' t = true).
Proof.
  intros Hl. rewrite clean_eq. unfold Field_clean_with, value_of. simpl.
  destruct (is_empty v).
  - destruct (required b); [ intros [= ] | ].
    intros [= <-]. exists PNone. split; [ reflexivity | left; reflexivity ].
  - unfold Field__clean, Field__clean_value.
    destruct (py_isinstance v t) eqn:Ei.
    + intros [= <-]. exists v. split; [ reflexivity | right; exact Ei ].
    + destruct (Field__deserialize t v) as [ data | e ] eqn:Ed.
      * intros [= <-]. exists data. split; [ reflexivity | right ].
        destruct t; simpl in Ed.
        -- reflexivity.
        -- injection Ed as <-. reflexivity.
        -- unfold py_int in Ed. destruct v; try discriminate.
           destruct (parse_int s); [ injection Ed as <-; reflexivity | discriminate ].
        -- injection Ed as <-. reflexivity.
      * match goal with
        | |- context [ValidationException ?msg] =>
            destruct (ValidationException_message msg) as (m & -> & _)
        end.
        simpl. rewrite Hl. intros [= ].
Qed.

Lemma clean_scalar_shape b t v f2 r :
  clean (FScalar b t v) = (f2, r) →
  ∃ b' v', f2 = FScalar b' t v'
    ∧ attrs_enabled b' = attrs_enabled b
    ∧ default_value b' = default_value b
    ∧ (alist_has "value" (attrs b) = false → alist_has "value" (attrs b') = false).
Proof.
  rewrite clean_eq. unfold Field_clean_with, value_of. simpl.
  destruct (is_empty v).
  - destruct (required b); intros [= <- _]; exists b; eexists; repeat split; auto.
  - unfold Field__clean.
    destruct (Field__clean_value _ _ _ _) as [ data | [ m | | | | | | ] ];
      try (intros [= <- _]; exists b; eexists; repeat split; auto; fail).
    simpl. destruct (validation_level b); intros [= <- _].
    + exists b; eexists; repeat split; auto.
    + eexists; eexists; split; [ reflexivity | ]. simpl. repeat split.
      intros H. rewrite alist_has_set_ne by discriminate. exact H.
    + exists b; eexists; repeat split; auto.
Qed.

(** C1, amended.  For a scalar field whose [_value_type] is [str], [int]
    or [bool] and whose instance attrs have no ["value"] key: if [set(x)]
    and then [clean()] succeed and leave a non-empty value [v], which is an
    instance of the value type (as it always is when the level is STRICT),
    then [deserialize(serialize())] returns a value equal to [v]. *)
Theorem C1_round_trip_scalar (b : base) (t : value_type) (v0 x : pyval)
    (f1 f2 : field) (v : pyval) :
  t ≠ VObject →
  alist_has "value" (attrs b) = false →
  set_ (FScalar b t v0) x = (f1, Return tt) →
  clean f1 = (f2, Return tt) →
  value_of f2 = Return v →
  is_empty v = false →
  validation_level b = STRICT ∨ py_isinstance v t = true →
  ∃ s d, serialize f2 false = Return s
         ∧ deserialize f2 s = Return d
         ∧ py_eq d v = true.
Proof.
  intros Ht Ha Hset Hclean Hv He Hinst.
  rewrite set_scalar in Hset. injection Hset as <-.
  destruct (Field_set_split_config b x) as (Ea & El & Ed & Er).
  pose proof (Field_set_split_attrs b x Ha) as Ha1.
  destruct (clean_scalar_shape _ _ _ _ _ Hclean) as (b2 & v2 & -> & Ea2 & Ed2 & Ha2).
  specialize (Ha2 Ha1).
  unfold value_of in Hv. simpl in Hv. injection Hv as ->.
  assert (Hi : py_isinstance v t = true).
  { destruct Hinst as [Hl | Hi]; [ | exact Hi ].
    destruct (clean_scalar_strict _ _ _ _ ltac:(rewrite El; exact Hl) Hclean)
      as (v' & [= _ <-] & [-> | Hi]); [ discriminate | exact Hi ]. }
  destruct (serialize_scalar_value b2 t v He Ha2) as (s & Hs & Hdata).
  destruct (construct_instance t v Ht Hi) as (d & Hd & Heq).
  exists s, d. split; [ exact Hs | ]. split; [ | exact Heq ].
  simpl. rewrite Hdata. destruct t; [ contradiction | exact Hd .. ].
Qed.

(** An [Integer] set to ["123"]. *)
Lemma C1_round_trip_scalar_witness :
  ∃ s d, serialize (FScalar default_base VInt (PInt 123%Z)) false = Return s
         ∧ deserialize (FScalar default_base VInt (PInt 123%Z)) s = Return d
         ∧ py_eq d (PInt 123%Z) = true.
Proof.
  apply (C1_round_trip_scalar default_base VInt PNone (PStr "123")
           (FScalar default_base VInt (PStr "123"))
           (FScalar default_base VInt (PInt 123%Z)) (PInt 123%Z)).
  - discriminate.
  - reflexivity.
  - reflexivity.
  - vm_compute. reflexivity.
  - reflexivity.
  - reflexivity.
  - left. reflexivity.
Defined.

(** ** [Dict._clean]: one error for all the failing properties *)

Lemma string_app_assoc (a b c : string) : ((a ++ b) ++ c = a ++ (b ++ c))%string.
Proof.
  induction a as [ | x a IH ]; [ reflexivity | ].
  change (String x ((a ++ b) ++ c) = String x (a ++ (b ++ c)))%string.
  rewrite IH. reflexivity.
Qed.

Lemma string_app_nil_r (a : string) : (a ++ "" = a)%string.
Proof.
  induction a as [ | x a IH ]; [ reflexivity | ].
  change (String x (a ++ "") = String x a)%string. rewrite IH. reflexivity.
Qed.

Lemma Dict__clean_loop_all children msg :
  Forall (λ x : string * field * (field * outcome unit), is_validation_outcome x.2.2)
         children →
  Dict__clean_loop children msg
  = (map (λ x : string * field * (field * outcome unit), (x.1.1, x.2.1)) children,
     if String.eqb (msg ++ child_messages children) "" then Return tt
     else Raise (ValidationException (msg ++ child_messages children))).
Proof.
  intros H. revert msg.
  induction H as [ | [[k c] [c' r]] children Hr _ IH ]; intros msg;
    cbn [Dict__clean_loop child_messages map fst snd].
  - rewrite string_app_nil_r. reflexivity.
  - simpl in Hr. destruct r as [ [] | [ m | | | | | | ] ]; try contradiction.
    + rewrite IH. reflexivity.
    + rewrite IH, string_app_assoc. reflexivity.
Qed.

Lemma occurs_in_child_messages children k c c' m :
  (k, c, (c', Raise (EValidation m))) ∈ children →
  occurs_in (property_validation_message k m) (child_messages children).
Proof.
  induction children as [ | [[k1 c1] [c1' r1]] children IH ]; intros Hin.
  - inversion Hin.
  - apply elem_of_cons in Hin as [ [= <- <- <- <-] | Hin ].
    + exists "", (child_messages children). reflexivity.
    + destruct (IH Hin) as (before & after & E). cbn [child_messages].
      destruct r1 as [ [] | [ m1 | | | | | | ] ];
        try (exists before, after; exact E).
      exists (property_validation_message k1 m1 ++ before)%string, after.
      rewrite E, string_app_assoc. reflexivity.
Qed.

Lemma child_messages_nonempty children k c c' m :
  (k, c, (c', Raise (EValidation m))) ∈ children → child_messages children ≠ "".
Proof.
  intros Hin. destruct (occurs_in_child_messages _ _ _ _ _ Hin) as (before & after & ->).
  unfold property_validation_message.
  destruct before; simpl; discriminate.
Qed.

(** C6, amended.  A composite is configured STRICT.
    - Its value is not empty (one property at least holds a value), and
      its properties, cleaned, return or raise a [ValidationException] and
      nothing else: if some property fails, [clean()] cleans every
      property, raises one [ValidationException], and its message holds,
      for every failing property, the sentence that names it and gives its
      error.
    - Its value is empty (no property holds a value): [clean()] cleans no
      property; it raises the error of an empty required field when the
      composite itself is required, and otherwise assigns [None] to the
      value and returns. *)
Theorem C6_composite_errors (b : base) (i d : bool) (ps : list (string * field))
    (v : pyval) :
  validation_level b = STRICT →
  value_of (FDict b i d ps) = Return v →
  (is_empty v = false →
   (∀ k c, (k, c) ∈ ps → is_validation_outcome (clean c).2) →
   (∃ k c m, (k, c) ∈ ps ∧ (clean c).2 = Raise (EValidation m)) →
   ∃ message,
     clean (FDict b i d ps)
     = (FDict b i d (map (λ kc, (kc.1, (clean kc.2).1)) ps), Raise (EValidation message))
     ∧ ∀ k c m, (k, c) ∈ ps → (clean c).2 = Raise (EValidation m) →
         occurs_in (property_validation_message k m) message)
  ∧ (is_empty v = true →
     clean (FDict b i d ps)
     = if required b
       then (FDict b i d ps, Raise (ValidationException required_message))
       else assign_value (FDict b i d ps) PNone).
Proof.
  intros Hl Hv. split.
  - intros He Hall (k0 & c0 & m0 & Hin0 & Hc0).
    pose (children := map (λ kc : string * field, (kc.1, kc.2, clean kc.2)) ps).
    assert (Hmem : ∀ k c m, (k, c) ∈ ps → (clean c).2 = Raise (EValidation m) →
                     (k, c, ((clean c).1, Raise (EValidation m))) ∈ children).
    { intros k c m Hin Hc. unfold children.
      apply list_elem_of_In, in_map_iff. exists (k, c). split.
      - simpl. rewrite <- Hc. destruct (clean c); reflexivity.
      - apply list_elem_of_In, Hin. }
    assert (Hne : child_messages children ≠ "")
      by (eapply child_messages_nonempty, Hmem; eassumption).
    exists (child_messages children). split.
    + rewrite clean_eq, Hv. unfold Field_clean_with. rewrite He.
      cbn [_clean]. unfold Dict__clean. fold children.
      rewrite Dict__clean_loop_all.
      * change ("" ++ child_messages children)%string with (child_messages children).
        destruct (String.eqb (child_messages children) "") eqn:E;
          [ apply String.eqb_eq in E; contradiction | ].
        rewrite ValidationException_nonempty by exact Hne.
        simpl. rewrite Hl. unfold children. rewrite map_map. reflexivity.
      * unfold children. apply Forall_forall. intros x Hx.
        apply list_elem_of_In, in_map_iff in Hx as ([k c] & <- & Hin).
        simpl. apply (Hall k c), list_elem_of_In, Hin.
    + intros k c m Hin Hc. eapply occurs_in_child_messages, Hmem; eassumption.
  - intros He. rewrite clean_eq, Hv. unfold Field_clean_with. rewrite He. reflexivity.
Qed.

(** C6, as stated, fails on [two_required]: each property, cleaned on its
    own, raises for its missing value, yet [clean()] of the composite finds
    its value empty and returns before it cleans any property. *)
Lemma C6_counterexample : ¬ aggregates_child_errors two_required.
Proof.
  intros H.
  assert (Hfail : ∃ k1 c1 m1 k2 c2 m2,
             k1 ≠ k2
             ∧ (k1, c1) ∈ [("a", FScalar (Base PNone class_default_attrs true STRICT false [])
                                  VInt PNone);
                           ("b", FScalar (Base PNone class_default_attrs true STRICT false [])
                                  VInt PNone)]
             ∧ (k2, c2) ∈ [("a", FScalar (Base PNone class_default_attrs true STRICT false [])
                                  VInt PNone);
                           ("b", FScalar (Base PNone class_default_attrs true STRICT false [])
                                  VInt PNone)]
             ∧ (clean c1).2 = Raise (EValidation m1)
             ∧ (clean c2).2 = Raise (EValidation m2)).
  { exists "a", (FScalar (Base PNone class_default_attrs true STRICT false []) VInt PNone),
      required_message,
      "b", (FScalar (Base PNone class_default_attrs true STRICT false []) VInt PNone),
      required_message.
    split; [ discriminate | ]. split; [ left | ]. split; [ right; left | ].
    split; vm_compute; reflexivity. }
  destruct (H eq_refl Hfail) as (message & Hc & _).
  vm_compute in Hc. discriminate Hc.
Qed.

(** The composite [{a: Integer(), b: Integer()}] holding
    [{'a': 'x', 'b': 'y'}]. *)
Lemma C6_composite_errors_witness :
  ∃ message f',
    clean (FDict default_base false true
             [("a", FScalar default_base VInt (PStr "x"));
              ("b", FScalar default_base VInt (PStr "y"))])
    = (f', Raise (EValidation message))
    ∧ occurs_in
        (property_validation_message "b"
           ("Не удалось перобразовать значение поля типа <class 'str'> к "
            ++ "<class 'int'> (invalid literal for int() with base 10: 'y').")%string)
        message.
Proof.
  pose (ps := [("a", FScalar default_base VInt (PStr "x"));
               ("b", FScalar default_base VInt (PStr "y"))]).
  assert (Hv : value_of (FDict default_base false true ps)
               = Return (PDict [("a", PDict [("value", PStr "x")]);
                                ("b", PDict [("value", PStr "y")])]))
    by (vm_compute; reflexivity).
  assert (Hall : ∀ k c, (k, c) ∈ ps → is_validation_outcome (clean c).2).
  { intros k c Hin. unfold ps in Hin.
    apply elem_of_cons in Hin as [ [= -> ->] | Hin ]; [ vm_compute; exact I | ].
    apply elem_of_cons in Hin as [ [= -> ->] | Hin ]; [ vm_compute; exact I | ].
    inversion Hin. }
  assert (Hb : (clean (FScalar default_base VInt (PStr "y"))).2
               = Raise (EValidation
                   ("Не удалось перобразовать значение поля типа <class 'str'> к "
                    ++ "<class 'int'> (invalid literal for int() with base 10: 'y').")%string))
    by (vm_compute; reflexivity).
  assert (Hin : ("b", FScalar default_base VInt (PStr "y")) ∈ ps) by (right; left).
  destruct (proj1 (C6_composite_errors default_base false true ps _ eq_refl Hv) eq_refl Hall
              (ex_intro _ "b" (ex_intro _ _ (ex_intro _ _ (conj Hin Hb)))))
    as (message & Hc & Hocc).
  exists message. eexists. split; [ exact Hc | ].
  exact (Hocc _ _ _ Hin Hb).
Defined.

(** ** [Dict.set]: undeclared keys *)

Lemma alist_get_app_absent {V} k (l1 l2 : list (string * V)) :
  k ∉ map fst l1 → alist_get k (l1 ++ l2)%list = alist_get k l2.
Proof.
  induction l1 as [ | [k' v'] l1 IH ]; intros Hk; simpl; [ reflexivity | ].
  destruct (String.eqb k' k) eqn:E.
  - apply String.eqb_eq in E as ->. exfalso. apply Hk. simpl. left.
  - apply IH. intros H. apply Hk. simpl. right. exact H.
Qed.

Lemma alist_set_app_absent {V} k (v : V) (l1 l2 : list (string * V)) :
  k ∉ map fst l1 → alist_set k v (l1 ++ l2)%list = (l1 ++ alist_set k v l2)%list.
Proof.
  induction l1 as [ | [k' v'] l1 IH ]; intros Hk; simpl; [ reflexivity | ].
  destruct (String.eqb k' k) eqn:E.
  - apply String.eqb_eq in E as ->. exfalso. apply Hk. simpl. left.
  - f_equal. apply IH. intros H. apply Hk. simpl. right. exact H.
Qed.

Lemma alist_get_absent {V} k (l : list (string * V)) :
  k ∉ map fst l → alist_get k l = None.
Proof.
  induction l as [ | [k' v'] l IH ]; intros Hk; simpl; [ reflexivity | ].
  destruct (String.eqb k' k) eqn:E.
  - apply String.eqb_eq in E as ->. exfalso. apply Hk. simpl. left.
  - apply IH. intros H. apply Hk. simpl. right. exact H.
Qed.

Lemma alist_has_absent {V} k (l : list (string * V)) :
  alist_has k l = false ↔ k ∉ map fst l.
Proof.
  unfold alist_has. split.
  - induction l as [ | [k' v'] l IH ]; simpl; intros H Hin; [ inversion Hin | ].
    destruct (String.eqb k' k) eqn:E; [ discriminate | ].
    apply elem_of_cons in Hin as [ -> | Hin ].
    + rewrite String.eqb_refl in E. discriminate.
    + exact (IH H Hin).
  - intros H. rewrite alist_get_absent by exact H. reflexivity.
Qed.

Lemma alist_set_absent {V} k (v : V) (l : list (string * V)) :
  k ∉ map fst l → alist_set k v l = (l ++ [(k, v)])%list.
Proof.
  intros H. rewrite <- (app_nil_r l) at 1.
  rewrite alist_set_app_absent by exact H. reflexivity.
Qed.

Lemma reset_properties_keys ps : map fst (reset_properties ps) = map fst ps.
Proof. unfold reset_properties. rewrite map_map. reflexivity. Qed.

(** The loop of [Dict.update] over the [None] that the value setter puts
    under every declared name: each property is set to [None]. *)
Lemma Dict_update_loop_reset i iu todo : ∀ pre pre' items,
  NoDup (map fst (pre ++ todo)%list) →
  map fst pre' = map fst pre →
  Forall (λ kc : string * field, (set_ kc.2 PNone).2 = Return tt) todo →
  Dict_update_loop (setters_of (pre ++ todo)%list) i iu (pre' ++ todo)%list
    (map (λ kc : string * field, (kc.1, PNone)) todo ++ items)%list
  = Dict_update_loop (setters_of (pre ++ todo)%list) i iu
      (pre' ++ reset_properties todo)%list items.
Proof.
  induction todo as [ | [k c] todo IH ]; intros pre pre' items Hnd Hkeys Hok.
  - reflexivity.
  - inversion Hok as [ | ? ? Hc Hok' ]; subst. simpl in Hc.
    assert (Hk : k ∉ map fst pre).
    { rewrite map_app in Hnd. apply NoDup_app in Hnd as (_ & Hdis & _).
      intros Hin. apply (Hdis k Hin). simpl. left. }
    assert (Hk' : k ∉ map fst pre') by (rewrite Hkeys; exact Hk).
    cbn [map app Dict_update_loop fst snd].
    unfold alist_has. rewrite alist_get_app_absent by exact Hk'.
    cbn [alist_get]. rewrite String.eqb_refl.
    unfold setters_of at 1. rewrite alist_get_map.
    rewrite alist_get_app_absent by exact Hk.
    cbn [alist_get]. rewrite String.eqb_refl. cbn [option_map].
    destruct (set_ c PNone) as [c' r] eqn:Ec. simpl in Hc. subst r.
    rewrite alist_set_app_absent by exact Hk'.
    cbn [alist_set]. rewrite String.eqb_refl.
    replace (pre ++ (k, c) :: todo)%list with ((pre ++ [(k, c)]) ++ todo)%list
      by (rewrite <- app_assoc; reflexivity).
    replace (pre' ++ (k, c') :: todo)%list with ((pre' ++ [(k, c')]) ++ todo)%list
      by (rewrite <- app_assoc; reflexivity).
    rewrite IH.
    + rewrite <- !app_assoc. unfold reset_properties. cbn [map app fst snd].
      rewrite Ec. reflexivity.
    + rewrite <- app_assoc. exact Hnd.
    + rewrite !map_app, Hkeys. reflexivity.
    + exact Hok'.
Qed.

Lemma alist_update_nil {V} (m : list (string * V)) : alist_update m [] = m.
Proof. reflexivity. Qed.

(** The value setter of a composite, given [None]. *)
Lemma Dict_value_setter_None i d ps :
  NoDup (map fst ps) →
  Forall (λ kc : string * field, (set_ kc.2 PNone).2 = Return tt) ps →
  Dict_value_setter (setters_of ps) i d ps PNone = (reset_properties ps, Return tt).
Proof.
  intros Hnd Hok. unfold Dict_value_setter. cbn [truthy andb].
  rewrite alist_update_nil. unfold Dict_update_with.
  replace (if truthy (PDict (map (λ kc : string * field, (kc.1, PNone)) ps))
           then PDict (map (λ kc : string * field, (kc.1, PNone)) ps) else PDict [])
    with (PDict (map (λ kc : string * field, (kc.1, PNone)) ps))
    by (destruct ps; reflexivity).
  rewrite alist_update_nil.
  pose proof (Dict_update_loop_reset i (if d then true else true) ps [] [] []) as H.
  rewrite !app_nil_l, !app_nil_r in H. rewrite H; [ reflexivity | exact Hnd | reflexivity | exact Hok ].
Qed.

Lemma keys_distinct_props b i d ps :
  keys_distinct (FDict b i d ps) →
  NoDup (map fst ps) ∧ Forall (λ kc : string * field, keys_distinct kc.2) ps.
Proof.
  simpl. intros [Hnd H]. split; [ exact Hnd | ].
  induction ps as [ | [k c] ps IH ]; constructor.
  - apply H.
  - apply IH; [ | apply H ]. simpl in Hnd. inversion Hnd; assumption.
Qed.

Lemma Dict_value_loop_empty rec_children rest acc :
  Forall (λ x : string * (field * outcome pyval),
            ∃ v, (if is_dict_field x.2.1 then x.2.2 else Return (stored_value x.2.1))
                 = Return v ∧ is_empty v = true) rec_children →
  Dict_value_loop (rec_children ++ rest)%list acc = Dict_value_loop rest acc.
Proof.
  intros H. induction H as [ | [k [c raw]] children (v & Hv & He) _ IH ]; [ reflexivity | ].
  cbn [app Dict_value_loop]. simpl in Hv. rewrite Hv. cbn [bind]. rewrite He. exact IH.
Qed.

(** Set to [None], a field has an empty value, whatever its class. *)
Lemma set_None f :
  keys_distinct f →
  (set_ f PNone).2 = Return tt
  ∧ ∃ v, value_of (set_ f PNone).1 = Return v ∧ is_empty v = true.
Proof.
  induction f as [ b t v | b c v | b eo v _ | b i d ps IH | b n p v _ ]
    using field_nested_ind; intros Hkd;
    try (split; [ reflexivity | exists PNone; split; reflexivity ]).
  apply keys_distinct_props in Hkd as [Hnd Hkd].
  assert (Hok : Forall (λ kc : string * field, (set_ kc.2 PNone).2 = Return tt) ps).
  { rewrite Forall_forall in IH, Hkd |- *. intros kc Hin. apply (IH kc Hin), (Hkd kc Hin). }
  cbn [set_]. fold (setters_of ps). unfold Dict_set_with. cbn [truthy andb].
  cbn [Field_set_split]. rewrite (Dict_value_setter_None i d ps Hnd Hok).
  split; [ reflexivity | ].
  exists (PDict []). split; [ | reflexivity ].
  unfold value_of. cbn [is_dict_field fst]. rewrite _serialize_FDict.
  rewrite <- (app_nil_r (map _ (reset_properties ps))).
  apply Dict_value_loop_empty.
  unfold reset_properties. rewrite map_map. apply Forall_fmap.
  rewrite Forall_forall in IH, Hkd |- *. intros [k c] Hin. simpl.
  destruct (IH (k, c) Hin (Hkd (k, c) Hin)) as (_ & v & Hv & He).
  exists v. split; [ exact Hv | exact He ].
Qed.

Lemma Dict_value_setter_empty i d ps value :
  value = PNone ∨ value = PDict [] →
  NoDup (map fst ps) →
  Forall (λ kc : string * field, (set_ kc.2 PNone).2 = Return tt) ps →
  Dict_value_setter (setters_of ps) i d ps value = (reset_properties ps, Return tt).
Proof.
  intros [-> | ->] Hnd Hok; [ apply Dict_value_setter_None; assumption | ].
  rewrite <- (Dict_value_setter_None i d ps Hnd Hok). reflexivity.
Qed.

Lemma keys_distinct_reset b i d ps :
  keys_distinct (FDict b i d ps) →
  NoDup (map fst ps)
  ∧ Forall (λ kc : string * field, (set_ kc.2 PNone).2 = Return tt) ps
  ∧ Forall (λ x : string * (field * outcome pyval),
              ∃ v, (if is_dict_field x.2.1 then x.2.2 else Return (stored_value x.2.1))
                   = Return v ∧ is_empty v = true)
           (map (λ kc : string * field, (kc.1, (kc.2, _serialize kc.2)))
                (reset_properties ps)).
Proof.
  intros Hkd. apply keys_distinct_props in Hkd as [Hnd Hkd].
  split; [ exact Hnd | ]. split.
  - rewrite Forall_forall in Hkd |- *. intros kc Hin. apply set_None, Hkd, Hin.
  - unfold reset_properties. rewrite map_map. apply Forall_fmap.
    rewrite Forall_forall in Hkd |- *. intros [k c] Hin. simpl.
    destruct (set_None c (Hkd (k, c) Hin)) as (_ & v & Hv & He).
    exists v. split; [ exact Hv | exact He ].
Qed.

Lemma truthy_snoc (l : dict) (kv : string * pyval) : truthy (PDict (l ++ [kv])%list) = true.
Proof. destruct l; reflexivity. Qed.

Lemma alist_update_distinct {V} (d : list (string * V)) : ∀ acc,
  NoDup (map fst (acc ++ d)%list) → alist_update acc d = (acc ++ d)%list.
Proof.
  unfold alist_update.
  induction d as [ | [k v] d IH ]; intros acc Hnd; simpl.
  - rewrite app_nil_r. reflexivity.
  - assert (Hk : k ∉ map fst acc).
    { rewrite map_app in Hnd. simpl in Hnd.
      apply NoDup_app in Hnd as (_ & Hdis & _).
      intros Hin. apply (Hdis k Hin). left. }
    rewrite alist_set_absent by exact Hk.
    rewrite IH by (rewrite <- app_assoc; exact Hnd).
    rewrite <- app_assoc. reflexivity.
Qed.

(** With no [set] of an earlier property to call, the loop of
    [Dict.update] that admits undefined keys creates a property per item. *)
Lemma Dict_update_loop_open i (items : dict) : ∀ props,
  Dict_update_loop [] i true props items
  = (fold_left (λ props kv, alist_set kv.1 (undefined_property i kv.2) props)
               items props,
     Return tt).
Proof.
  induction items as [ | [k v] items IH ]; intros props; [ reflexivity | ].
  cbn [Dict_update_loop alist_get fold_left fst snd].
  destruct (alist_has k props); apply IH.
Qed.

(** [Dict.__add_undefined_property] on a dict without a ["value"] key:
    the property is what [Dict(attrs_enabled=...)] becomes by
    [set(value, include_undefined=True)]. *)
Lemma undefined_property_nested i (d : dict) :
  NoDup (map fst d) → alist_has "value" d = false →
  Dict_set (FDict (with_attrs_enabled i default_base) false false []) (PDict d) true
  = (undefined_property i (PDict d), Return tt).
Proof.
  intros Hnd Hv. cbn [Dict_set setters_of map]. unfold Dict_set_with.
  cbn [truthy is_dict negb andb]. rewrite andb_false_r.
  cbn [Field_set_split]. rewrite Hv, andb_false_r.
  unfold Dict_value_setter. cbn [truthy is_dict negb andb map].
  rewrite andb_false_r.
  rewrite (alist_update_distinct d []) by exact Hnd. rewrite app_nil_l.
  unfold Dict_update_with.
  replace (if truthy (PDict d) then PDict d else PDict []) with (PDict d)
    by (destruct d; reflexivity).
  rewrite alist_update_nil. cbv zeta. rewrite Dict_update_loop_open.
  cbn [undefined_property]. rewrite Hv. reflexivity.
Qed.

(** C7, amended.  A composite with properties [ps] (distinct names) is
    given [{k: x}], where [k] is not among them and is not ["value"].
    - Built with declared properties, and without [include_undefined], it
      drops the key: every property is set to [None] and the value of the
      composite is [{}].
    - With [include_undefined=True], or built without properties, it
      admits the key: it sets every property to [None] and gains the
      property [k], a [Text] holding [x] when [x] is not a dict and a
      nested composite when [x] is a dict without a ["value"] key.  For a
      non-empty [x] that is not a dict, the value of the composite becomes
      [{k: x}] when inner attrs are disabled and [{k: {'value': x}}] when
      they are enabled. *)
Theorem C7_undefined_keys (b : base) (i d : bool) (ps : list (string * field))
    (k : string) (x : pyval) :
  keys_distinct (FDict b i d ps) →
  alist_has k ps = false →
  k ≠ "value" →
  (d = true →
     Dict_set (FDict b i d ps) (PDict [(k, x)]) false
     = (FDict b i d (reset_properties ps), Return tt)
     ∧ value_of (FDict b i d (reset_properties ps)) = Return (PDict []))
  ∧ (∀ include_undefined, include_undefined = true ∨ d = false →
       Dict_set (FDict b i d ps) (PDict [(k, x)]) include_undefined
       = (FDict b i d (reset_properties ps ++ [(k, undefined_property i x)])%list,
          Return tt))
  ∧ (is_dict x = false →
       undefined_property i x = FScalar (with_attrs_enabled i default_base) VStr x
       ∧ (is_empty x = false →
            value_of (FDict b i d
                        (reset_properties ps ++ [(k, undefined_property i x)])%list)
            = Return (PDict [(k, if i then PDict [("value", x)] else x)])))
  ∧ (∀ inner, x = PDict inner → alist_has "value" inner = false →
       is_dict_field (undefined_property i x) = true).
Proof.
  intros Hkd Hk Hkv.
  destruct (keys_distinct_reset _ _ _ _ Hkd) as (Hnd & Hok & Hempty).
  assert (Hkv' : String.eqb k "value" = false)
    by (destruct (String.eqb k "value") eqn:E;
        [ apply String.eqb_eq in E; contradiction | reflexivity ]).
  assert (Hvalue : alist_has "value" [(k, x)] = false)
    by (unfold alist_has; simpl; rewrite Hkv'; reflexivity).
  assert (Hkabs : k ∉ map fst ps) by (apply alist_has_absent, Hk).
  split; [ | split; [ | split ] ].
  - intros ->. split.
    + cbn [Dict_set]. unfold Dict_set_with. cbn [truthy is_dict negb andb].
      unfold Dict_drop_undefined. rewrite Hvalue, andb_false_r.
      unfold keep_declared. cbn [List.filter fst]. rewrite Hk.
      cbn [Field_set_split alist_has alist_get]. rewrite andb_false_r.
      rewrite (Dict_value_setter_empty i true ps (PDict []) (or_intror eq_refl) Hnd Hok).
      reflexivity.
    + unfold value_of. cbn [is_dict_field]. rewrite _serialize_FDict.
      rewrite <- (app_nil_r (map _ (reset_properties ps))).
      rewrite (Dict_value_loop_empty _ [] [] Hempty). reflexivity.
  - intros iu Hiu.
    assert (Eiu : (if d then iu else true) = true)
      by (destruct Hiu as [ -> | -> ]; [ destruct d | ]; reflexivity).
    cbn [Dict_set]. unfold Dict_set_with. rewrite Eiu. cbn [truthy is_dict negb andb].
    cbn [Field_set_split]. rewrite Hvalue, andb_false_r.
    unfold Dict_value_setter. cbn [truthy is_dict negb andb].
    unfold alist_update at 1. cbn [fold_left fst snd].
    rewrite alist_set_absent
      by (rewrite map_map; simpl; exact Hkabs).
    unfold Dict_update_with. rewrite truthy_snoc, alist_update_nil. cbv zeta.
    replace (if d then true else true) with true by (destruct d; reflexivity).
    pose proof (Dict_update_loop_reset i true ps [] [] [(k, x)]) as H.
    rewrite !app_nil_l in H. rewrite H by (try assumption; reflexivity). clear H.
    cbn [Dict_update_loop].
    replace (alist_has k (reset_properties ps)) with false
      by (symmetry; apply alist_has_absent; rewrite reset_properties_keys; exact Hkabs).
    rewrite alist_set_absent by (rewrite reset_properties_keys; exact Hkabs).
    reflexivity.
  - intros Hx. split; [ destruct x; try discriminate; reflexivity | ].
    intros He. unfold value_of. cbn [is_dict_field]. rewrite _serialize_FDict.
    rewrite map_app. rewrite (Dict_value_loop_empty _ _ [] Hempty).
    assert (Hup : undefined_property i x = FScalar (with_attrs_enabled i default_base) VStr x)
      by (destruct x; try discriminate; reflexivity).
    rewrite Hup. cbn [map fst snd Dict_value_loop is_dict_field stored_value bind].
    rewrite He. rewrite _serialize_unfold. cbn [_serialize_step field_base].
    unfold Field_serialize_with. cbn [bind]. rewrite He. cbn [andb].
    destruct i; reflexivity.
  - intros inner -> Hd. simpl. rewrite Hd. reflexivity.
Qed.

(** The composite [{x: Integer()}] with inner attrs disabled, given
    [{'a': 1}]. *)
Lemma C7_undefined_keys_witness :
  value_of (Dict_set (FDict default_base false true
                        [("x", FScalar default_base VInt PNone)])
                     (PDict [("a", PInt 1%Z)]) false).1
    = Return (PDict [])
  ∧ value_of (Dict_set (FDict default_base false true
                          [("x", FScalar default_base VInt PNone)])
                       (PDict [("a", PInt 1%Z)]) true).1
    = Return (PDict [("a", PInt 1%Z)]).
Proof.
  assert (Hkd : keys_distinct (FDict default_base false true
                                 [("x", FScalar default_base VInt PNone)])).
  { simpl. split; [ | split; exact I ]. apply NoDup_cons. split; [ | apply NoDup_nil; exact I ].
    intros H. inversion H. }
  destruct (C7_undefined_keys default_base false true
              [("x", FScalar default_base VInt PNone)] "a" (PInt 1%Z)
              Hkd eq_refl ltac:(discriminate))
    as (H1 & H3 & H4 & _).
  destruct (H1 eq_refl) as [H1a H1b].
  split.
  - rewrite H1a. exact H1b.
  - rewrite (H3 true (or_introl eq_refl)). exact (proj2 (H4 eq_refl) eq_refl).
Defined.

(** C7, as stated, fails on the composite [{x: Integer()}] built with
    [inner_attrs_enabled=True], as the composite of a document is: after
    [set({'a': 1}, include_undefined=True)] its value is
    [{'a': {'value': 1}}]. *)
Lemma C7_counterexample :
  ¬ admits_undefined_key
      (Dict___init__ [("x", FScalar default_base VInt PNone)] true default_base).
Proof.
  intros [_ H]. vm_compute in H. discriminate H.
Qed.

(** ** [List._clean]: the first failing element *)

(** C3, as stated, fails on [List(Integer(), validation_level=WARNING)]
    holding [['x', 'y']]: the loop of [List._clean] raises at ['x'], so the
    warning that [clean()] records is the error of ['x'], the first failing
    element, and ['y'] is never looked at. *)
Lemma C3_counterexample :
  ¬ warning_is_last_error
      (FList (with_validation_level WARNING default_base)
             (FScalar default_base VInt PNone)
             (PList [PStr "x"; PStr "y"])).
Proof.
  intros (f' & Hc & Hw).
  vm_compute in Hc. injection Hc as <-.
  vm_compute in Hw. discriminate Hw.
Qed.

Lemma List__clean_loop_prefix rec pre : ∀ eo done l1,
  List__clean_loop rec eo done pre = (l1, Return tt) →
  ∃ eo', ∀ rest,
    List__clean_loop rec eo done (pre ++ rest)%list = List__clean_loop rec eo' l1 rest.
Proof.
  induction pre as [ | x pre IH ]; intros eo done l1; cbn [List__clean_loop app].
  - intros [= <-]. exists eo. reflexivity.
  - destruct (set_ eo x) as [eo1 [ [] | e ]]; [ | intros [= ] ].
    destruct (rec eo1) as [eo2 r].
    destruct (_ <- r ;; value_of eo2) as [ v | [ m | | | | | | ] ]; try (intros [= ]; fail).
    apply IH.
Qed.

Lemma List__clean_loop_head rec eo done e l2 m :
  List__clean_loop rec eo done [e] = (l2, Raise (EValidation m)) →
  (∀ post, List__clean_loop rec eo done (e :: post)
           = ((done ++ e :: post)%list, Raise (EValidation m)))
  ∧ ((∃ error, m = element_validation_message e error)
     ∨ (∃ error, m = element_check_message e error)).
Proof.
  cbn [List__clean_loop].
  destruct (set_ eo e) as [eo1 [ [] | ex ]].
  - destruct (rec eo1) as [eo2 r].
    destruct (_ <- r ;; value_of eo2) as [ v | [ m' | | | | | | ] ]; try (intros [= ]; fail).
    rewrite ValidationException_nonempty
      by (unfold element_validation_message; discriminate).
    intros [= _ <-]. split; [ reflexivity | left; eexists; reflexivity ].
  - rewrite ValidationException_nonempty
      by (unfold element_check_message; discriminate).
    intros [= _ <-]. split; [ reflexivity | right; eexists; reflexivity ].
Qed.

(** C3, amended.  In a list [pre ++ e :: post], the elements [pre] pass
    the check of [List._clean] and [e] fails it with [message].  Then
    [_clean] raises [message], which is the sentence of the list about the
    failing element with its error: the elements after it, valid or not,
    are not looked at, and the list holds the cleaned [pre], then the
    failing element, then [post] as it was.  The failing element is shown
    and kept as [set] left it, [e'], which is [e] itself when [set] leaves
    [e] alone.  Configured STRICT, [clean()] raises that
    [ValidationException]; configured WARNING, it returns and records
    [message], the error of the first failing element, as ["warning"]. *)
Theorem C3_first_failing_element (b : base) (eo : field)
    (pre post cleaned : list pyval) (e : pyval) (message : string) :
  _clean (FList b eo (PList pre)) = (FList b eo (PList cleaned), Return tt) →
  (_clean (FList b eo (PList (pre ++ [e])%list))).2 = Raise (EValidation message) →
  ∃ e',
    (left_alone eo e = true → e' = e)
    ∧ let f := FList b eo (PList (pre ++ e :: post)%list) in
      let f' := FList b eo (PList (cleaned ++ e' :: post)%list) in
      _clean f = (f', Raise (EValidation message))
      ∧ ((∃ error, message = element_validation_message e' error)
         ∨ (∃ error, message = element_check_message e' error))
      ∧ (validation_level b = STRICT → clean f = (f', Raise (EValidation message)))
      ∧ (validation_level b = WARNING →
           clean f = (record_warning message f', Return tt)
           ∧ alist_get "warning" (attrs_of (clean f).1) = Some (PStr message)).
Proof.
  intros Hpre He. exists e. split; [ reflexivity | ]. intros f f'.
  cbn [_clean] in Hpre, He. unfold List__clean in Hpre, He.
  destruct (List__clean_loop clean eo [] pre) as [l1 r1] eqn:E1.
  injection Hpre as -> ->.
  destruct (List__clean_loop_prefix clean pre eo [] cleaned E1) as (eo' & Happ).
  rewrite Happ in He.
  destruct (List__clean_loop clean eo' cleaned [e]) as [l2 r2] eqn:E2.
  simpl in He. subst r2.
  destruct (List__clean_loop_head clean eo' cleaned e l2 message E2) as (Hpost & Hshape).
  assert (Hclean : _clean f = (f', Raise (EValidation message))).
  { unfold f, f'. cbn [_clean]. unfold List__clean. rewrite Happ, Hpost. reflexivity. }
  assert (Hval : value_of f = Return (PList (pre ++ e :: post)%list)) by reflexivity.
  assert (Hne : is_empty (PList (pre ++ e :: post)%list) = false) by (destruct pre; reflexivity).
  split; [ exact Hclean | ]. split; [ exact Hshape | ]. split.
  - intros Hl. rewrite clean_eq, Hval, Hclean. unfold Field_clean_with.
    rewrite Hne. simpl. rewrite Hl. reflexivity.
  - intros Hl.
    assert (Hc : clean f = (record_warning message f', Return tt)).
    { rewrite clean_eq, Hval, Hclean. unfold Field_clean_with.
      rewrite Hne. simpl. rewrite Hl. reflexivity. }
    split; [ exact Hc | ]. rewrite Hc. simpl. apply alist_get_set_eq.
Qed.

(** [List(Integer(), validation_level=WARNING)] holding
    [['1', 2, 'x', 'y']]: the warning is the error of ['x'] and the value
    becomes [[1, 2, 'x', 'y']]. *)
Lemma C3_first_failing_element_witness :
  clean (FList (with_validation_level WARNING default_base)
               (FScalar default_base VInt PNone)
               (PList [PStr "1"; PInt 2%Z; PStr "x"; PStr "y"]))
  = (record_warning
       (element_validation_message (PStr "x")
          ("Не удалось перобразовать значение поля типа <class 'str'> к "
           ++ "<class 'int'> (invalid literal for int() with base 10: 'x').")%string)
       (FList (with_validation_level WARNING default_base)
              (FScalar default_base VInt PNone)
              (PList [PInt 1%Z; PInt 2%Z; PStr "x"; PStr "y"])),
     Return tt).
Proof.
  destruct (C3_first_failing_element (with_validation_level WARNING default_base)
              (FScalar default_base VInt PNone)
              [PStr "1"; PInt 2%Z] [PStr "y"] [PInt 1%Z; PInt 2%Z] (PStr "x") _
              ltac:(vm_compute; reflexivity) ltac:(vm_compute; reflexivity))
    as (e' & He' & _ & _ & _ & HW).
  rewrite (He' eq_refl) in HW. exact (proj1 (HW eq_refl)).
Defined.

(** ** Instance attrs never hold ["value"] *)

Lemma attrs_of_map_base g f : attrs_of (map_base g f) = attrs (g (field_base f)).
Proof. unfold attrs_of. rewrite field_base_map_base. reflexivity. Qed.

Lemma field_base_store_value v f : field_base (store_value v f) = field_base f.
Proof. destruct f; reflexivity. Qed.

Lemma field_base_Field_set f v :
  field_base (Field_set f v) = (Field_set_split (field_base f) v).1.
Proof.
  unfold Field_set. destruct (Field_set_split (field_base f) v) as [b nv].
  rewrite field_base_store_value, field_base_map_base. reflexivity.
Qed.

Lemma field_base_set f v :
  field_base (set_ f v).1 = field_base f
  ∨ field_base (set_ f v).1 = (Field_set_split (field_base f) v).1
  ∨ ∃ v', field_base (set_ f v).1 = (Field_set_split (field_base f) v').1.
Proof.
  destruct f as [ b t w | b c w | b eo w | b i d ps | b n p w ];
    try (right; left; cbn [set_ fst]; apply field_base_Field_set).
  cbn [set_]. fold (setters_of ps). unfold Dict_set_with.
  destruct (truthy v && negb (is_dict v)); [ left; reflexivity | ].
  destruct (if truthy v && negb (if d then false else true)
            then Dict_drop_undefined b ps v else Return v) as [ v' | e ];
    [ | left; reflexivity ].
  right. right. exists v'. cbn [field_base].
  destruct (Field_set_split b v') as [b' nv].
  destruct (Dict_value_setter (setters_of ps) i d ps nv). reflexivity.
Qed.

Lemma field_base_Dict_set f v iu :
  field_base (Dict_set f v iu).1 = field_base f
  ∨ ∃ v', field_base (Dict_set f v iu).1 = (Field_set_split (field_base f) v').1.
Proof.
  destruct f as [ b t w | b c w | b eo w | b i d ps | b n p w ]; try (left; reflexivity).
  cbn [Dict_set]. unfold Dict_set_with.
  destruct (truthy v && negb (is_dict v)); [ left; reflexivity | ].
  destruct (if truthy v && negb (if d then iu else true)
            then Dict_drop_undefined b ps v else Return v) as [ v' | e ];
    [ | left; reflexivity ].
  right. exists v'. cbn [field_base].
  destruct (Field_set_split b v') as [b' nv].
  destruct (Dict_value_setter (setters_of ps) i d ps nv). reflexivity.
Qed.

Lemma no_value_key_set f v : no_value_key f → no_value_key (set_ f v).1.
Proof.
  unfold no_value_key, attrs_of. intros H.
  destruct (field_base_set f v) as [ -> | [ -> | (v' & ->) ] ];
    [ exact H | apply Field_set_split_attrs, H .. ].
Qed.

Lemma no_value_key_Dict_set f v iu : no_value_key f → no_value_key (Dict_set f v iu).1.
Proof.
  unfold no_value_key, attrs_of. intros H.
  destruct (field_base_Dict_set f v iu) as [ -> | (v' & ->) ];
    [ exact H | apply Field_set_split_attrs, H ].
Qed.

Lemma no_value_key_update f v : no_value_key f → no_value_key (update_ f v).1.
Proof.
  intros H. unfold update_.
  destruct f as [ b t w | b c w | b eo w | b i d ps | b n p w ];
    try (destruct v; try apply no_value_key_set, H;
         match goal with |- context [if ?c then _ else _] => destruct c end;
         apply no_value_key_set, H).
  cbn [Dict_update]. destruct (Dict_update_with _ _ _ _ _ _ _). exact H.
Qed.

Lemma no_value_key_Dict_update f v iu kw :
  no_value_key f → no_value_key (Dict_update f v iu kw).1.
Proof.
  intros H. destruct f as [ b t w | b c w | b eo w | b i d ps | b n p w ]; try exact H.
  cbn [Dict_update]. destruct (Dict_update_with _ _ _ _ _ _ _). exact H.
Qed.

Lemma alist_has_set {V} k k' (v : V) m :
  alist_has k (alist_set k' v m) = (String.eqb k' k || alist_has k m)%bool.
Proof.
  destruct (String.eqb k' k) eqn:E.
  - apply String.eqb_eq in E as ->. unfold alist_has. rewrite alist_get_set_eq. reflexivity.
  - rewrite alist_has_set_ne; [ reflexivity | ].
    intros ->. rewrite String.eqb_refl in E. discriminate.
Qed.

Lemma Field_set_attrs_no_value b a iu kw :
  alist_has "value" (attrs b) = false →
  alist_has "value" (attrs (Field_set_attrs b a iu kw).1) = false.
Proof.
  intros H. unfold Field_set_attrs.
  destruct (truthy a && negb (is_dict a)); [ exact H | ].
  set (a' := alist_pop "value" _).
  assert (Ha' : alist_get "value" a' = None) by apply alist_get_pop_eq.
  destruct iu; simpl.
  - unfold alist_has. rewrite Ha'. reflexivity.
  - generalize (alist_keys (attrs b) ++ alist_keys (default_attrs b))%list. intros names.
    enough (G : ∀ acc : dict, alist_has "value" acc = false →
              alist_has "value"
                (fold_left (λ result attr_name,
                              match alist_get attr_name a' with
                              | Some v => alist_set attr_name v result
                              | None => result
                              end) names acc) = false)
      by (apply G; reflexivity).
    induction names as [ | name names IH ]; intros acc Hacc; simpl; [ exact Hacc | ].
    apply IH. destruct (alist_get name a') as [ v | ] eqn:E; [ | exact Hacc ].
    rewrite alist_has_set, Hacc, orb_false_r.
    destruct (String.eqb name "value") eqn:En; [ | reflexivity ].
    apply String.eqb_eq in En as ->. rewrite Ha' in E. discriminate.
Qed.

Lemma no_value_key_set_attrs f a iu kw :
  no_value_key f → no_value_key (set_attrs f a iu kw).1.
Proof.
  unfold no_value_key, set_attrs. intros H.
  pose proof (Field_set_attrs_no_value (field_base f) a iu kw H) as G.
  destruct (Field_set_attrs (field_base f) a iu kw) as [b r]. simpl in *.
  rewrite attrs_of_map_base. exact G.
Qed.

Lemma no_value_key_update_attrs f a iu kw :
  no_value_key f → no_value_key (update_attrs f a iu kw).1.
Proof.
  unfold no_value_key, update_attrs, Field_update_attrs. intros H.
  destruct (if truthy a then a else PDict []) as [ | | | | | d ];
    try (simpl; rewrite attrs_of_map_base; exact H).
  pose proof (Field_set_attrs_no_value (field_base f)
                (PDict (alist_update (attrs (field_base f)) d)) iu kw H) as G.
  destruct (Field_set_attrs _ _ _ _) as [b r]. simpl in *.
  rewrite attrs_of_map_base. exact G.
Qed.

Lemma no_value_key_deserialize f data :
  no_value_key f → no_value_key (deserialize_auto_set f data).1.
Proof.
  intros H. unfold deserialize_auto_set.
  destruct (deserialize f data) as [ v | e ]; [ | exact H ].
  pose proof (no_value_key_set f v H) as G.
  destruct (set_ f v) as [f1 [ [] | e ]]; simpl in G; [ | exact G ].
  destruct f1 as [ | | | | b n p w ]; try exact G.
  destruct (update_mapping n w None) as [ [n' p'] | ]; exact G.
Qed.

Lemma field_base_assign_value f v : field_base (assign_value f v).1 = field_base f.
Proof.
  destruct f as [ | | | b i d ps | ]; try reflexivity.
  simpl. destruct (Dict_value_setter _ _ _ _ _). reflexivity.
Qed.

Lemma no_value_key_clean f : no_value_key f → no_value_key (clean f).1.
Proof.
  unfold no_value_key, attrs_of. intros H. rewrite clean_eq. unfold Field_clean_with.
  destruct (value_of f) as [ v | e ]; [ | exact H ].
  destruct (is_empty v).
  - destruct (required (field_base f)); [ exact H | ].
    rewrite field_base_assign_value. exact H.
  - pose proof (_clean_base f) as Hb.
    destruct (_clean f) as [f' r]. simpl in Hb.
    destruct r as [ [] | [ m | | | | | | ] ]; simpl; rewrite ?Hb; try exact H.
    destruct (validation_level (field_base f)); simpl; rewrite ?Hb; try exact H.
    rewrite field_base_map_base, Hb. simpl.
    rewrite alist_has_set. simpl. exact H.
Qed.

(** C8. Whatever the class of the field, and whatever [set], [update],
    [set_attrs], [update_attrs], [deserialize] with [auto_set] and [clean]
    calls are made on it, returning or raising, with whatever arguments:
    instance attrs that had no ["value"] key, as the empty attrs of a new
    field, have none afterwards. *)
Theorem C8_attrs_never_hold_value (f : field) (ops : list operation) :
  alist_has "value" (attrs_of f) = false →
  alist_has "value" (attrs_of (perform_all f ops)) = false.
Proof.
  revert f. induction ops as [ | o ops IH ]; intros f H; [ exact H | ].
  apply IH. destruct o; simpl.
  - apply no_value_key_set, H.
  - apply no_value_key_Dict_set, H.
  - apply no_value_key_update, H.
  - apply no_value_key_Dict_update, H.
  - apply no_value_key_set_attrs, H.
  - apply no_value_key_update_attrs, H.
  - apply no_value_key_deserialize, H.
  - apply no_value_key_clean, H.
Qed.

(** A new [Integer] on which [set({'value': '5', 'value2': 1})],
    [set_attrs({'value': 3, 'pretty_name': 'n'}, value=4)] and
    [update({'value': 7})] are called. *)
Lemma C8_attrs_never_hold_value_witness :
  alist_has "value"
    (attrs_of (perform_all (FScalar default_base VInt PNone)
                 [OpSet (PDict [("value", PStr "5"); ("value2", PInt 1%Z)]);
                  OpSetAttrs (PDict [("value", PInt 3%Z); ("pretty_name", PStr "n")])
                             false [("value", PInt 4%Z)];
                  OpUpdate (PDict [("value", PInt 7%Z)])]))
  = false.
Proof. apply C8_attrs_never_hold_value. reflexivity. Defined.

(** ** [List]: the level of the element template *)

Lemma validation_level_set f v :
  validation_level (field_base (set_ f v).1) = validation_level (field_base f).
Proof.
  destruct (field_base_set f v) as [ -> | [ -> | (v' & ->) ] ];
    [ reflexivity | apply Field_set_split_config .. ].
Qed.

Lemma perform_FList b eo v o : ∃ b' v', perform (FList b eo v) o = FList b' eo v'.
Proof.
  destruct o; cbn [perform].
  - cbn [set_ fst]. unfold Field_set.
    destruct (Field_set_split _ _). eexists; eexists; reflexivity.
  - eexists; eexists; reflexivity.
  - unfold update_. cbn [field_base set_].
    destruct value; try (unfold Field_set; cbn [fst];
      destruct (Field_set_split _ _); eexists; eexists; reflexivity).
    destruct (attrs_enabled b && alist_has "value" d);
      unfold Field_set; cbn [fst]; destruct (Field_set_split _ _);
      eexists; eexists; reflexivity.
  - eexists; eexists; reflexivity.
  - unfold set_attrs. destruct (Field_set_attrs _ _ _ _). eexists; eexists; reflexivity.
  - unfold update_attrs. destruct (Field_update_attrs _ _ _ _). eexists; eexists; reflexivity.
  - unfold deserialize_auto_set.
    destruct (deserialize _ _); [ | eexists; eexists; reflexivity ].
    cbn [set_]. unfold Field_set. destruct (Field_set_split _ _).
    eexists; eexists; reflexivity.
  - rewrite clean_eq. unfold Field_clean_with, value_of. cbn [is_dict_field stored_value].
    destruct (is_empty v).
    + cbn [field_base]. destruct (required b); eexists; eexists; reflexivity.
    + cbn [_clean]. unfold List__clean. destruct v;
        try (cbn; destruct (validation_level b); eexists; eexists; reflexivity).
      destruct (List__clean_loop clean eo [] l) as [l' [ [] | [ m | | | | | | ] ]];
        try (eexists; eexists; reflexivity).
      cbn. destruct (validation_level b); eexists; eexists; reflexivity.
Qed.

Lemma perform_all_FList ops : ∀ b eo v, ∃ b' v', perform_all (FList b eo v) ops = FList b' eo v'.
Proof.
  induction ops as [ | o ops IH ]; intros b eo v.
  - eexists; eexists; reflexivity.
  - unfold perform_all. cbn [fold_left].
    destruct (perform_FList b eo v o) as (b1 & v1 & ->). apply IH.
Qed.

(** C10. Whatever level [l] the element template was configured with,
    [List.__init__] stores it with the level [STRICT]: the list built from
    the template at [l] is the list built from the template as it is.
    The stored template stays the same through every later operation on the
    list.  So an element on which the validation of the template's class
    fails makes [List._clean] raise, with the sentence of the list about
    that element: a WARNING or DISABLED template does not swallow it.  In
    that sentence the element is shown as [set] left it, [e'], which is [e]
    itself when [set] leaves [e] alone; when the template is a composite,
    none of the lists it holds after [set(e)] has an element that [set]
    would edit in place. *)
Theorem C10_list_template_strict (eo : field) (b : base) (l : ValidationLevel) :
  List___init__ (at_level l eo) b = FList b (at_level STRICT eo) PNone
  ∧ validation_level (field_base (at_level STRICT eo)) = STRICT
  ∧ (∀ ops, ∃ b' v',
       perform_all (List___init__ (at_level l eo) b) ops = FList b' (at_level STRICT eo) v')
  ∧ (∀ b' e eo1 v f' message,
       set_ (at_level STRICT eo) e = (eo1, Return tt) →
       (is_dict_field eo1 = true → elements_left_alone eo1 = true) →
       value_of eo1 = Return v →
       is_empty v = false →
       _clean eo1 = (f', Raise (EValidation message)) →
       ∃ e',
         (left_alone (at_level STRICT eo) e = true → e' = e)
         ∧ (_clean (FList b' (at_level STRICT eo) (PList [e]))).2
           = Raise (EValidation (element_validation_message e' message))).
Proof.
  assert (Hinit : List___init__ (at_level l eo) b = FList b (at_level STRICT eo) PNone)
    by (destruct eo; reflexivity).
  split; [ exact Hinit | ]. split; [ destruct eo; reflexivity | ]. split.
  - intros ops. rewrite Hinit. apply perform_all_FList.
  - intros b' e eo1 v f' message Hset _ Hv He Hc.
    exists e. split; [ reflexivity | ].
    assert (Hl : validation_level (field_base eo1) = STRICT).
    { pose proof (validation_level_set (at_level STRICT eo) e) as H.
      rewrite Hset in H. simpl in H. rewrite H. destruct eo; reflexivity. }
    assert (Hclean : clean eo1 = (f', Raise (EValidation message))).
    { rewrite clean_eq, Hv, Hc. unfold Field_clean_with. rewrite He.
      pose proof (_clean_base eo1) as Hb. rewrite Hc in Hb. simpl in Hb.
      rewrite Hb, Hl. reflexivity. }
    cbn [_clean]. unfold List__clean. cbn [List__clean_loop].
    rewrite Hset, Hclean. cbn [bind snd].
    rewrite ValidationException_nonempty
      by (unfold element_validation_message; discriminate).
    reflexivity.
Qed.

(** [List(Integer(validation_level=WARNING))] holding [['x']]. *)
Lemma C10_list_template_strict_witness :
  (_clean (FList default_base
             (at_level STRICT (FScalar (with_validation_level WARNING default_base) VInt PNone))
             (PList [PStr "x"]))).2
  = Raise (EValidation
      (element_validation_message (PStr "x")
         ("Не удалось перобразовать значение поля типа <class 'str'> к "
          ++ "<class 'int'> (invalid literal for int() with base 10: 'x').")%string)).
Proof.
  destruct (C10_list_template_strict
              (FScalar (with_validation_level WARNING default_base) VInt PNone)
              default_base WARNING) as (_ & _ & _ & H).
  destruct (H default_base (PStr "x")
              (FScalar default_base VInt (PStr "x")) (PStr "x")
              (FScalar default_base VInt (PStr "x"))
              ("Не удалось перобразовать значение поля типа <class 'str'> к "
               ++ "<class 'int'> (invalid literal for int() with base 10: 'x').")%string
              eq_refl ltac:(discriminate) eq_refl eq_refl ltac:(vm_compute; reflexivity))
    as (e' & He' & Hc).
  rewrite (He' eq_refl) in Hc. exact Hc.
Defined.

(** ** [serialize] of a field without a value *)

(** A scalar field, or a [Choices], that holds an empty value serializes
    to [None] when its default is empty too, and to its default, wrapped
    with the attrs when they are enabled, when it is not. *)
Lemma serialize_empty_scalar f include_all_attrs :
  (∃ b t v, f = FScalar b t v ∧ is_empty v = true)
  ∨ (∃ b c v, f = FChoices b c v ∧ is_empty v = true) →
  serialize f include_all_attrs
  = if is_empty (default_value (field_base f)) then Return PNone
    else if attrs_enabled (field_base f) then
      Return (PDict (alist_update
                       (alist_update [("value", default_value (field_base f))]
                          (if include_all_attrs then default_attrs (field_base f) else []))
                       (attrs (field_base f))))
    else Return (default_value (field_base f)).
Proof.
  intros [ (b & t & v & -> & He) | (b & c & v & -> & He) ];
    unfold serialize; rewrite _serialize_unfold; cbn [_serialize_step field_base];
    unfold Field_serialize_with; cbn [bind]; rewrite He; cbn [andb];
    destruct (is_empty (default_value b)); reflexivity.
Qed.

(** C4 at the failing input.  A [List] that was never set holds [None];
    [List._serialize] turns what is not a list into its [str], so that
    [serialize()] wraps the text ['None'] instead of returning [None] (or
    the default): for [List(Integer())], [{'value': 'None'}]. *)
Theorem C4_unset_list_serializes_text (b : base) (eo : field) (include_all_attrs : bool) :
  serialize (List___init__ eo b) include_all_attrs
  = Field_serialize_with b (Return (PStr "None")) include_all_attrs
  ∧ serialize (List___init__ (FScalar default_base VInt PNone) default_base) false
    = Return (PDict [("value", PStr "None")]).
Proof.
  split.
  - unfold serialize. rewrite _serialize_unfold. reflexivity.
  - vm_compute. reflexivity.
Qed.

(** ** The caller's dict is edited in place *)

Lemma Store_fresh_lookup (σ : Store.store) : σ !! fresh (dom σ) = None.
Proof. apply not_elem_of_dom, is_fresh. Qed.

Lemma Store_Field_set_split_inv σ f v :
  Store.attrs_without_value (σ, f) →
  Store.attrs_without_value ((Store.Field_set_split σ f v).1.1,
                             (Store.Field_set_split σ f v).1.2).
Proof.
  intros H. unfold Store.Field_set_split.
  destruct (Store.as_dict σ v) as [ [l d] | ]; [ | exact H ].
  destruct (d !! "value"); [ | exact H ].
  destruct (Store.attrs_enabled f); [ | exact H ].
  exists (delete "value" d). simpl. split.
  - apply lookup_insert_eq.
  - apply lookup_delete_eq.
Qed.

Lemma Store_Field_set_inv σ f v :
  Store.attrs_without_value (σ, f) → Store.attrs_without_value (Store.Field_set σ f v).
Proof.
  intros H. pose proof (Store_Field_set_split_inv σ f v H) as G.
  unfold Store.Field_set. destruct (Store.Field_set_split σ f v) as [[σ' f'] nv].
  exact G.
Qed.

Lemma Store_alloc_inv (σ : Store.store) f d :
  Store.attrs_without_value (σ, f) →
  Store.attrs_without_value (<[fresh (dom σ) := d]> σ, f).
Proof.
  intros (a & Ha & Hv). exists a. split; [ | exact Hv ]. simpl in *.
  rewrite lookup_insert_ne; [ exact Ha | ].
  intros E. rewrite <- E, Store_fresh_lookup in Ha. discriminate.
Qed.

Lemma Store_Field_update_inv σ f v :
  Store.attrs_without_value (σ, f) → Store.attrs_without_value (Store.Field_update σ f v).
Proof.
  intros H. unfold Store.Field_update.
  destruct (Store.as_dict σ v) as [ [l d] | ]; [ | apply Store_Field_set_inv, H ].
  destruct (d !! "value"); [ | apply Store_Field_set_inv, H ].
  destruct (Store.attrs_enabled f); [ | apply Store_Field_set_inv, H ].
  apply Store_Field_set_inv, Store_alloc_inv, H.
Qed.

Lemma Store_Field_set_attrs_inv σ f a iu kw :
  Store.attrs_without_value (σ, f) →
  Store.attrs_without_value (Store.Field_set_attrs σ f a iu kw).1.
Proof.
  intros H. unfold Store.Field_set_attrs.
  destruct (Store.truthy σ a && negb (Store.is_dict σ a)); [ exact H | ].
  destruct (match (if Store.truthy σ a then Store.as_dict σ a else None) with
            | Some (l, d) => (l, d)
            | None => (fresh (dom σ), ∅)
            end) as [l d].
  destruct iu; simpl.
  - exists (delete "value" (kw ∪ d)). simpl. split.
    + apply lookup_insert_eq.
    + apply lookup_delete_eq.
  - eexists. simpl. split; [ apply lookup_insert_eq | ].
    apply map_lookup_filter_None. left. apply lookup_delete_eq.
Qed.

Lemma Store_Field_update_attrs_inv σ f a iu kw :
  Store.attrs_without_value (σ, f) →
  Store.attrs_without_value (Store.Field_update_attrs σ f a iu kw).1.
Proof.
  intros H. unfold Store.Field_update_attrs.
  destruct (if Store.truthy σ a then snd <$> Store.as_dict σ a else Some ∅);
    [ | exact H ].
  apply Store_Field_set_attrs_inv, Store_alloc_inv, H.
Qed.

(** With the dicts shared in whatever way between the arguments, the
    field and the calls ([set], [update], [set_attrs], [update_attrs] on a
    field that stores its value), the dict object that is the field's
    [_attrs] never has a ["value"] key. *)
Lemma Store_attrs_never_hold_value (s : Store.store * Store.field)
    (ops : list Store.operation) :
  Store.attrs_without_value s → Store.attrs_without_value (fold_left Store.perform ops s).
Proof.
  revert s. induction ops as [ | o ops IH ]; intros [σ f] H; [ exact H | ].
  apply IH. destruct o; simpl.
  - apply Store_Field_set_inv, H.
  - apply Store_Field_update_inv, H.
  - apply Store_Field_set_attrs_inv, H.
  - apply Store_Field_update_attrs_inv, H.
Qed.

Lemma Store_Field_set_split_pop σ f l d v :
  Store.attrs_enabled f = true → σ !! l = Some d → d !! "value" = Some v →
  Store.Field_set_split σ f (Store.VRef l)
  = (<[l := delete "value" d]> σ, Store.with_attrs l f, v).
Proof.
  intros He Hl Hv. unfold Store.Field_set_split, Store.as_dict.
  rewrite Hl. simpl. rewrite Hv, He. reflexivity.
Qed.

Lemma Store_Field_set_split_keep σ f l d :
  σ !! l = Some d → Store.attrs_enabled f = false ∨ d !! "value" = None →
  Store.Field_set_split σ f (Store.VRef l) = (σ, f, Store.VRef l).
Proof.
  intros Hl H. unfold Store.Field_set_split, Store.as_dict. rewrite Hl. simpl.
  destruct (d !! "value") eqn:E; [ | reflexivity ].
  destruct H as [ -> | H ]; [ reflexivity | discriminate ].
Qed.

Lemma Store_as_dict_ref (σ : Store.store) l (d : gmap string Store.val) :
  σ !! l = Some d → Store.as_dict σ (Store.VRef l) = Some (l, d).
Proof. intros Hl. unfold Store.as_dict. rewrite Hl. reflexivity. Qed.

Lemma Store_truthy_dict (σ : Store.store) l (d : gmap string Store.val) :
  σ !! l = Some d → d ≠ ∅ → Store.truthy σ (Store.VRef l) = true.
Proof.
  intros Hl Hd. simpl. rewrite Hl. rewrite bool_decide_eq_false_2 by exact Hd. reflexivity.
Qed.

Lemma Store_is_dict (σ : Store.store) l (d : gmap string Store.val) :
  σ !! l = Some d → Store.is_dict σ (Store.VRef l) = true.
Proof. intros Hl. unfold Store.is_dict, Store.as_dict. rewrite Hl. reflexivity. Qed.

(** C9, amended.  [σ] is the store, [l] the location of the caller's dict
    [d].
    - [Field.set], the [set] of every class but [Dict]: with attrs enabled
      and a ["value"] key in [d], the call removes that key from the object
      at [l], makes [l] the field's [_attrs], and stores the popped entry
      as the value.
    - [Dict.set] on a composite with declared properties, without
      [include_undefined], given a non-empty [d]: when attrs are disabled
      or [d] has no ["value"] key, the undeclared keys are removed from the
      object at [l] before the value setter is entered, with that very
      object; when attrs are enabled and [d['value']] is another dict
      object [l2], the undeclared keys are removed from the object at
      [l2], the ["value"] key is removed from the object at [l], and [l]
      becomes the composite's [_attrs].
    - [Dict.set] with [include_undefined=True], or on a composite built
      without properties, with attrs enabled and a ["value"] key in [d]:
      as [Field.set], and the value setter is entered with the popped
      entry. *)
Theorem C9_set_edits_in_place
    (value_setter : Store.store → Store.field → Store.val →
                    Store.store * Store.field * outcome unit)
    (σ : Store.store) (f : Store.field) (l : Store.loc)
    (d : gmap string Store.val) :
  σ !! l = Some d →
  (∀ v, Store.attrs_enabled f = true → d !! "value" = Some v →
     Store.Field_set σ f (Store.VRef l)
     = (<[l := delete "value" d]> σ, Store.with_value v (Store.with_attrs l f))
     ∧ (Store.declared f = None →
        Store.set_ value_setter σ f (Store.VRef l)
        = (<[l := delete "value" d]> σ, Store.with_value v (Store.with_attrs l f),
           Return tt)))
  ∧ (∀ names, Store.declared f = Some names → Store.is_properties_defined f = true →
     d ≠ ∅ →
     (Store.attrs_enabled f = false ∨ d !! "value" = None →
        Store.Dict_set value_setter σ f (Store.VRef l) false
        = value_setter (<[l := filter (λ kv, kv.1 ∈ names) d]> σ) f (Store.VRef l))
     ∧ (∀ l2 d2, Store.attrs_enabled f = true → d !! "value" = Some (Store.VRef l2) →
          l2 ≠ l → σ !! l2 = Some d2 →
          Store.Dict_set value_setter σ f (Store.VRef l) false
          = value_setter
              (<[l := delete "value" d]> (<[l2 := filter (λ kv, kv.1 ∈ names) d2]> σ))
              (Store.with_attrs l f) (Store.VRef l2)))
  ∧ (∀ v include_undefined,
     include_undefined = true ∨ Store.is_properties_defined f = false →
     Store.attrs_enabled f = true → d !! "value" = Some v →
     Store.Dict_set value_setter σ f (Store.VRef l) include_undefined
     = value_setter (<[l := delete "value" d]> σ) (Store.with_attrs l f) v).
Proof.
  intros Hl. split; [ | split ].
  - intros v Ha Hv. split.
    + unfold Store.Field_set.
      rewrite (Store_Field_set_split_pop σ f l d v Ha Hl Hv). reflexivity.
    + intros Hd. unfold Store.set_. rewrite Hd. unfold Store.Field_set.
      rewrite (Store_Field_set_split_pop σ f l d v Ha Hl Hv). reflexivity.
  - intros names Hnames Hdef Hne.
    assert (Hdrop : Store.Dict_set value_setter σ f (Store.VRef l) false
              = match Store.Dict_drop_undefined σ f names (Store.VRef l) with
                | Raise e => (σ, f, Raise e)
                | Return σ' =>
                    let '(σ', f', new_value) := Store.Field_set_split σ' f (Store.VRef l) in
                    value_setter σ' f' new_value
                end).
    { unfold Store.Dict_set. rewrite Hdef.
      rewrite (Store_truthy_dict σ l d Hl Hne), (Store_is_dict σ l d Hl).
      cbn [negb andb]. rewrite Hnames. reflexivity. }
    rewrite Hdrop. clear Hdrop.
    unfold Store.Dict_drop_undefined. rewrite (Store_as_dict_ref σ l d Hl).
    split.
    + intros Hcase.
      assert (E : (if Store.attrs_enabled f then d !! "value" else None) = None)
        by (destruct Hcase as [ -> | -> ];
            [ reflexivity | destruct (Store.attrs_enabled f); reflexivity ]).
      rewrite E.
      rewrite (Store_Field_set_split_keep _ f l (filter (λ kv, kv.1 ∈ names) d)).
      * reflexivity.
      * apply lookup_insert_eq.
      * destruct Hcase as [ Ha | Hv ]; [ left; exact Ha | right ].
        apply map_lookup_filter_None. left. exact Hv.
    + intros l2 d2 Ha Hv Hl2l Hl2. rewrite Ha, Hv.
      rewrite (Store_as_dict_ref σ l2 d2 Hl2).
      rewrite (Store_Field_set_split_pop _ f l d (Store.VRef l2) Ha).
      * reflexivity.
      * rewrite lookup_insert_ne by exact Hl2l. exact Hl.
      * exact Hv.
  - intros v iu Hiu Ha Hv. unfold Store.Dict_set.
    replace (if Store.is_properties_defined f then iu else true) with true
      by (destruct Hiu as [ -> | -> ];
          [ destruct (Store.is_properties_defined f) | ]; reflexivity).
    assert (Hd : d ≠ ∅) by (intros ->; rewrite lookup_empty in Hv; discriminate).
    rewrite (Store_truthy_dict σ l d Hl Hd), (Store_is_dict σ l d Hl). cbn [negb andb].
    rewrite (Store_Field_set_split_pop σ f l d v Ha Hl Hv). reflexivity.
Qed.

(** A store with the caller's dict [{'value': 5, 'pretty_name': 'n'}] at
    location 1 and the empty attrs of a new field at location 2. *)
Lemma C9_set_edits_in_place_witness :
  Store.Field_set
    {[ 1%positive := {[ "value" := Store.VInt 5; "pretty_name" := Store.VStr "n" ]};
       2%positive := ∅ ]}
    (Store.Field true Store.VNone 2%positive [] None true) (Store.VRef 1%positive)
  = (<[ 1%positive := delete "value"
          {[ "value" := Store.VInt 5; "pretty_name" := Store.VStr "n" ]} ]>
       {[ 1%positive := {[ "value" := Store.VInt 5; "pretty_name" := Store.VStr "n" ]};
          2%positive := ∅ ]},
     Store.with_value (Store.VInt 5)
       (Store.with_attrs 1%positive (Store.Field true Store.VNone 2%positive [] None true))).
Proof.
  apply (C9_set_edits_in_place (λ σ f v, (σ, f, Return tt))).
  - apply lookup_insert_eq.
  - reflexivity.
  - apply lookup_insert_eq.
Defined.

(** C9, as stated of every field with attrs enabled, fails on a composite
    that declares the property [x], given the dict [{'value': 5}] at
    location 1: [Dict.set] takes [value['value']], the int 5, for the dict
    to filter and raises [AttributeError] at [new_value.keys()], before
    anything is popped; the caller's dict keeps its ["value"] key and the
    composite keeps its own attrs, at location 2. *)
Lemma C9_counterexample :
  ¬ Store.set_edits_in_place (λ σ f v, (σ, f, Return tt))
      {[ 1%positive := {[ "value" := Store.VInt 5 ]}; 2%positive := ∅ ]}
      (Store.Field true Store.VNone 2%positive [] (Some ["x"]) true) 1%positive.
Proof.
  intros H.
  specialize (H {[ "value" := Store.VInt 5 ]} eq_refl (ex_intro _ (Store.VInt 5) eq_refl) eq_refl).
  vm_compute in H. destruct H as [_ H]. discriminate H.
Qed.

(** * Part 5: further properties of the code *)

(** ** [ConvertedDict]: conversion *)

Lemma convertible_entries d :
  convertible (PDict d) →
  d ≠ [] ∧ NoDup (map fst d) ∧ Forall (λ kv, convertible kv.2) d.
Proof.
  intros (Hne & Hnd & H). split; [ exact Hne | split; [ exact Hnd | ] ].
  clear Hne Hnd. induction d as [ | kv d IH ]; [ constructor | ].
  destruct H as [H1 H2]. constructor; [ exact H1 | exact (IH H2) ].
Qed.

Lemma convert_dict_nonempty d : d ≠ [] → convert_dict (PDict d) ≠ [].
Proof. destruct d; [ congruence | discriminate ]. Qed.

(** The loop of [__deconvert_dict] over the records that [__convert_dict]
    made of the entries [d], when each nested dict deconverts to itself. *)
Lemma deconvert_pairs_converted (d : dict) : ∀ result,
  NoDup (map fst (result ++ d)%list) →
  Forall (λ kv, ∀ inner, kv.2 = PDict inner →
            deconvert_dict (PList (convert_dict kv.2)) = Return kv.2) d →
  deconvert_pairs
    (map (λ record,
            (record,
             match record with
             | PDict r => map (λ kv, (kv.1, deconvert_dict kv.2)) r
             | _ => []
             end)) (convert_dict (PDict d))) result
  = Return (PDict (result ++ d)%list).
Proof.
  induction d as [ | [k v] d IH ]; intros result Hnd Hall.
  - simpl. rewrite app_nil_r. reflexivity.
  - apply Forall_cons in Hall as [Hv Hall].
    assert (Hk : k ∉ map fst result).
    { rewrite map_app in Hnd. simpl in Hnd.
      apply NoDup_app in Hnd as (_ & Hdis & _).
      intros Hin. apply (Hdis k Hin). left. }
    assert (Hnext : deconvert_pairs
              (map (λ record,
                      (record,
                       match record with
                       | PDict r => map (λ kv, (kv.1, deconvert_dict kv.2)) r
                       | _ => []
                       end)) (convert_dict (PDict d))) (alist_set k v result)
            = Return (PDict (result ++ (k, v) :: d)%list)).
    { rewrite alist_set_absent by exact Hk.
      rewrite IH; [ rewrite <- app_assoc; reflexivity | | exact Hall ].
      rewrite <- app_assoc. exact Hnd. }
    change (convert_dict (PDict ((k, v) :: d)))
      with ((match v with
             | PDict _ => PDict [("key", PStr k); ("inner_dict", PList (convert_dict v))]
             | _ => PDict [("key", PStr k); ("value", v)]
             end) :: convert_dict (PDict d)).
    destruct v as [ | b | z | s | l | inner ];
      try (cbn [map deconvert_pairs py_contains alist_has alist_get String.eqb
                Ascii.eqb Bool.eqb bind andb orb negb py_getitem fst snd];
           exact Hnext).
    cbn [map deconvert_pairs py_contains alist_has alist_get String.eqb
         Ascii.eqb Bool.eqb bind andb orb negb py_getitem fst snd default].
    specialize (Hv inner eq_refl). cbn [snd] in Hv. rewrite Hv. cbn [bind]. exact Hnext.
Qed.

(** The converted form of a dict whose nested dicts are non-empty
    deconverts to the dict. *)
Lemma deconvert_convert_dict (v : pyval) :
  is_dict v = true → convertible v →
  deconvert_dict (PList (convert_dict v)) = Return v.
Proof.
  induction v as [ | | | | | d IH ] using pyval_nested_ind; try discriminate.
  intros _ Hc. apply convertible_entries in Hc as (Hne & Hnd & Hall).
  pose proof (convert_dict_nonempty d Hne) as Hconv.
  pose proof (deconvert_pairs_converted d [] Hnd) as Hloop.
  destruct (convert_dict (PDict d)) as [ | record pairs ] eqn:E; [ congruence | ].
  cbn [deconvert_dict]. apply Hloop.
  apply Forall_forall. intros kv Hin inner Hkv.
  apply (proj1 (Forall_forall _ _) IH kv Hin).
  - rewrite Hkv. reflexivity.
  - apply (proj1 (Forall_forall _ _) Hall kv Hin).
Qed.

(** X1. [__deconvert_dict] undoes [__convert_dict] on a dict whose nested
    dicts, itself included, are non-empty: the converted list deconverts
    to the very dict.  An empty nested dict is not restored: it is
    converted to the empty list, which deconverts to itself. *)
Theorem X1_deconvert_convert (v : pyval) :
  (is_dict v = true → convertible v →
   deconvert_dict (PList (convert_dict v)) = Return v)
  ∧ (∀ k, deconvert_dict (PList (convert_dict (PDict [(k, PDict [])])))
          = Return (PDict [(k, PList [])])).
Proof.
  split.
  - intros Hdict Hc. destruct v as [ | | | | | d ]; try discriminate Hdict.
    apply (deconvert_convert_dict (PDict d) Hdict Hc).
  - intros k. reflexivity.
Qed.

Lemma X1_deconvert_convert_witness :
  deconvert_dict
    (PList (convert_dict (PDict [("a", PInt 1%Z); ("b", PDict [("c", PStr "x")])])))
  = Return (PDict [("a", PInt 1%Z); ("b", PDict [("c", PStr "x")])]).
Proof.
  apply (proj1 (X1_deconvert_convert _)); [ reflexivity | ].
  simpl. repeat split; try discriminate;
    repeat (apply NoDup_cons_2; [ | ]); try apply NoDup_nil_2;
    rewrite ?elem_of_cons, ?elem_of_nil; intuition discriminate.
Defined.
(** ** Lookup in association lists *)

Lemma alist_get_update {V} k (m2 : list (string * V)) : ∀ m,
  NoDup (map fst m2) →
  alist_get k (alist_update m m2)
  = match alist_get k m2 with Some v => Some v | None => alist_get k m end.
Proof.
  unfold alist_update.
  induction m2 as [ | [k' v'] m2 IH ]; intros m Hnd; [ reflexivity | ].
  simpl in Hnd. apply NoDup_cons in Hnd as [Hk' Hnd].
  cbn [fold_left fst snd alist_get]. rewrite (IH _ Hnd).
  destruct (String.eqb k' k) eqn:E.
  - apply String.eqb_eq in E. subst k'.
    rewrite (alist_get_absent k m2 Hk'). apply alist_get_set_eq.
  - assert (k ≠ k') by (intros ->; rewrite String.eqb_refl in E; discriminate).
    rewrite alist_get_set_ne by assumption. reflexivity.
Qed.

Lemma alist_get_pop_ne {V} k k' (m : list (string * V)) :
  k ≠ k' → alist_get k (alist_pop k' m) = alist_get k m.
Proof.
  intros Hne. induction m as [ | [k0 v0] m IH ]; [ reflexivity | ].
  cbn [alist_pop]. destruct (String.eqb k0 k') eqn:E.
  - apply String.eqb_eq in E. subst k0. cbn [alist_get].
    destruct (String.eqb k' k) eqn:E'; [ | exact IH ].
    apply String.eqb_eq in E'. congruence.
  - cbn [alist_get]. rewrite IH. reflexivity.
Qed.

Lemma alist_pop_absent {V} k (m : list (string * V)) :
  alist_has k m = false → alist_pop k m = m.
Proof.
  unfold alist_has. induction m as [ | [k0 v0] m IH ]; [ reflexivity | ].
  cbn [alist_get alist_pop]. destruct (String.eqb k0 k); [ discriminate | ].
  intros H. rewrite (IH H). reflexivity.
Qed.

Lemma alist_has_get {V} k (m : list (string * V)) :
  alist_has k m = true ↔ ∃ v, alist_get k m = Some v.
Proof.
  unfold alist_has. destruct (alist_get k m) as [ v | ].
  - split; [ intros _; exists v; reflexivity | reflexivity ].
  - split; [ discriminate | intros [v Hv]; discriminate ].
Qed.

(** ** [ConvertedDict]: the serialized form *)

Lemma determine_depth_fits n v : determine_depth v ≤ n → update_mapping n v None = None.
Proof.
  intros H. unfold update_mapping.
  destruct (determine_depth v <=? n) eqn:E; [ reflexivity | ].
  apply Nat.leb_gt in E. lia.
Qed.

Lemma serialize_nonempty f v :
  _serialize f = Return v → is_empty v = false →
  serialize f false
  = Return (if attrs_enabled (field_base f)
            then PDict (alist_update [("value", v)] (attrs (field_base f)))
            else v).
Proof.
  intros Hs He. unfold serialize, Field_serialize_with. rewrite Hs. cbn [bind].
  rewrite He. cbn [andb]. rewrite alist_update_nil.
  destruct (attrs_enabled (field_base f)); reflexivity.
Qed.

Lemma set_converted_dict b n p v0 x :
  set_ (FConvertedDict b n p v0) x
  = (FConvertedDict (Field_set_split b x).1 n p (Field_set_split b x).2, Return tt).
Proof.
  cbn [set_]. unfold Field_set. cbn [field_base].
  destruct (Field_set_split b x) as [b' v']. reflexivity.
Qed.

Lemma Field_set_split_value b c (a : dict) :
  attrs_enabled b = true →
  Field_set_split b (PDict (("value", c) :: a)) = (with_attrs (alist_pop "value" a) b, c).
Proof. intros Ha. unfold Field_set_split. rewrite Ha. reflexivity. Qed.

Lemma with_attrs_same b : with_attrs (attrs b) b = b.
Proof. destruct b; reflexivity. Qed.

(** X2. A [ConvertedDict] that holds a dict [d] whose nested dicts are
    non-empty serializes to a form that deserializes to [d].  Set to that
    form and cleaned, a [ConvertedDict] with the same configuration and a
    schema deep enough for [d] holds [d] again, with the same instance
    attrs. *)
Theorem X2_converted_dict_round_trip (b : base) (n : nat) (p : field) (d : dict)
    (v0 : pyval) :
  convertible (PDict d) →
  alist_has "value" (attrs b) = false →
  NoDup (map fst (attrs b)) →
  ∃ s, serialize (FConvertedDict b n p (PDict d)) false = Return s
       ∧ deserialize (FConvertedDict b n p (PDict d)) s = Return (PDict d)
       ∧ (determine_depth (PDict d) ≤ n →
          clean (set_ (FConvertedDict b n p v0) s).1
          = (FConvertedDict b n p (PDict d), Return tt)).
Proof.
  intros Hc Hv Hnd.
  pose proof (deconvert_convert_dict (PDict d) eq_refl Hc) as Hround.
  pose proof (convertible_entries d Hc) as (Hne & _ & _).
  pose proof (convert_dict_nonempty d Hne) as Hconv.
  assert (Hnonempty : is_empty (PList (convert_dict (PDict d))) = false)
    by (destruct (convert_dict (PDict d)); [ congruence | reflexivity ]).
  assert (Hser : _serialize (FConvertedDict b n p (PDict d))
                 = Return (PList (convert_dict (PDict d))))
    by (rewrite _serialize_unfold; reflexivity).
  rewrite (serialize_nonempty _ _ Hser Hnonempty). cbn [field_base].
  destruct (attrs_enabled b) eqn:Ha.
  - rewrite (alist_update_distinct (attrs b) [("value", PList (convert_dict (PDict d)))]).
    2:{ cbn [app map fst]. apply NoDup_cons_2; [ | exact Hnd ].
        apply alist_has_absent. exact Hv. }
    cbn [app]. eexists. split; [ reflexivity | split ].
    + cbn [deserialize field_base data_to_deserialize]. rewrite Ha.
      cbn [alist_get String.eqb Ascii.eqb Bool.eqb default]. exact Hround.
    + intros Hdepth. rewrite set_converted_dict, (Field_set_split_value b _ _ Ha).
      cbn [fst snd]. rewrite (alist_pop_absent "value" (attrs b) Hv), with_attrs_same.
      rewrite ConvertedDict_clean_eq. unfold Field_clean_with. rewrite Hnonempty.
      unfold ConvertedDict__clean, Field__clean_value. cbn [is_dict].
      rewrite Hround. cbn [is_dict negb].
      rewrite (determine_depth_fits n (PDict d) Hdepth). reflexivity.
  - eexists. split; [ reflexivity | split ].
    + cbn [deserialize field_base data_to_deserialize]. exact Hround.
    + intros Hdepth. rewrite set_converted_dict. cbn [Field_set_split fst snd].
      rewrite ConvertedDict_clean_eq. unfold Field_clean_with. rewrite Hnonempty.
      unfold ConvertedDict__clean, Field__clean_value. cbn [is_dict].
      rewrite Hround. cbn [is_dict negb].
      rewrite (determine_depth_fits n (PDict d) Hdepth). reflexivity.
Qed.

Lemma X2_converted_dict_round_trip_witness :
  ∃ s, serialize (FConvertedDict default_base 2 (Text false)
                    (PDict [("a", PDict [("b", PInt 1%Z)])])) false = Return s
       ∧ deserialize (FConvertedDict default_base 2 (Text false)
                        (PDict [("a", PDict [("b", PInt 1%Z)])])) s
         = Return (PDict [("a", PDict [("b", PInt 1%Z)])])
       ∧ clean (set_ (FConvertedDict default_base 2 (Text false) PNone) s).1
         = (FConvertedDict default_base 2 (Text false)
              (PDict [("a", PDict [("b", PInt 1%Z)])]), Return tt).
Proof.
  assert (Hc : convertible (PDict [("a", PDict [("b", PInt 1%Z)])])).
  { simpl. repeat split; try discriminate; distinct_keys. }
  destruct (X2_converted_dict_round_trip default_base 2 (Text false) _ PNone
              Hc eq_refl (NoDup_nil_2 (A := string)))
    as (s & Hs & Hd & Hclean).
  exists s. split; [ exact Hs | split; [ exact Hd | ] ].
  apply Hclean. simpl. lia.
Defined.

(** ** A [List] of [ConvertedDict] *)

(** X3. A [List] whose template is a [ConvertedDict] of depth [n] cannot
    be cleaned once its first element is a dict deeper than [n]:
    [clean()] raises [InitializationRequired] and leaves the list, its
    template included, as it was, so that every later [clean()] raises
    again.  (The schema is updated on the copy of the template that
    [List._clean] works on.) *)
Theorem X3_list_of_converted_dict (b eb : base) (n : nat) (p : field)
    (v0 : pyval) (d : dict) (rest : list pyval) :
  n < determine_depth (PDict d) →
  attrs_enabled eb = false ∨ alist_has "value" d = false →
  clean (FList b (FConvertedDict eb n p v0) (PList (PDict d :: rest)))
  = (FList b (FConvertedDict eb n p v0) (PList (PDict d :: rest)),
     Raise InitializationRequired).
Proof.
  intros Hdepth Hvalue.
  assert (Hne : is_empty (PDict d) = false)
    by (destruct d; [ simpl in Hdepth; lia | reflexivity ]).
  assert (Hsplit : Field_set_split eb (PDict d) = (eb, PDict d)).
  { unfold Field_set_split.
    destruct Hvalue as [ -> | -> ]; [ reflexivity | rewrite andb_false_r; reflexivity ]. }
  assert (Hup : ∃ n' p', update_mapping n (PDict d) None = Some (n', p')).
  { unfold update_mapping. destruct (determine_depth (PDict d) <=? n) eqn:E.
    - apply Nat.leb_le in E. lia.
    - eexists _, _. reflexivity. }
  destruct Hup as (n' & p' & Hup).
  rewrite clean_unfold. cbn [clean_step]. unfold Field_clean_with at 1.
  cbn [is_empty List__clean_loop].
  rewrite set_converted_dict, Hsplit. cbn [fst snd].
  rewrite ConvertedDict_clean_eq. unfold Field_clean_with at 1. rewrite Hne.
  unfold ConvertedDict__clean, Field__clean_value. cbn [is_dict negb].
  rewrite Hup. reflexivity.
Qed.

Lemma X3_list_of_converted_dict_witness :
  clean (FList default_base
           (FConvertedDict default_base 1 (Text false) PNone)
           (PList [PDict [("a", PDict [("b", PInt 1%Z)])]]))
  = (FList default_base
       (FConvertedDict default_base 1 (Text false) PNone)
       (PList [PDict [("a", PDict [("b", PInt 1%Z)])]]),
     Raise InitializationRequired).
Proof.
  apply X3_list_of_converted_dict; [ simpl; lia | right; reflexivity ].
Defined.

(** ** Instance attrs *)

Lemma alist_get_select (a : dict) k (names : list string) : ∀ result,
  alist_get k
    (fold_left (λ result attr_name,
                  match alist_get attr_name a with
                  | Some v => alist_set attr_name v result
                  | None => result
                  end) names result)
  = if bool_decide (k ∈ names)
    then match alist_get k a with Some v => Some v | None => alist_get k result end
    else alist_get k result.
Proof.
  induction names as [ | name names IH ]; intros result; [ reflexivity | ].
  cbn [fold_left]. rewrite IH.
  destruct (decide (name = k)) as [ -> | Hne ].
  - rewrite (bool_decide_eq_true_2 (k ∈ k :: names)) by left.
    destruct (alist_get k a) as [ v | ] eqn:E.
    + rewrite alist_get_set_eq. destruct (bool_decide (k ∈ names)); reflexivity.
    + destruct (bool_decide (k ∈ names)); reflexivity.
  - assert (Hiff : bool_decide (k ∈ name :: names) = bool_decide (k ∈ names)).
    { apply bool_decide_ext. rewrite elem_of_cons. split; [ | auto ].
      intros [ -> | H ]; [ contradiction | exact H ]. }
    rewrite Hiff.
    destruct (alist_get name a) as [ v | ]; [ | reflexivity ].
    rewrite alist_get_set_ne by congruence. reflexivity.
Qed.

Lemma alist_has_elem_of {V} k (m : list (string * V)) :
  alist_has k m = bool_decide (k ∈ map fst m).
Proof.
  destruct (alist_has k m) eqn:E.
  - symmetry. apply bool_decide_eq_true_2.
    destruct (decide (k ∈ map fst m)) as [ H | H ]; [ exact H | ].
    apply alist_has_absent in H. congruence.
  - symmetry. apply bool_decide_eq_false_2. apply alist_has_absent. exact E.
Qed.

(** X4. [set_attrs(attrs, **kwargs)] without [include_undefined] keeps,
    of the attributes it is given, exactly those whose name is an
    instance attr or a default attr of the field, ["value"] apart: an
    attribute that is not given is dropped, and no new name comes in.
    With [include_undefined=True] it keeps all of them but ["value"]. *)
Theorem X4_set_attrs_selects (b : base) (a kwargs : dict) (include_undefined : bool)
    (k : string) :
  ∃ b', Field_set_attrs b (PDict a) include_undefined kwargs = (b', Return tt)
    ∧ alist_get k (attrs b')
      = if String.eqb k "value" then None
        else if include_undefined || alist_has k (attrs b) || alist_has k (default_attrs b)
        then alist_get k (alist_update a kwargs)
        else None.
Proof.
  unfold Field_set_attrs. cbn [is_dict negb]. rewrite andb_false_r.
  destruct (String.eqb k "value") eqn:Ek.
  - apply String.eqb_eq in Ek. subst k.
    destruct include_undefined; eexists; (split; [ reflexivity | ]); cbn [attrs with_attrs].
    + apply alist_get_pop_eq.
    + rewrite alist_get_select, alist_get_pop_eq.
      destruct (bool_decide _); reflexivity.
  - assert (Hne : k ≠ "value")
      by (intros ->; discriminate).
    destruct include_undefined; eexists; (split; [ reflexivity | ]); cbn [attrs with_attrs orb].
    + apply alist_get_pop_ne. exact Hne.
    + rewrite alist_get_select. cbn [alist_get].
      rewrite alist_get_pop_ne by exact Hne.
      unfold alist_keys. rewrite !alist_has_elem_of.
      assert (Hor : bool_decide (k ∈ (map fst (attrs b) ++ map fst (default_attrs b))%list)
                    = bool_decide (k ∈ map fst (attrs b))
                      || bool_decide (k ∈ map fst (default_attrs b))).
      { destruct (decide (k ∈ map fst (attrs b))) as [ H | H ].
        - rewrite (bool_decide_eq_true_2 _ H).
          apply bool_decide_eq_true_2, elem_of_app. left. exact H.
        - rewrite (bool_decide_eq_false_2 _ H). cbn [orb].
          apply bool_decide_ext. rewrite elem_of_app. tauto. }
      rewrite Hor.
      destruct (bool_decide (k ∈ map fst (attrs b)) || bool_decide (k ∈ map fst (default_attrs b)));
        [ | reflexivity ].
      destruct (alist_get k (alist_update a kwargs)); reflexivity.
Qed.

Lemma set_stored f x :
  is_dict_field f = false →
  set_ f x = (store_value (Field_set_split (field_base f) x).2
                (map_base (λ _, (Field_set_split (field_base f) x).1) f), Return tt).
Proof.
  intros Hf. destruct f; try discriminate; cbn [set_]; unfold Field_set;
    cbn [field_base]; destruct (Field_set_split b x); reflexivity.
Qed.

Lemma stored_value_store v f :
  is_dict_field f = false → stored_value (store_value v f) = v.
Proof. destruct f; try discriminate; reflexivity. Qed.

Lemma attrs_of_store_value v f : attrs_of (store_value v f) = attrs_of f.
Proof. destruct f; reflexivity. Qed.

Lemma is_dict_field_map_base g f : is_dict_field (map_base g f) = is_dict_field f.
Proof. destruct f; reflexivity. Qed.

Lemma is_dict_field_store_value v f : is_dict_field (store_value v f) = is_dict_field f.
Proof. destruct f; reflexivity. Qed.

Lemma stored_value_map_base g f : stored_value (map_base g f) = stored_value f.
Proof. destruct f; reflexivity. Qed.

(** X5. On a field with attrs enabled that stores its value, given a
    dict [d] with a ["value"] key: [set(d)] replaces the instance attrs
    by the other entries of [d], while [update(d)] keeps the instance
    attrs that [d] does not name and overrides the ones it names.  Both
    store [d['value']]. *)
Theorem X5_set_replaces_update_merges (f : field) (d : dict) (k : string) :
  is_dict_field f = false →
  attrs_enabled (field_base f) = true →
  alist_has "value" d = true →
  NoDup (map fst d) →
  k ≠ "value" →
  (set_ f (PDict d)).2 = Return tt
  ∧ stored_value (set_ f (PDict d)).1 = default PNone (alist_get "value" d)
  ∧ alist_get k (attrs_of (set_ f (PDict d)).1) = alist_get k d
  ∧ (update_ f (PDict d)).2 = Return tt
  ∧ stored_value (update_ f (PDict d)).1 = default PNone (alist_get "value" d)
  ∧ alist_get k (attrs_of (update_ f (PDict d)).1)
    = match alist_get k d with
      | Some x => Some x
      | None => alist_get k (attrs_of f)
      end.
Proof.
  intros Hf Ha Hv Hnd Hk.
  assert (Hsplit : ∀ d', alist_has "value" d' = true →
            Field_set_split (field_base f) (PDict d')
            = (with_attrs (alist_pop "value" d') (field_base f),
               default PNone (alist_get "value" d'))).
  { intros d' Hd'. unfold Field_set_split. rewrite Ha, Hd'. reflexivity. }
  assert (Hupd : update_ f (PDict d) = set_ f (PDict (alist_update (attrs (field_base f)) d))).
  { destruct f; try discriminate; cbn [update_ field_base] in *; rewrite Ha, Hv; reflexivity. }
  assert (Hv' : alist_has "value" (alist_update (attrs (field_base f)) d) = true).
  { unfold alist_has. rewrite (alist_get_update _ _ _ Hnd).
    apply alist_has_get in Hv as [x Hx]. rewrite Hx. reflexivity. }
  rewrite Hupd, !(set_stored f _ Hf), (Hsplit d Hv), (Hsplit _ Hv'). cbn [fst snd].
  rewrite !stored_value_store by (rewrite is_dict_field_map_base; exact Hf).
  rewrite !attrs_of_store_value, !attrs_of_map_base. cbn [attrs with_attrs].
  rewrite !alist_get_pop_ne by exact Hk.
  rewrite !(alist_get_update _ _ _ Hnd).
  apply alist_has_get in Hv as [x Hx]. rewrite Hx.
  repeat split; reflexivity.
Qed.

Lemma X5_set_replaces_update_merges_witness :
  alist_get "pretty_name"
    (attrs_of (set_ (FScalar (with_attrs [("pretty_name", PStr "n")] default_base) VStr PNone)
                    (PDict [("value", PStr "x"); ("unit", PStr "m")])).1) = None
  ∧ alist_get "pretty_name"
      (attrs_of (update_ (FScalar (with_attrs [("pretty_name", PStr "n")] default_base)
                                  VStr PNone)
                         (PDict [("value", PStr "x"); ("unit", PStr "m")])).1)
    = Some (PStr "n").
Proof.
  assert (Hnd : NoDup (map fst [("value", PStr "x"); ("unit", PStr "m")]))
    by (simpl; distinct_keys).
  destruct (X5_set_replaces_update_merges
              (FScalar (with_attrs [("pretty_name", PStr "n")] default_base) VStr PNone)
              [("value", PStr "x"); ("unit", PStr "m")] "pretty_name"
              eq_refl eq_refl eq_refl Hnd ltac:(discriminate))
    as (_ & _ & Hset & _ & _ & Hupdate).
  split; [ exact Hset | exact Hupdate ].
Defined.

(** ** Item access *)

Lemma select_single (key : string) (v : pyval) (names : list string) : ∀ result,
  result = [] ∨ result = [(key, v)] →
  fold_left (λ result attr_name,
               match alist_get attr_name [(key, v)] with
               | Some x => alist_set attr_name x result
               | None => result
               end) names result
  = if bool_decide (key ∈ names) then [(key, v)] else result.
Proof.
  induction names as [ | name names IH ]; intros result Hr; [ reflexivity | ].
  cbn [fold_left alist_get].
  destruct (String.eqb key name) eqn:E.
  - apply String.eqb_eq in E. subst name.
    rewrite (bool_decide_eq_true_2 (key ∈ key :: names)) by left.
    assert (Hset : alist_set key v result = [(key, v)])
      by (destruct Hr as [ -> | -> ]; cbn [alist_set]; rewrite ?String.eqb_refl; reflexivity).
    rewrite Hset, IH by (right; reflexivity).
    destruct (bool_decide (key ∈ names)); reflexivity.
  - assert (Hne : key ≠ name) by (intros ->; rewrite String.eqb_refl in E; discriminate).
    assert (Hiff : bool_decide (key ∈ name :: names) = bool_decide (key ∈ names)).
    { apply bool_decide_ext. rewrite elem_of_cons. tauto. }
    rewrite Hiff. apply IH, Hr.
Qed.

(** X6. Item assignment on a field that stores its value, for a name
    other than ["value"].  When the name is an instance attr or a default
    attr, [f[key] = v] leaves [key] as the only instance attr of the
    field, whatever the others were, keeps the value, and [f[key]] then
    gives [v].  When it is neither, [f[key] = v] and [f[key]] raise
    [KeyError] and the field is unchanged. *)
Theorem X6_item_assignment (cls : string) (f : field) (key : string) (v : pyval) :
  is_dict_field f = false →
  key ≠ "value" →
  (alist_has key (attrs_of f) || alist_has key (default_attrs (field_base f)) = true →
   ∃ f', Field___setitem__ cls f key v = (f', Return tt)
         ∧ attrs_of f' = [(key, v)]
         ∧ stored_value f' = stored_value f
         ∧ Field___getitem__ cls f' key = Return v)
  ∧ (alist_has key (attrs_of f) || alist_has key (default_attrs (field_base f)) = false →
     ∃ message,
       Field___setitem__ cls f key v = (f, Raise (EKeyError message))
       ∧ Field___getitem__ cls f key = Raise (EKeyError message)).
Proof.
  intros Hf Hkey.
  assert (Ek : String.eqb key "value" = false)
    by (destruct (String.eqb key "value") eqn:E;
        [ apply String.eqb_eq in E; contradiction | reflexivity ]).
  split; intros Hknown.
  - unfold Field___setitem__. rewrite Ek. unfold attrs_of in Hknown. rewrite Hknown.
    unfold set_attrs, Field_set_attrs. cbn [truthy is_dict negb andb].
    rewrite alist_update_nil. cbn [alist_pop]. rewrite Ek.
    rewrite select_single by (left; reflexivity).
    assert (Hin : bool_decide (key ∈ (alist_keys (attrs (field_base f))
                                       ++ alist_keys (default_attrs (field_base f)))%list)
                  = true).
    { apply bool_decide_eq_true_2, elem_of_app. unfold alist_keys.
      apply orb_true_iff in Hknown as [ H | H ]; [ left | right ];
        rewrite alist_has_elem_of in H; apply bool_decide_eq_true_1 in H; exact H. }
    rewrite Hin. eexists. split; [ reflexivity | ].
    rewrite attrs_of_map_base, stored_value_map_base. cbn [attrs with_attrs].
    split; [ reflexivity | split; [ reflexivity | ] ].
    unfold Field___getitem__. rewrite Ek, field_base_map_base. cbn [attrs with_attrs alist_get].
    rewrite String.eqb_refl. reflexivity.
  - apply orb_false_iff in Hknown as [H1 H2]. unfold attrs_of in H1.
    unfold Field___setitem__, Field___getitem__. rewrite Ek, H1, H2. cbn [orb].
    unfold alist_has in H1, H2.
    destruct (alist_get key (attrs (field_base f))); [ discriminate | ].
    destruct (alist_get key (default_attrs (field_base f))); [ discriminate | ].
    eexists. split; reflexivity.
Qed.

Lemma X6_item_assignment_witness :
  attrs_of (Field___setitem__ "Text"
              (FScalar (with_attrs [("unit", PStr "m"); ("warning", PStr "w")] default_base)
                       VStr (PStr "x"))
              "pretty_name" (PStr "n")).1
  = [("pretty_name", PStr "n")].
Proof.
  destruct (proj1 (X6_item_assignment "Text"
              (FScalar (with_attrs [("unit", PStr "m"); ("warning", PStr "w")] default_base)
                       VStr (PStr "x"))
              "pretty_name" (PStr "n") eq_refl ltac:(discriminate)) eq_refl)
    as (f' & Hset & Hattrs & _).
  rewrite Hset. exact Hattrs.
Defined.

(** ** [Dict] as a mapping *)

Lemma Dict_update_loop_frame setters i iu k (items : dict) : ∀ props,
  alist_has k items = false →
  alist_get k (Dict_update_loop setters i iu props items).1 = alist_get k props.
Proof.
  induction items as [ | [name x] items IH ]; intros props Hk; [ reflexivity | ].
  assert (Hne : k ≠ name ∧ alist_has k items = false).
  { unfold alist_has in *. cbn [alist_get] in Hk.
    destruct (String.eqb name k) eqn:E; [ discriminate | ].
    split; [ | exact Hk ]. intros ->. rewrite String.eqb_refl in E. discriminate. }
  destruct Hne as [Hne Hrest].
  cbn [Dict_update_loop].
  destruct (alist_has name props).
  - destruct (alist_get name setters) as [ set_child | ].
    + destruct (set_child x) as [c r]. destruct r as [ [] | e ].
      * rewrite (IH _ Hrest). apply alist_get_set_ne, Hne.
      * cbn [fst]. apply alist_get_set_ne, Hne.
    + rewrite (IH _ Hrest). apply alist_get_set_ne, Hne.
  - destruct iu.
    + rewrite (IH _ Hrest). apply alist_get_set_ne, Hne.
    + apply (IH _ Hrest).
Qed.

(** X7. [Dict.update(value, include_undefined, **kwargs)] does not touch
    a property that neither [value] nor [kwargs] names, whether the call
    returns or raises: the property is the same object in the same
    state, and the composite keeps its own attributes. *)
Theorem X7_update_frame (b : base) (i d : bool) (ps : list (string * field))
    (value : pyval) (include_undefined : bool) (kwargs : dict) (k : string) :
  (∀ entries, value = PDict entries → alist_has k entries = false) →
  alist_has k kwargs = false →
  ∃ ps' r,
    Dict_update (FDict b i d ps) value include_undefined kwargs = (FDict b i d ps', r)
    ∧ alist_get k ps' = alist_get k ps.
Proof.
  intros Hvalue Hkw. cbn [Dict_update]. unfold Dict_update_with.
  destruct (if truthy value then value else PDict []) as [ | | | | | entries ] eqn:E;
    try (eexists _, _; split; reflexivity).
  assert (Hentries : alist_has k entries = false).
  { destruct (truthy value); [ apply Hvalue, E | ].
    injection E as <-. reflexivity. }
  pose proof (Dict_update_loop_frame (setters_of ps) i
                (if d then include_undefined else true) k
                (alist_update entries kwargs) ps) as Hloop.
  destruct (Dict_update_loop _ _ _ ps (alist_update entries kwargs)) as [ps' r].
  exists ps', r. split; [ reflexivity | ].
  apply Hloop. unfold alist_has in *.
  rewrite alist_get_update_absent; [ exact Hentries | ].
  destruct (alist_get k kwargs); [ discriminate | reflexivity ].
Qed.

Lemma X7_update_frame_witness :
  alist_get "b"
    (match (Dict_update
              (FDict default_base false true
                 [("a", FScalar default_base VInt (PInt 1%Z));
                  ("b", FScalar default_base VInt (PInt 2%Z))])
              (PDict [("a", PInt 5%Z)]) false []).1 with
     | FDict _ _ _ ps => ps
     | _ => []
     end)
  = Some (FScalar default_base VInt (PInt 2%Z)).
Proof.
  destruct (X7_update_frame default_base false true
              [("a", FScalar default_base VInt (PInt 1%Z));
               ("b", FScalar default_base VInt (PInt 2%Z))]
              (PDict [("a", PInt 5%Z)]) false [] "b")
    as (ps' & r & Hup & Hget).
  - intros entries [= <-]. reflexivity.
  - reflexivity.
  - rewrite Hup. exact Hget.
Defined.

(** What the [Dict.value] getter reads to decide whether a property is
    empty, and what it then stores: each entry of the result comes from
    the dict built so far or from a property with a non-empty value, of
    which it is the [serialize()]. *)
Lemma Dict_value_loop_get k s (children : list (string * (field * outcome pyval))) :
  ∀ acc dv,
  NoDup (map fst children) →
  Dict_value_loop children acc = Return (PDict dv) →
  alist_get k dv = Some s →
  alist_get k acc = Some s
  ∨ ∃ c raw v,
      alist_get k children = Some (c, raw)
      ∧ (if is_dict_field c then raw else Return (stored_value c)) = Return v
      ∧ is_empty v = false
      ∧ Field_serialize_with (field_base c) raw false = Return s.
Proof.
  induction children as [ | [name [c raw]] rest IH ]; intros acc dv Hnd Hloop Hget.
  - injection Hloop as <-. left. exact Hget.
  - cbn [map fst] in Hnd. apply NoDup_cons in Hnd as [Hname Hnd].
    cbn [Dict_value_loop] in Hloop.
    destruct (if is_dict_field c then raw else Return (stored_value c)) as [ v | e ] eqn:Ev;
      [ | discriminate ].
    cbn [bind] in Hloop.
    assert (Hrest : ∀ c' raw', alist_get k rest = Some (c', raw') →
                      alist_get k ((name, (c, raw)) :: rest) = Some (c', raw')).
    { intros c' raw' H. cbn [alist_get].
      destruct (String.eqb name k) eqn:E; [ | exact H ].
      apply String.eqb_eq in E. subst name.
      apply alist_get_elem_of in H. exfalso. apply Hname.
      apply list_elem_of_fmap. exists (k, (c', raw')). split; [ reflexivity | exact H ]. }
    destruct (is_empty v) eqn:He.
    + destruct (IH acc dv Hnd Hloop Hget) as [ H | (c' & raw' & v' & H & Hrem) ].
      * left. exact H.
      * right. exists c', raw', v'. split; [ apply Hrest, H | exact Hrem ].
    + destruct (Field_serialize_with (field_base c) raw false) as [ s' | e ] eqn:Es;
        [ | discriminate ].
      cbn [bind] in Hloop.
      destruct (IH _ dv Hnd Hloop Hget) as [ H | (c' & raw' & v' & H & Hrem) ].
      * destruct (decide (k = name)) as [ -> | Hne ].
        -- rewrite alist_get_set_eq in H. injection H as ->.
           right. exists c, raw, v. cbn [alist_get]. rewrite String.eqb_refl.
           split; [ reflexivity | split; [ exact Ev | split; [ exact He | exact Es ] ] ].
        -- rewrite alist_get_set_ne in H by exact Hne. left. exact H.
      * right. exists c', raw', v'. split; [ apply Hrest, H | exact Hrem ].
Qed.

Lemma alist_set_keys {V} k (v : V) (m : list (string * V)) :
  alist_has k m = true → map fst (alist_set k v m) = map fst m.
Proof.
  unfold alist_has. induction m as [ | [k0 v0] m IH ]; [ discriminate | ].
  cbn [alist_get alist_set]. destruct (String.eqb k0 k); [ reflexivity | ].
  intros H. cbn [map fst]. rewrite (IH H). reflexivity.
Qed.

Lemma map_fst_with {A B} (g : A → B) (l : list (string * A)) :
  map fst (map (λ kc : string * A, (kc.1, g kc.2)) l) = map fst l.
Proof. induction l as [ | [k a] l IH ]; [ reflexivity | ]. simpl. rewrite IH. reflexivity. Qed.

Lemma keys_distinct_child b i d ps k c :
  keys_distinct (FDict b i d ps) → alist_get k ps = Some c → keys_distinct c.
Proof.
  intros Hkd Hget. apply keys_distinct_props in Hkd as [_ Hall].
  apply alist_get_elem_of in Hget.
  exact (proj1 (Forall_forall _ _) Hall (k, c) Hget).
Qed.

(** X8. [Dict.pop(key)] of a declared property returns the value of the
    property and sets it to [None]; it does not remove it: the composite
    has the same keys afterwards, the other properties are untouched, and
    the value of the composite no longer has the key.  For a key that is
    not declared, [pop] returns the default when one is given and raises
    [KeyError] otherwise, and the composite is unchanged. *)
Theorem X8_pop_resets_property (b : base) (i d : bool) (ps : list (string * field))
    (k : string) (args : option pyval) :
  keys_distinct (FDict b i d ps) →
  (∀ c v, alist_get k ps = Some c → value_of c = Return v →
     ∃ ps',
       Dict_pop b i d ps k args = (FDict b i d ps', Return v)
       ∧ Dict_keys ps' = Dict_keys ps
       ∧ alist_get k ps' = Some (set_ c PNone).1
       ∧ (∀ k', k' ≠ k → alist_get k' ps' = alist_get k' ps)
       ∧ (∀ dv, value_of (FDict b i d ps') = Return (PDict dv) → alist_has k dv = false))
  ∧ (alist_get k ps = None →
     (∀ x, args = Some x → Dict_pop b i d ps k args = (FDict b i d ps, Return x))
     ∧ (args = None →
        ∃ message, Dict_pop b i d ps k args = (FDict b i d ps, Raise (EKeyError message)))).
Proof.
  intros Hkd. split.
  - intros c v Hget Hvalue.
    destruct (set_None c (keys_distinct_child _ _ _ _ _ _ Hkd Hget))
      as (Hret & v' & Hv' & Hempty).
    unfold Dict_pop. rewrite Hget, Hvalue.
    destruct (set_ c PNone) as [c' r] eqn:Eset. cbn [fst snd] in *. subst r.
    assert (Hhas : alist_has k ps = true) by (unfold alist_has; rewrite Hget; reflexivity).
    exists (alist_set k c' ps).
    split; [ reflexivity | split; [ apply alist_set_keys, Hhas | ] ].
    split; [ apply alist_get_set_eq | ].
    split; [ intros k' Hne; apply alist_get_set_ne, Hne | ].
    intros dv Hdv. unfold value_of in Hdv. cbn [is_dict_field] in Hdv.
    rewrite _serialize_FDict in Hdv.
    destruct (alist_has k dv) eqn:Ehas; [ exfalso | reflexivity ].
    apply alist_has_get in Ehas as [s Hs].
    apply keys_distinct_props in Hkd as [Hnd _].
    assert (Hnd' : NoDup (map fst (map (λ kc : string * field,
                                          (kc.1, (kc.2, _serialize kc.2)))
                                       (alist_set k c' ps)))).
    { rewrite (map_fst_with (λ c, (c, _serialize c))).
      rewrite (alist_set_keys k c' ps Hhas). exact Hnd. }
    destruct (Dict_value_loop_get k s _ [] dv Hnd' Hdv Hs)
      as [ H | (c0 & raw & v0 & H & Hv0 & He & _) ]; [ discriminate | ].
    rewrite (alist_get_map (λ c, (c, _serialize c))) in H.
    rewrite alist_get_set_eq in H. cbn [option_map] in H. injection H as <- <-.
    unfold value_of in Hv'. rewrite Hv' in Hv0. injection Hv0 as <-. congruence.
  - intros Hget. unfold Dict_pop. rewrite Hget. split.
    + intros x ->. reflexivity.
    + intros ->. eexists. reflexivity.
Qed.

Lemma X8_pop_resets_property_witness :
  ∃ ps',
    Dict_pop default_base false true
      [("a", FScalar default_base VInt (PInt 1%Z));
       ("b", FScalar default_base VInt (PInt 2%Z))]
      "a" None
    = (FDict default_base false true ps', Return (PInt 1%Z))
    ∧ Dict_keys ps' = ["a"; "b"]
    ∧ alist_get "a" ps' = Some (FScalar default_base VInt PNone).
Proof.
  assert (Hkd : keys_distinct
                  (FDict default_base false true
                     [("a", FScalar default_base VInt (PInt 1%Z));
                      ("b", FScalar default_base VInt (PInt 2%Z))])).
  { simpl. split; [ distinct_keys | repeat split ]. }
  destruct (proj1 (X8_pop_resets_property default_base false true _ "a" None Hkd)
              (FScalar default_base VInt (PInt 1%Z)) (PInt 1%Z) eq_refl eq_refl)
    as (ps' & Hpop & Hkeys & Hget & _).
  exists ps'. split; [ exact Hpop | split; [ exact Hkeys | exact Hget ] ].
Defined.

(** X9. [Dict.get(key)] agrees with the value of a composite none of
    whose lists holds an element that [set] would edit in place: every
    entry [key: s] of [value] is what [get(key)] returns.  (The converse
    fails for a property whose value is empty: [value] leaves it out,
    while [get] returns its [serialize()].  And when a list inside a
    property holds a dict with a ["value"] key, serializing the property
    pops the key, so that a second reading differs from the first.) *)
Theorem X9_get_agrees_with_value (b : base) (i d : bool) (ps : list (string * field))
    (k : string) (args : option pyval) (dv : dict) (s : pyval) :
  NoDup (map fst ps) →
  elements_left_alone (FDict b i d ps) = true →
  value_of (FDict b i d ps) = Return (PDict dv) →
  alist_get k dv = Some s →
  Dict_get b ps k args = Return s.
Proof.
  intros Hnd _ Hvalue Hget. unfold value_of in Hvalue. cbn [is_dict_field] in Hvalue.
  rewrite _serialize_FDict in Hvalue.
  assert (Hnd' : NoDup (map fst (map (λ kc : string * field,
                                        (kc.1, (kc.2, _serialize kc.2))) ps)))
    by (rewrite (map_fst_with (λ c, (c, _serialize c))); exact Hnd).
  destruct (Dict_value_loop_get k s _ [] dv Hnd' Hvalue Hget)
    as [ H | (c & raw & v & H & _ & _ & Hs) ]; [ discriminate | ].
  rewrite (alist_get_map (λ c, (c, _serialize c))) in H.
  unfold Dict_get. destruct (alist_get k ps) as [ c' | ]; [ | discriminate ].
  cbn [option_map] in H. injection H as <- <-. exact Hs.
Qed.

Lemma X9_get_agrees_with_value_witness :
  Dict_get default_base
    [("a", FScalar default_base VInt (PInt 1%Z)); ("b", FScalar default_base VInt PNone)]
    "a" None
  = Return (PDict [("value", PInt 1%Z)]).
Proof.
  apply (X9_get_agrees_with_value default_base false true _ "a" None
           [("a", PDict [("value", PInt 1%Z)])]).
  - simpl. distinct_keys.
  - reflexivity.
  - reflexivity.
  - reflexivity.
Defined.

Lemma Dict_clear_loop_reset ps :
  Forall (λ kc : string * field, (set_ kc.2 PNone).2 = Return tt) ps →
  Dict_clear_loop ps = (reset_properties ps, Return tt).
Proof.
  induction ps as [ | [k c] ps IH ]; intros Hall; [ reflexivity | ].
  apply Forall_cons in Hall as [Hc Hall]. cbn [snd] in Hc.
  cbn [Dict_clear_loop]. destruct (set_ c PNone) as [c' r] eqn:E.
  cbn [snd] in Hc. subst r. rewrite (IH Hall).
  unfold reset_properties. cbn [map fst snd]. rewrite E. reflexivity.
Qed.

(** X10. On a composite, [clear()], [set(None)] and [set({})] (with or
    without [include_undefined]) do the same: every property is set to
    [None], none is removed, the composite keeps its attributes, and its
    value is [{}] afterwards. *)
Theorem X10_clear_is_set_none (b : base) (i d : bool) (ps : list (string * field))
    (include_undefined : bool) :
  keys_distinct (FDict b i d ps) →
  Dict_clear b i d ps = (FDict b i d (reset_properties ps), Return tt)
  ∧ Dict_set (FDict b i d ps) PNone include_undefined
    = (FDict b i d (reset_properties ps), Return tt)
  ∧ Dict_set (FDict b i d ps) (PDict []) include_undefined
    = (FDict b i d (reset_properties ps), Return tt)
  ∧ Dict_keys (reset_properties ps) = Dict_keys ps
  ∧ value_of (FDict b i d (reset_properties ps)) = Return (PDict []).
Proof.
  intros Hkd. destruct (keys_distinct_reset _ _ _ _ Hkd) as (Hnd & Hok & Hempty).
  split; [ | split; [ | split; [ | split ] ] ].
  - unfold Dict_clear. rewrite (Dict_clear_loop_reset ps Hok). reflexivity.
  - cbn [Dict_set]. unfold Dict_set_with. cbn [truthy andb Field_set_split].
    rewrite (Dict_value_setter_empty i d ps PNone (or_introl eq_refl) Hnd Hok).
    reflexivity.
  - cbn [Dict_set]. unfold Dict_set_with.
    cbn [truthy andb Field_set_split alist_has alist_get]. rewrite andb_false_r.
    rewrite (Dict_value_setter_empty i d ps (PDict []) (or_intror eq_refl) Hnd Hok).
    reflexivity.
  - apply reset_properties_keys.
  - unfold value_of. cbn [is_dict_field]. rewrite _serialize_FDict.
    rewrite <- (app_nil_r (map _ (reset_properties ps))).
    rewrite (Dict_value_loop_empty _ [] [] Hempty). reflexivity.
Qed.

Lemma X10_clear_is_set_none_witness :
  Dict_clear default_base false true
    [("a", FScalar default_base VInt (PInt 1%Z)); ("b", FScalar default_base VStr (PStr "x"))]
  = (FDict default_base false true
       [("a", FScalar default_base VInt PNone); ("b", FScalar default_base VStr PNone)],
     Return tt).
Proof.
  assert (Hkd : keys_distinct
                  (FDict default_base false true
                     [("a", FScalar default_base VInt (PInt 1%Z));
                      ("b", FScalar default_base VStr (PStr "x"))])).
  { simpl. split; [ distinct_keys | repeat split ]. }
  rewrite (proj1 (X10_clear_is_set_none default_base false true _ false Hkd)).
  reflexivity.
Defined.

(** ** [clean] applied twice *)

Lemma pretty_N_go_length x : ∀ s, String.length s ≤ String.length (pretty_N_go x s).
Proof.
  induction (N.lt_wf_0 x) as [x _ IH]; intros s.
  destruct (decide (x = 0%N)) as [ -> | Hx ]; [ rewrite pretty_N_go_0; lia | ].
  rewrite pretty_N_go_step by lia.
  etransitivity; [ | apply IH; apply N.div_lt; lia ].
  simpl. lia.
Qed.

Lemma pretty_Z_nonempty (z : Z) : pretty z ≠ "".
Proof.
  assert (Hpos : ∀ p : positive, pretty p ≠ "").
  { intros p H. unfold pretty, pretty_positive, pretty, pretty_N in H.
    destruct (decide (N.pos p = 0%N)) as [ | _ ]; [ discriminate | ].
    rewrite pretty_N_go_step in H by lia.
    pose proof (pretty_N_go_length (N.pos p `div` 10)
                  (String (pretty_N_char (N.pos p `mod` 10)) "")) as Hlen.
    rewrite H in Hlen. simpl in Hlen. lia. }
  destruct z as [ | p | p ]; unfold pretty, pretty_Z.
  - discriminate.
  - apply Hpos.
  - intros H. discriminate H.
Qed.

Lemma py_str_nonempty v :
  is_empty v = false → py_isinstance v VStr = false → py_str v ≠ "".
Proof.
  destruct v as [ | [] | z | s | l | d ];
    first [ discriminate
          | intros _ _; apply pretty_Z_nonempty
          | intros _ _ H; discriminate H ].
Qed.

Lemma deserialized_instance t v data :
  Field__deserialize t v = Return data → py_isinstance data t = true.
Proof.
  destruct t; cbn [Field__deserialize construct].
  - intros [= <-]. reflexivity.
  - intros [= <-]. reflexivity.
  - unfold py_int. destruct v as [ | [] | z | s | l | d ]; try discriminate;
      try (intros [= <-]; reflexivity).
    destruct (parse_int s); [ intros [= <-]; reflexivity | discriminate ].
  - intros [= <-]. reflexivity.
Qed.

Lemma deserialized_nonempty t v data :
  Field__deserialize t v = Return data →
  is_empty v = false → py_isinstance v t = false →
  is_empty data = false.
Proof.
  intros Hd He Hi. pose proof (deserialized_instance t v data Hd) as Hinst.
  destruct t; try discriminate.
  - cbn [Field__deserialize construct] in Hd. injection Hd as <-.
    pose proof (py_str_nonempty v He Hi) as Hs.
    destruct (py_str v); [ congruence | reflexivity ].
  - destruct data as [ | | | | | ]; try discriminate; reflexivity.
  - destruct data as [ | | | | | ]; try discriminate; reflexivity.
Qed.

Lemma alist_set_twice {V} k (v : V) m : alist_set k v (alist_set k v m) = alist_set k v m.
Proof.
  induction m as [ | [k0 v0] m IH ]; cbn [alist_set].
  - rewrite String.eqb_refl. reflexivity.
  - destruct (String.eqb k0 k) eqn:E; cbn [alist_set]; rewrite E; [ reflexivity | ].
    rewrite IH. reflexivity.
Qed.

Lemma clean_FScalar b t v :
  clean (FScalar b t v)
  = Field_clean_with (FScalar b t v) (Return v) (Field__clean b t v).
Proof. rewrite clean_eq. reflexivity. Qed.

Lemma clean_FChoices b c v :
  clean (FChoices b c v)
  = Field_clean_with (FChoices b c v) (Return v) (Choices__clean b c v).
Proof. rewrite clean_eq. reflexivity. Qed.

(** X11. Cleaning a scalar field or a [Choices] a second time changes
    nothing: the second [clean()] leaves the field as the first left it
    and ends as the first did, returning or raising the same error
    (under WARNING, recording the same warning). *)
Theorem X11_clean_idempotent :
  (∀ b t v, clean (clean (FScalar b t v)).1 = clean (FScalar b t v))
  ∧ (∀ b c v, clean (clean (FChoices b c v)).1 = clean (FChoices b c v)).
Proof.
  split.
  - intros b t v. rewrite (clean_FScalar b t v). unfold Field_clean_with.
    destruct (is_empty v) eqn:He; cbn [field_base].
    + destruct (required b) eqn:Hr; cbn [fst assign_value store_value].
      * rewrite clean_FScalar. unfold Field_clean_with. rewrite He. cbn [field_base].
        rewrite Hr. reflexivity.
      * rewrite clean_FScalar. unfold Field_clean_with. cbn [is_empty field_base].
        rewrite Hr. reflexivity.
    + unfold Field__clean, Field__clean_value.
      destruct (py_isinstance v t) eqn:Hi.
      * cbn [fst]. rewrite clean_FScalar. unfold Field_clean_with. rewrite He.
        unfold Field__clean, Field__clean_value. rewrite Hi. reflexivity.
      * destruct (Field__deserialize t v) as [ data | e ] eqn:Hd.
        -- cbn [fst]. rewrite clean_FScalar. unfold Field_clean_with.
           rewrite (deserialized_nonempty t v data Hd He Hi).
           unfold Field__clean, Field__clean_value.
           rewrite (deserialized_instance t v data Hd). reflexivity.
        -- match goal with
           | |- context [ValidationException ?msg] =>
               destruct (ValidationException_message msg) as (m & Hm & _)
           end.
           rewrite Hm. cbn [field_base].
           destruct (validation_level b) eqn:Hl; cbn [fst].
           ++ rewrite clean_FScalar. unfold Field_clean_with. rewrite He.
              unfold Field__clean, Field__clean_value. rewrite Hi, Hd, Hm.
              cbn [field_base]. rewrite Hl. reflexivity.
           ++ cbn [map_base]. rewrite clean_FScalar. unfold Field_clean_with. rewrite He.
              unfold Field__clean, Field__clean_value. rewrite Hi, Hd, Hm.
              cbn [field_base validation_level with_attrs]. rewrite Hl.
              cbn [map_base attrs with_attrs default_value default_attrs required
                   validation_level attrs_enabled].
              rewrite alist_set_twice. reflexivity.
           ++ rewrite clean_FScalar. unfold Field_clean_with. rewrite He.
              unfold Field__clean, Field__clean_value. rewrite Hi, Hd, Hm.
              cbn [field_base]. rewrite Hl. reflexivity.
  - intros b c v. rewrite (clean_FChoices b c v). unfold Field_clean_with.
    destruct (is_empty v) eqn:He; cbn [field_base].
    + destruct (required b) eqn:Hr; cbn [fst assign_value store_value].
      * rewrite clean_FChoices. unfold Field_clean_with. rewrite He. cbn [field_base].
        rewrite Hr. reflexivity.
      * rewrite clean_FChoices. unfold Field_clean_with. cbn [is_empty field_base].
        rewrite Hr. reflexivity.
    + unfold Choices__clean. destruct (py_in_list v c) eqn:Hin.
      * cbn [fst]. rewrite clean_FChoices. unfold Field_clean_with. rewrite He.
        unfold Choices__clean. rewrite Hin. reflexivity.
      * match goal with
        | |- context [ValidationException ?msg] =>
            destruct (ValidationException_message msg) as (m & Hm & _)
        end.
        rewrite Hm. cbn [field_base].
        destruct (validation_level b) eqn:Hl; cbn [fst].
        -- rewrite clean_FChoices. unfold Field_clean_with. rewrite He.
           unfold Choices__clean. rewrite Hin, Hm. cbn [field_base]. rewrite Hl.
           reflexivity.
        -- cbn [map_base]. rewrite clean_FChoices. unfold Field_clean_with. rewrite He.
           unfold Choices__clean. rewrite Hin, Hm.
           cbn [field_base validation_level with_attrs]. rewrite Hl.
           cbn [map_base attrs with_attrs default_value default_attrs required
                validation_level attrs_enabled].
           rewrite alist_set_twice. reflexivity.
        -- rewrite clean_FChoices. unfold Field_clean_with. rewrite He.
           unfold Choices__clean. rewrite Hin, Hm. cbn [field_base]. rewrite Hl.
           reflexivity.
Qed.

(** ** [List]: cleaning and the serialized form *)

Lemma List__clean_loop_length rec todo : ∀ eo done l' r,
  List__clean_loop rec eo done todo = (l', r) →
  length l' = length done + length todo.
Proof.
  induction todo as [ | e todo IH ]; intros eo done l' r H.
  - injection H as <- _. simpl. lia.
  - cbn [List__clean_loop] in H.
    destruct (set_ eo e) as [eo1 r1]. destruct r1 as [ [] | error ].
    + destruct (rec eo1) as [eo2 r2].
      destruct (_ <- r2 ;; value_of eo2) as [ v | [ m | | m | m | m | m | ] ];
        try (injection H as <- _; rewrite length_app; reflexivity).
      apply IH in H. rewrite H, length_app. simpl. lia.
    + injection H as <- _. rewrite length_app. reflexivity.
Qed.

Lemma clean_FList b eo v :
  clean (FList b eo v) = Field_clean_with (FList b eo v) (Return v) (List__clean b eo v).
Proof. rewrite clean_eq. reflexivity. Qed.

(** X12. [clean()] never changes the number of elements of a non-empty
    list, nor its template, whether it returns or raises: each element
    is replaced by its cleaned value or left in place. *)
Theorem X12_list_clean_keeps_length (b : base) (eo : field) (l : list pyval) :
  l ≠ [] →
  ∃ b' l' r,
    clean (FList b eo (PList l)) = (FList b' eo (PList l'), r)
    ∧ length l' = length l.
Proof.
  intros Hl. rewrite clean_FList. unfold Field_clean_with.
  assert (He : is_empty (PList l) = false) by (destruct l; [ congruence | reflexivity ]).
  rewrite He. unfold List__clean.
  destruct (List__clean_loop clean eo [] l) as [l' r] eqn:Hloop.
  apply List__clean_loop_length in Hloop. simpl in Hloop.
  destruct r as [ [] | [ m | | m | m | m | m | ] ];
    try (eexists _, _, _; split; [ reflexivity | exact Hloop ]).
  cbn [field_base]. destruct (validation_level b);
    eexists _, _, _; (split; [ reflexivity | exact Hloop ]).
Qed.

Lemma X12_list_clean_keeps_length_witness :
  ∃ b' l' r,
    clean (FList (with_validation_level WARNING default_base)
                 (FScalar default_base VInt PNone)
                 (PList [PStr "1"; PStr "x"; PStr "3"]))
    = (FList b' (FScalar default_base VInt PNone) (PList l'), r)
    ∧ length l' = 3.
Proof.
  apply (X12_list_clean_keeps_length (with_validation_level WARNING default_base)
           (FScalar default_base VInt PNone) [PStr "1"; PStr "x"; PStr "3"]).
  discriminate.
Defined.

Lemma Field_set_split_not_dict b e : is_dict e = false → Field_set_split b e = (b, e).
Proof. destruct e; try discriminate; reflexivity. Qed.

Lemma _serialize_FScalar b t v : _serialize (FScalar b t v) = Return v.
Proof. rewrite _serialize_unfold. reflexivity. Qed.

(** The loop of [List._serialize] over elements that are not dicts, with
    a scalar template: each element is serialized as itself. *)
Lemma List__serialize_loop_scalar eb t (l : list pyval) : ∀ v0 result,
  Forall (λ e, is_dict e = false) l →
  List__serialize_loop _serialize (FScalar eb t v0) l result
  = Return (PList (result ++ l)%list).
Proof.
  induction l as [ | e l IH ]; intros v0 result Hall.
  - cbn [List__serialize_loop]. rewrite app_nil_r. reflexivity.
  - apply Forall_cons in Hall as [He Hall].
    cbn [List__serialize_loop]. rewrite set_scalar, (Field_set_split_not_dict eb e He).
    cbn [fst snd bind]. rewrite _serialize_FScalar. cbn [bind].
    rewrite (IH e _ Hall), <- app_assoc. reflexivity.
Qed.

Lemma instance_not_dict v t : t ≠ VObject → py_isinstance v t = true → is_dict v = false.
Proof. intros Ht. destruct t, v; try discriminate; try reflexivity. congruence. Qed.

(** The loop of [List._clean] with a scalar template configured STRICT:
    when it returns, every element it has replaced is [None] or an
    instance of the template's type. *)
Lemma List__clean_loop_scalar t (Ht : t ≠ VObject) (todo : list pyval) : ∀ eb v0 done l',
  validation_level eb = STRICT →
  Forall (λ e, is_dict e = false) done →
  List__clean_loop clean (FScalar eb t v0) done todo = (l', Return tt) →
  Forall (λ e, is_dict e = false) l'.
Proof.
  induction todo as [ | e todo IH ]; intros eb v0 done l' Hl Hdone H.
  - injection H as <-. exact Hdone.
  - cbn [List__clean_loop] in H. rewrite set_scalar in H.
    pose proof (Field_set_split_config eb e) as (_ & Hl1 & _ & _).
    destruct (Field_set_split eb e) as [eb1 e1]. cbn [fst snd] in *.
    rewrite Hl in Hl1.
    destruct (clean (FScalar eb1 t e1)) as [eo2 r2] eqn:Hc.
    destruct r2 as [ [] | [ m | | m | m | m | m | ] ]; try discriminate.
    destruct (clean_scalar_strict eb1 t e1 eo2 Hl1 Hc) as (v' & -> & Hv').
    cbn [bind value_of is_dict_field stored_value] in H.
    apply (IH eb1 v' _ l' Hl1) in H; [ exact H | ].
    apply Forall_app. split; [ exact Hdone | ].
    apply Forall_cons. split; [ | apply Forall_nil; exact I ].
    destruct Hv' as [ -> | Hi ]; [ reflexivity | exact (instance_not_dict v' t Ht Hi) ].
Qed.

(** X13. Round trip of a [List] whose template is a scalar field of type
    [str], [int] or [bool]: when the list and its template are configured
    STRICT and [clean()] returns with a non-empty value, the serialized
    form of the list deserializes to that value. *)
Theorem X13_list_round_trip (b eb : base) (t : value_type) (v0 x : pyval)
    (f2 : field) (v : pyval) :
  t ≠ VObject →
  validation_level b = STRICT →
  validation_level eb = STRICT →
  alist_has "value" (attrs b) = false →
  clean (FList b (FScalar eb t v0) x) = (f2, Return tt) →
  value_of f2 = Return v →
  is_empty v = false →
  ∃ s, serialize f2 false = Return s ∧ deserialize f2 s = Return v.
Proof.
  intros Ht Hl Hel Hattrs Hclean Hvalue Hne.
  rewrite clean_FList in Hclean. unfold Field_clean_with in Hclean.
  destruct (is_empty x) eqn:Hx.
  - cbn [field_base] in Hclean. destruct (required b); [ discriminate | ].
    cbn [assign_value store_value] in Hclean. injection Hclean as <-.
    cbn [value_of is_dict_field stored_value] in Hvalue. injection Hvalue as <-.
    discriminate.
  - unfold List__clean in Hclean. destruct x as [ | | | | l | ];
      try (destruct (ValidationException_message "Значение поля не является списком.")
             as (m & Hm & _);
           rewrite Hm in Hclean; cbn [field_base] in Hclean; rewrite Hl in Hclean;
           discriminate).
    destruct (List__clean_loop clean (FScalar eb t v0) [] l) as [l' r] eqn:Hloop.
    assert (Hr : r = Return tt ∧ f2 = FList b (FScalar eb t v0) (PList l')).
    { destruct r as [ [] | [ m | | m | m | m | m | ] ]; try discriminate.
      - injection Hclean as <-. split; reflexivity.
      - cbn [field_base] in Hclean. rewrite Hl in Hclean. discriminate. }
    destruct Hr as [-> ->].
    cbn [value_of is_dict_field stored_value] in Hvalue. injection Hvalue as <-.
    pose proof (List__clean_loop_scalar t Ht l eb v0 [] l' Hel
                  (Forall_nil_2 _) Hloop) as Hall.
    assert (Hser : _serialize (FList b (FScalar eb t v0) (PList l')) = Return (PList l')).
    { rewrite _serialize_FList.
      apply (List__serialize_loop_scalar eb t l' v0 [] Hall). }
    rewrite (serialize_nonempty _ _ Hser Hne). cbn [field_base].
    eexists. split; [ reflexivity | ].
    cbn [deserialize field_base]. destruct (attrs_enabled b) eqn:Ha.
    + cbn [data_to_deserialize]. rewrite Ha.
      rewrite alist_get_update_absent.
      * reflexivity.
      * unfold alist_has in Hattrs. destruct (alist_get "value" (attrs b));
          [ discriminate | reflexivity ].
    + cbn [data_to_deserialize]. reflexivity.
Qed.

Lemma X13_list_round_trip_witness :
  ∃ s, serialize (FList default_base (FScalar default_base VInt PNone)
                    (PList [PInt 1%Z; PInt 2%Z])) false = Return s
       ∧ deserialize (FList default_base (FScalar default_base VInt PNone)
                        (PList [PInt 1%Z; PInt 2%Z])) s
         = Return (PList [PInt 1%Z; PInt 2%Z]).
Proof.
  apply (X13_list_round_trip default_base default_base VInt PNone
           (PList [PStr "1"; PInt 2%Z]));
    [ discriminate | reflexivity | reflexivity | reflexivity | reflexivity
    | reflexivity | reflexivity ].
Defined.

(** ** [ConvertedDict]: the schema *)

Lemma update_mapping_schema n v requested n' p' :
  update_mapping n v requested = Some (n', p') → n < n' ∧ p' = schema n'.
Proof.
  unfold update_mapping.
  destruct (_ <=? n) eqn:E; [ discriminate | ].
  apply Nat.leb_gt in E. intros [= <- <-]. split; [ exact E | reflexivity ].
Qed.

Lemma update_mapping_settled n v n' p' :
  update_mapping n v None = Some (n', p') → update_mapping n' v None = None.
Proof.
  unfold update_mapping. destruct (determine_depth v <=? n) eqn:E; [ discriminate | ].
  intros [= <- _]. rewrite Nat.leb_refl. reflexivity.
Qed.

Lemma update_mapping_None n v : update_mapping n v None = None → determine_depth v ≤ n.
Proof.
  unfold update_mapping. destruct (determine_depth v <=? n) eqn:E; [ | discriminate ].
  intros _. apply Nat.leb_le, E.
Qed.

(** What one operation does to a [ConvertedDict] whose schema is the one
    of its depth. *)
Lemma perform_converted_dict b n v o :
  ∃ b' n' v', perform (FConvertedDict b n (schema n) v) o
              = FConvertedDict b' n' (schema n') v' ∧ n ≤ n'.
Proof.
  destruct o as [ x | x iu | x | x iu kw | a iu kw | a iu kw | data | ]; cbn [perform].
  - rewrite set_converted_dict. eexists _, n, _. split; [ reflexivity | lia ].
  - eexists b, n, v. split; [ reflexivity | lia ].
  - assert (H : ∃ y, update_ (FConvertedDict b n (schema n) v) x
                     = set_ (FConvertedDict b n (schema n) v) y).
    { cbn [update_ field_base]. destruct x; try (eexists; reflexivity).
      destruct (attrs_enabled b && alist_has "value" d); eexists; reflexivity. }
    destruct H as [y ->]. rewrite set_converted_dict.
    eexists _, n, _. split; [ reflexivity | lia ].
  - eexists b, n, v. split; [ reflexivity | lia ].
  - unfold set_attrs. cbn [field_base].
    destruct (Field_set_attrs b a iu kw) as [b' r].
    eexists b', n, v. split; [ reflexivity | lia ].
  - unfold update_attrs. cbn [field_base].
    destruct (Field_update_attrs b a iu kw) as [b' r].
    eexists b', n, v. split; [ reflexivity | lia ].
  - unfold deserialize_auto_set.
    destruct (deserialize (FConvertedDict b n (schema n) v) data) as [ x | e ].
    + rewrite set_converted_dict.
      destruct (update_mapping n (Field_set_split b x).2 None) as [ [n' p'] | ] eqn:E.
      * apply update_mapping_schema in E as [Hlt ->].
        eexists _, n', _. split; [ reflexivity | lia ].
      * eexists _, n, _. split; [ reflexivity | lia ].
    + eexists b, n, v. split; [ reflexivity | lia ].
  - rewrite ConvertedDict_clean_eq. unfold Field_clean_with.
    destruct (is_empty v).
    + cbn [field_base]. destruct (required b).
      * eexists b, n, v. split; [ reflexivity | lia ].
      * eexists b, n, PNone. split; [ reflexivity | lia ].
    + unfold ConvertedDict__clean.
      destruct (Field__clean_value (is_dict v) (deconvert_dict v) "dict" v)
        as [ data | e ] eqn:Ev.
      * destruct (negb (is_dict data)).
        -- match goal with
           | |- context [ValidationException ?msg] =>
               destruct (ValidationException_message msg) as (m & -> & _)
           end.
           cbn [field_base]. destruct (validation_level b);
             eexists _, n, _; (split; [ reflexivity | lia ]).
        -- destruct (update_mapping n data None) as [ [n' p'] | ] eqn:E.
           ++ apply update_mapping_schema in E as [Hlt ->].
              eexists _, n', _. split; [ reflexivity | lia ].
           ++ eexists _, n, _. split; [ reflexivity | lia ].
      * unfold Field__clean_value in Ev. destruct (is_dict v); [ discriminate | ].
        destruct (deconvert_dict v); [ discriminate | ].
        injection Ev as <-.
        match goal with
        | |- context [ValidationException ?msg] =>
            destruct (ValidationException_message msg) as (m & -> & _)
        end.
        cbn [field_base]. destruct (validation_level b);
          eexists _, n, _; (split; [ reflexivity | lia ]).
Qed.

Lemma perform_all_converted_dict ops : ∀ b n v,
  ∃ b' n' v', perform_all (FConvertedDict b n (schema n) v) ops
              = FConvertedDict b' n' (schema n') v' ∧ n ≤ n'.
Proof.
  unfold perform_all.
  induction ops as [ | o ops IH ]; intros b n v.
  - exists b, n, v. split; [ reflexivity | lia ].
  - cbn [fold_left].
    destruct (perform_converted_dict b n v o) as (b1 & n1 & v1 & -> & Hle).
    destruct (IH b1 n1 v1) as (b2 & n2 & v2 & -> & Hle2).
    exists b2, n2, v2. split; [ reflexivity | lia ].
Qed.

(** X15. Through any sequence of [set], [update], [set_attrs],
    [update_attrs], [deserialize(auto_set=True)] and [clean], returning
    or raising, a [ConvertedDict] keeps a schema that is the one of its
    recorded depth, the depth is at least 1, and it never decreases. *)
Theorem X15_converted_dict_schema (b : base) (ops1 ops2 : list operation) :
  ∃ b1 n1 v1 b2 n2 v2,
    perform_all (ConvertedDict___init__ b) ops1 = FConvertedDict b1 n1 (schema n1) v1
    ∧ perform_all (ConvertedDict___init__ b) (ops1 ++ ops2)%list
      = FConvertedDict b2 n2 (schema n2) v2
    ∧ 1 ≤ n1 ≤ n2.
Proof.
  change (ConvertedDict___init__ b) with (FConvertedDict b 1 (schema 1) PNone).
  destruct (perform_all_converted_dict ops1 b 1 PNone) as (b1 & n1 & v1 & H1 & Hle1).
  destruct (perform_all_converted_dict ops2 b1 n1 v1) as (b2 & n2 & v2 & H2 & Hle2).
  exists b1, n1, v1, b2, n2, v2.
  split; [ exact H1 | split; [ | lia ] ].
  unfold perform_all in *. rewrite fold_left_app, H1. exact H2.
Qed.

(** X16. After [deserialize(data, auto_set=True)] has returned on a
    [ConvertedDict] and left a non-empty dict as its value, the schema is
    deep enough for it: [clean()] returns, without
    [InitializationRequired], and changes nothing. *)
Theorem X16_auto_set_settles_schema (b : base) (n : nat) (p : field)
    (v0 data x : pyval) (f' : field) (d : dict) :
  deserialize_auto_set (FConvertedDict b n p v0) data = (f', Return x) →
  stored_value f' = PDict d →
  d ≠ [] →
  clean f' = (f', Return tt).
Proof.
  intros Hauto Hvalue Hne. unfold deserialize_auto_set in Hauto.
  destruct (deserialize (FConvertedDict b n p v0) data) as [ y | e ]; [ | discriminate ].
  rewrite set_converted_dict in Hauto.
  assert (Hclean : ∀ b1 n1 p1, update_mapping n1 (PDict d) None = None →
            clean (FConvertedDict b1 n1 p1 (PDict d))
            = (FConvertedDict b1 n1 p1 (PDict d), Return tt)).
  { intros b1 n1 p1 Hup. rewrite ConvertedDict_clean_eq. unfold Field_clean_with.
    assert (He : is_empty (PDict d) = false) by (destruct d; [ congruence | reflexivity ]).
    rewrite He. unfold ConvertedDict__clean, Field__clean_value. cbn [is_dict negb].
    rewrite Hup. reflexivity. }
  destruct (update_mapping n (Field_set_split b y).2 None) as [ [n' p'] | ] eqn:E.
  - injection Hauto as <- _. cbn [stored_value] in Hvalue. rewrite Hvalue in *.
    apply Hclean. apply (update_mapping_settled n _ n' p' E).
  - injection Hauto as <- _. cbn [stored_value] in Hvalue. rewrite Hvalue in *.
    apply Hclean, E.
Qed.

Lemma X16_auto_set_settles_schema_witness :
  ∃ f', (deserialize_auto_set (ConvertedDict___init__ default_base)
           (PList [PDict [("key", PStr "a");
                          ("inner_dict", PList [PDict [("key", PStr "b");
                                                       ("value", PInt 1%Z)]])]])).1 = f'
        ∧ clean f' = (f', Return tt).
Proof.
  eexists. split; [ reflexivity | ].
  eapply (X16_auto_set_settles_schema default_base 1 (schema 1) PNone
            (PList [PDict [("key", PStr "a");
                           ("inner_dict", PList [PDict [("key", PStr "b");
                                                        ("value", PInt 1%Z)]])]])).
  - reflexivity.
  - reflexivity.
  - discriminate.
Defined.

(** ** [deserialize] with [auto_set] *)

Lemma deserialized_not_dict t v data :
  Field__deserialize t v = Return data → is_dict data = false.
Proof.
  intros H. destruct t; try (injection H as <-; reflexivity).
  apply deserialized_instance in H. destruct data; try discriminate; reflexivity.
Qed.

(** X18. [deserialize(data, auto_set=True)] on a scalar field stores the
    deserialized value and leaves everything else as it was: the
    attributes that come with [data] are not installed as instance
    attrs.  When deserializing raises, the field is unchanged. *)
Theorem X18_auto_set_keeps_attrs (b : base) (t : value_type) (v0 data : pyval) :
  deserialize_auto_set (FScalar b t v0) data
  = match deserialize (FScalar b t v0) data with
    | Return x => (FScalar b t x, Return x)
    | Raise e => (FScalar b t v0, Raise e)
    end.
Proof.
  unfold deserialize_auto_set.
  destruct (deserialize (FScalar b t v0) data) as [ x | e ] eqn:E; [ | reflexivity ].
  cbn [deserialize] in E. apply deserialized_not_dict in E.
  rewrite set_scalar, (Field_set_split_not_dict b x E). reflexivity.
Qed.

(** ** [Dict._deserialize] *)

(** The loop of [Dict._deserialize]: [data] keeps its keys; an entry of
    [items] whose key is declared is replaced by what the property
    deserializes it to, every other entry of [data] stays. *)
Lemma Dict__deserialize_loop_entries table (items : dict) : ∀ data r,
  NoDup (map fst items) →
  (∀ k, alist_has k items = true → alist_has k data = true) →
  Dict__deserialize_loop table items data = Return r →
  ∃ entries,
    r = PDict entries
    ∧ map fst entries = map fst data
    ∧ (∀ k, alist_has k items = false → alist_get k entries = alist_get k data)
    ∧ (∀ k x, alist_get k items = Some x →
         match alist_get k table with
         | None => alist_get k entries = alist_get k data
         | Some deserialize_child =>
             ∃ y, deserialize_child x = Return y ∧ alist_get k entries = Some y
         end).
Proof.
  induction items as [ | [key value] items IH ]; intros data r Hnd Hkeys H.
  - injection H as <-. exists data. repeat split; try reflexivity. intros k x [=].
  - cbn [map fst] in Hnd. apply NoDup_cons in Hnd as [Hkey Hnd].
    assert (Hkeys' : ∀ data' : dict, map fst data' = map fst data →
              ∀ k, alist_has k items = true → alist_has k data' = true).
    { intros data' Hsame k Hk. rewrite alist_has_elem_of, Hsame, <- alist_has_elem_of.
      apply Hkeys. unfold alist_has in *. cbn [alist_get].
      destruct (String.eqb key k); [ reflexivity | exact Hk ]. }
    assert (Hhead : ∀ k, alist_has k ((key, value) :: items) = false →
              k ≠ key ∧ alist_has k items = false).
    { intros k Hk. unfold alist_has in *. cbn [alist_get] in Hk.
      destruct (String.eqb key k) eqn:E; [ discriminate | ].
      split; [ | exact Hk ]. intros ->. rewrite String.eqb_refl in E. discriminate. }
    assert (Habsent : alist_has key items = false) by (apply alist_has_absent, Hkey).
    assert (Htail : ∀ k x, alist_get k ((key, value) :: items) = Some x →
              (k = key ∧ x = value) ∨ (k ≠ key ∧ alist_get k items = Some x)).
    { intros k x Hk. cbn [alist_get] in Hk. destruct (String.eqb key k) eqn:E.
      - apply String.eqb_eq in E. injection Hk as <-. left. split; congruence.
      - right. split; [ | exact Hk ]. intros ->. rewrite String.eqb_refl in E. discriminate. }
    cbn [Dict__deserialize_loop] in H.
    destruct (alist_get key table) as [ deserialize_child | ] eqn:Et.
    + destruct (deserialize_child value) as [ v | e ] eqn:Ec; [ | discriminate ].
      cbn [bind] in H.
      assert (Hin : alist_has key data = true).
      { apply Hkeys. unfold alist_has. cbn [alist_get]. rewrite String.eqb_refl. reflexivity. }
      pose proof (alist_set_keys key v data Hin) as Hsame.
      destruct (IH _ r Hnd (Hkeys' _ Hsame) H) as (entries & -> & Hk & Hout & Hitems).
      exists entries. split; [ reflexivity | split; [ congruence | split ] ].
      * intros k Hk'. destruct (Hhead k Hk') as [Hne Hrest].
        rewrite (Hout k Hrest). apply alist_get_set_ne, Hne.
      * intros k x Hk'. destruct (Htail k x Hk') as [ [-> ->] | [Hne Hrest] ].
        -- rewrite Et. exists v. split; [ exact Ec | ].
           rewrite (Hout key Habsent). apply alist_get_set_eq.
        -- specialize (Hitems k x Hrest).
           destruct (alist_get k table); [ exact Hitems | ].
           rewrite Hitems. apply alist_get_set_ne, Hne.
    + destruct (IH _ r Hnd (Hkeys' _ eq_refl) H) as (entries & -> & Hk & Hout & Hitems).
      exists entries. split; [ reflexivity | split; [ exact Hk | split ] ].
      * intros k Hk'. destruct (Hhead k Hk') as [_ Hrest]. exact (Hout k Hrest).
      * intros k x Hk'. destruct (Htail k x Hk') as [ [-> ->] | [Hne Hrest] ].
        -- rewrite Et. exact (Hout key Habsent).
        -- exact (Hitems k x Hrest).
Qed.

(** X14. When a composite deserializes a non-empty dict, the result has
    the keys of the dict in the same order: an entry whose key is a
    declared property is replaced by what that property deserializes it
    to, and an entry whose key is not declared is kept as it is. *)
Theorem X14_dict_deserialize_entries (b : base) (i dd : bool)
    (ps : list (string * field)) (d : dict) (r : pyval) :
  d ≠ [] →
  NoDup (map fst d) →
  attrs_enabled b = false ∨ alist_has "value" d = false →
  deserialize (FDict b i dd ps) (PDict d) = Return r →
  ∃ entries,
    r = PDict entries
    ∧ map fst entries = map fst d
    ∧ (∀ k, alist_get k ps = None → alist_get k entries = alist_get k d)
    ∧ (∀ k c x, alist_get k ps = Some c → alist_get k d = Some x →
         ∃ y, deserialize c x = Return y ∧ alist_get k entries = Some y).
Proof.
  intros Hne Hnd Hvalue H.
  assert (Hdata : data_to_deserialize b (PDict d) = PDict d).
  { cbn [data_to_deserialize]. destruct Hvalue as [ -> | Hv ]; [ reflexivity | ].
    unfold alist_has in Hv. destruct (alist_get "value" d); [ discriminate | ].
    destruct (attrs_enabled b); reflexivity. }
  cbn [deserialize field_base] in H. rewrite Hdata in H.
  unfold Dict__deserialize in H.
  assert (Ht : truthy (PDict d) = true) by (destruct d; [ congruence | reflexivity ]).
  rewrite Ht in H.
  destruct (Dict__deserialize_loop_entries _ d d r Hnd (λ k Hk, Hk) H)
    as (entries & -> & Hk & Hout & Hitems).
  exists entries. split; [ reflexivity | split; [ exact Hk | split ] ].
  - intros k Hps. destruct (alist_get k d) as [ x | ] eqn:Ed.
    + specialize (Hitems k x Ed).
      rewrite (alist_get_map (λ c x, deserialize c x)), Hps in Hitems.
      cbn [option_map] in Hitems. congruence.
    + rewrite <- Ed. apply Hout. unfold alist_has. rewrite Ed. reflexivity.
  - intros k c x Hps Hd. specialize (Hitems k x Hd).
    rewrite (alist_get_map (λ c x, deserialize c x)), Hps in Hitems. exact Hitems.
Qed.

Lemma X14_dict_deserialize_entries_witness :
  ∃ entries,
    deserialize (FDict (with_attrs_enabled false default_base) false true
                   [("a", FScalar (with_attrs_enabled false default_base) VInt PNone)])
                (PDict [("zz", PStr "kept"); ("a", PStr "12")])
    = Return (PDict entries)
    ∧ map fst entries = ["zz"; "a"]
    ∧ alist_get "zz" entries = Some (PStr "kept").
Proof.
  destruct (X14_dict_deserialize_entries (with_attrs_enabled false default_base) false true
              [("a", FScalar (with_attrs_enabled false default_base) VInt PNone)]
              [("zz", PStr "kept"); ("a", PStr "12")]
              (PDict [("zz", PStr "kept"); ("a", PInt 12%Z)]))
    as (entries & Hr & Hk & Hundeclared & _).
  - discriminate.
  - simpl. distinct_keys.
  - left. reflexivity.
  - reflexivity.
  - exists entries. split; [ rewrite <- Hr; reflexivity | split; [ exact Hk | ] ].
    apply (Hundeclared "zz"). reflexivity.
Defined.

(** ** [serialize] with all attributes *)

(** X17. The serialized form of a field with attrs enabled, asked with
    [include_all_attrs=True], when the value or the default is not
    empty: a name reads as the instance attr, else as the default attr,
    and ["value"], when no attr has that name, as the value (the default
    when the value is empty).  So a default attr named ["value"] takes
    the place of the value. *)
Theorem X17_serialize_all_attrs (f : field) (v : pyval) (k : string) :
  _serialize f = Return v →
  is_empty v && is_empty (default_value (field_base f)) = false →
  attrs_enabled (field_base f) = true →
  NoDup (map fst (attrs (field_base f))) →
  NoDup (map fst (default_attrs (field_base f))) →
  ∃ s,
    serialize f true = Return (PDict s)
    ∧ alist_get k s
      = match alist_get k (attrs (field_base f)) with
        | Some a => Some a
        | None =>
            match alist_get k (default_attrs (field_base f)) with
            | Some a => Some a
            | None =>
                if String.eqb k "value"
                then Some (if is_empty v then default_value (field_base f) else v)
                else None
            end
        end.
Proof.
  intros Hs He Ha Hnd Hndd. unfold serialize, Field_serialize_with.
  rewrite Hs. cbn [bind]. rewrite He, Ha. eexists. split; [ reflexivity | ].
  rewrite (alist_get_update _ _ _ Hnd), (alist_get_update _ _ _ Hndd).
  cbn [alist_get]. rewrite String.eqb_sym. reflexivity.
Qed.

Lemma X17_serialize_all_attrs_witness :
  ∃ s,
    serialize (FScalar (Base PNone [("value", PStr "x")] false STRICT true []) VInt
                       (PInt 5%Z)) true
    = Return (PDict s)
    ∧ alist_get "value" s = Some (PStr "x").
Proof.
  destruct (X17_serialize_all_attrs
              (FScalar (Base PNone [("value", PStr "x")] false STRICT true []) VInt
                       (PInt 5%Z)) (PInt 5%Z) "value")
    as (s & Hs & Hget).
  - apply _serialize_FScalar.
  - reflexivity.
  - reflexivity.
  - apply NoDup_nil_2.
  - simpl. distinct_keys.
  - exists s. split; [ exact Hs | exact Hget ].
Defined.

(** ** The caller's dicts under [update], [update_attrs] and [set_attrs] *)

Lemma Store_fresh_ne (σ : Store.store) l (d : gmap string Store.val) :
  σ !! l = Some d → l ≠ fresh (dom σ).
Proof. intros Hl ->. rewrite Store_fresh_lookup in Hl. discriminate. Qed.

(** [Field.set] writes to no dict object but the one it is given. *)
Lemma Store_Field_set_split_frame σ f v l :
  v ≠ Store.VRef l → (Store.Field_set_split σ f v).1.1 !! l = σ !! l.
Proof.
  intros Hv. unfold Store.Field_set_split.
  destruct (Store.as_dict σ v) as [ [l0 d0] | ] eqn:E; [ | reflexivity ].
  destruct (d0 !! "value"); [ | reflexivity ].
  destruct (Store.attrs_enabled f); [ | reflexivity ].
  cbn [fst]. apply lookup_insert_ne.
  intros ->. apply Hv. unfold Store.as_dict in E.
  destruct v as [ | | | | | lv ]; try discriminate.
  cbn [mbind option_bind] in E. destruct (σ !! lv); [ | discriminate ].
  injection E as ->. reflexivity.
Qed.

Lemma Store_Field_set_store σ f v :
  (Store.Field_set σ f v).1 = (Store.Field_set_split σ f v).1.1.
Proof.
  unfold Store.Field_set. destruct (Store.Field_set_split σ f v) as [ [σ' f'] v' ].
  reflexivity.
Qed.

(** [Field.set_attrs] writes to no dict object that exists but the one
    it is given. *)
Lemma Store_Field_set_attrs_frame σ f a iu kw l d :
  σ !! l = Some d → a ≠ Store.VRef l →
  (Store.Field_set_attrs σ f a iu kw).1.1 !! l = Some d.
Proof.
  intros Hl Ha. unfold Store.Field_set_attrs.
  destruct (Store.truthy σ a && negb (Store.is_dict σ a)); [ exact Hl | ].
  assert (Htarget : ∀ target : Store.loc * gmap string Store.val,
            target = match (if Store.truthy σ a then Store.as_dict σ a else None) with
                     | Some (l0, d0) => (l0, d0)
                     | None => (fresh (dom σ), ∅)
                     end →
            target.1 ≠ l).
  { intros target ->. destruct (Store.truthy σ a).
    - destruct (Store.as_dict σ a) as [ [l0 d0] | ] eqn:E; cbn [fst].
      + intros ->. apply Ha. unfold Store.as_dict in E.
        destruct a as [ | | | | | la ]; try discriminate.
        cbn [mbind option_bind] in E. destruct (σ !! la); [ | discriminate ].
        injection E as ->. reflexivity.
      + intros <-. rewrite Store_fresh_lookup in Hl. discriminate.
    - cbn [fst]. intros <-. rewrite Store_fresh_lookup in Hl. discriminate. }
  specialize (Htarget _ eq_refl).
  destruct (match (if Store.truthy σ a then Store.as_dict σ a else None) with
            | Some (l0, d0) => (l0, d0)
            | None => (fresh (dom σ), ∅)
            end) as [l0 d0].
  cbn [fst] in Htarget.
  assert (Hl' : ∀ x, (<[l0 := x]> σ) !! l = Some d)
    by (intros x; rewrite lookup_insert_ne by exact Htarget; exact Hl).
  destruct iu; cbn [fst].
  - apply Hl'.
  - rewrite lookup_insert_ne; [ apply Hl' | ].
    intros E. pose proof (Hl' (delete "value" (kw ∪ d0))) as H.
    rewrite <- E, Store_fresh_lookup in H. discriminate.
Qed.

(** X19. [Field.update] and [Field.update_attrs] edit no dict object
    that exists when they are called: neither the dict they are given
    nor the field's own attrs.  What they merge, they merge into a new
    dict. *)
Theorem X19_update_spares_callers_dicts (σ : Store.store) (f : Store.field)
    (l : Store.loc) (d : gmap string Store.val) :
  σ !! l = Some d →
  (∀ v, (Store.Field_update σ f v).1 !! l = Some d)
  ∧ (∀ a include_undefined kwargs,
       (Store.Field_update_attrs σ f a include_undefined kwargs).1.1 !! l = Some d).
Proof.
  intros Hl. split.
  - intros v. unfold Store.Field_update.
    assert (Hkeep : ∀ l0 d0, Store.as_dict σ v = Some (l0, d0) →
              Store.attrs_enabled f = false ∨ d0 !! "value" = None →
              (Store.Field_set σ f v).1 !! l = Some d).
    { intros l0 d0 E Hcase. unfold Store.as_dict in E.
      destruct v as [ | | | | | lv ]; try discriminate.
      cbn [mbind option_bind] in E. destruct (σ !! lv) as [ dv | ] eqn:Elv; [ | discriminate ].
      injection E as -> ->.
      rewrite Store_Field_set_store, (Store_Field_set_split_keep σ f _ _ Elv Hcase).
      exact Hl. }
    destruct (Store.as_dict σ v) as [ [l0 d0] | ] eqn:E.
    + destruct (d0 !! "value") eqn:Ev.
      * destruct (Store.attrs_enabled f) eqn:Ea.
        -- rewrite Store_Field_set_store, Store_Field_set_split_frame.
           ++ rewrite lookup_insert_ne by (apply not_eq_sym, (Store_fresh_ne σ l d Hl)).
              exact Hl.
           ++ intros [= E']. apply (Store_fresh_ne σ l d Hl). congruence.
        -- apply (Hkeep l0 d0 eq_refl). left. reflexivity.
      * apply (Hkeep l0 d0 eq_refl). right. exact Ev.
    + rewrite Store_Field_set_store. unfold Store.Field_set_split. rewrite E. exact Hl.
  - intros a iu kw. unfold Store.Field_update_attrs.
    destruct (if Store.truthy σ a then snd <$> Store.as_dict σ a else Some ∅);
      [ | exact Hl ].
    apply Store_Field_set_attrs_frame.
    + rewrite lookup_insert_ne by (apply not_eq_sym, (Store_fresh_ne σ l d Hl)). exact Hl.
    + intros [= E']. apply (Store_fresh_ne σ l d Hl). congruence.
Qed.

Lemma X19_update_spares_callers_dicts_witness :
  (Store.Field_update
     {[ 1%positive := {[ "value" := Store.VInt 5; "pretty_name" := Store.VStr "n" ]};
        2%positive := ∅ ]}
     (Store.Field true Store.VNone 2%positive [] None true)
     (Store.VRef 1%positive)).1 !! 1%positive
  = Some {[ "value" := Store.VInt 5; "pretty_name" := Store.VStr "n" ]}.
Proof.
  apply (proj1 (X19_update_spares_callers_dicts _
                  (Store.Field true Store.VNone 2%positive [] None true) 1%positive _
                  (lookup_insert_eq _ _ _))).
Defined.

(** X20. [Field.set_attrs(attrs, **kwargs)] edits a non-empty dict it
    is given in place: the dict takes the keyword arguments and loses its
    ["value"] key.  With [include_undefined=True] that very dict becomes
    the field's instance attrs; without, the instance attrs are a new
    dict. *)
Theorem X20_set_attrs_edits_in_place (σ : Store.store) (f : Store.field)
    (l : Store.loc) (d kwargs : gmap string Store.val) (include_undefined : bool) :
  σ !! l = Some d →
  d ≠ ∅ →
  ∃ σ' f',
    Store.Field_set_attrs σ f (Store.VRef l) include_undefined kwargs
    = (σ', f', Return tt)
    ∧ σ' !! l = Some (delete "value" (kwargs ∪ d))
    ∧ (include_undefined = true → Store.attrs f' = l)
    ∧ (include_undefined = false → σ !! Store.attrs f' = None).
Proof.
  intros Hl Hd. unfold Store.Field_set_attrs.
  rewrite (Store_truthy_dict σ l d Hl Hd), (Store_is_dict σ l d Hl). cbn [negb andb].
  rewrite (Store_as_dict_ref σ l d Hl).
  destruct include_undefined.
  - eexists _, _. split; [ reflexivity | split; [ apply lookup_insert_eq | ] ].
    split; [ reflexivity | discriminate ].
  - set (σ2 := <[l := delete "value" (kwargs ∪ d)]> σ).
    assert (Hne : fresh (dom σ2) ≠ l).
    { intros E. pose proof (Store_fresh_lookup σ2) as H. rewrite E in H.
      unfold σ2 in H. rewrite lookup_insert_eq in H. discriminate. }
    eexists _, _. split; [ reflexivity | split; [ | split; [ discriminate | ] ] ].
    + rewrite lookup_insert_ne by exact Hne. apply lookup_insert_eq.
    + intros _. cbn [Store.attrs Store.with_attrs].
      pose proof (Store_fresh_lookup σ2) as H. subst σ2.
      rewrite lookup_insert_ne in H by (apply not_eq_sym, Hne). exact H.
Qed.

Lemma X20_set_attrs_edits_in_place_witness :
  ∃ σ' f',
    Store.Field_set_attrs
      {[ 1%positive := {[ "value" := Store.VInt 5; "pretty_name" := Store.VStr "n" ]};
         2%positive := ∅ ]}
      (Store.Field true Store.VNone 2%positive [] None true)
      (Store.VRef 1%positive) true ∅
    = (σ', f', Return tt)
    ∧ σ' !! 1%positive
      = Some (delete "value"
                (∅ ∪ {[ "value" := Store.VInt 5; "pretty_name" := Store.VStr "n" ]}))
    ∧ Store.attrs f' = 1%positive.
Proof.
  destruct (X20_set_attrs_edits_in_place
              {[ 1%positive := {[ "value" := Store.VInt 5; "pretty_name" := Store.VStr "n" ]};
                 2%positive := ∅ ]}
              (Store.Field true Store.VNone 2%positive [] None true)
              1%positive _ ∅ true (lookup_insert_eq _ _ _))
    as (σ' & f' & Hset & Hl & Halias & _).
  - intros E. apply (f_equal (λ m : gmap string Store.val, m !! "value")) in E.
    rewrite lookup_insert_eq, lookup_empty in E. discriminate.
  - exists σ', f'. split; [ exact Hset | split; [ exact Hl | exact (Halias eq_refl) ] ].
Defined.

(** ** A composite with declared properties keeps its keys *)

Lemma alist_has_same_keys {A B} k (m : list (string * A)) (m' : list (string * B)) :
  map fst m' = map fst m → alist_has k m' = alist_has k m.
Proof. intros H. rewrite !alist_has_elem_of, H. reflexivity. Qed.

Lemma alist_has_head {V} k (v : V) (m : list (string * V)) :
  alist_has k ((k, v) :: m) = true.
Proof. unfold alist_has. cbn [alist_get]. rewrite String.eqb_refl. reflexivity. Qed.

Lemma alist_has_tail {V} k k' (v : V) (m : list (string * V)) :
  alist_has k m = true → alist_has k ((k', v) :: m) = true.
Proof.
  unfold alist_has. cbn [alist_get]. destruct (String.eqb k' k); [ reflexivity | auto ].
Qed.

(** The loop of [Dict.update] adds no property when undefined keys are
    not admitted, or when every key it is given is declared. *)
Lemma Dict_update_loop_keys setters i iu (items : dict) : ∀ props,
  iu = false ∨ (∀ k, alist_has k items = true → alist_has k props = true) →
  map fst (Dict_update_loop setters i iu props items).1 = map fst props.
Proof.
  induction items as [ | [name x] items IH ]; intros props Hcase; [ reflexivity | ].
  assert (Hnext : ∀ props' : list (string * field), map fst props' = map fst props →
            iu = false ∨ (∀ k, alist_has k items = true → alist_has k props' = true)).
  { intros props' Hsame. destruct Hcase as [ H | H ]; [ left; exact H | right ].
    intros k Hk. rewrite (alist_has_same_keys k props props' Hsame).
    apply H, alist_has_tail, Hk. }
  cbn [Dict_update_loop].
  destruct (alist_has name props) eqn:Ehas.
  - destruct (alist_get name setters) as [ set_child | ].
    + destruct (set_child x) as [c r].
      pose proof (alist_set_keys name c props Ehas) as Hsame.
      destruct r as [ [] | e ]; [ | exact Hsame ].
      rewrite (IH _ (Hnext _ Hsame)). exact Hsame.
    + pose proof (alist_set_keys name (undefined_property i x) props Ehas) as Hsame.
      rewrite (IH _ (Hnext _ Hsame)). exact Hsame.
  - destruct Hcase as [ -> | H ].
    + apply IH. left. reflexivity.
    + rewrite (H name (alist_has_head name x items)) in Ehas. discriminate.
Qed.

Lemma alist_update_keys {V} (m2 : list (string * V)) : ∀ m,
  (∀ k, alist_has k m2 = true → alist_has k m = true) →
  map fst (alist_update m m2) = map fst m.
Proof.
  unfold alist_update.
  induction m2 as [ | [k v] m2 IH ]; intros m H; [ reflexivity | ].
  cbn [fold_left fst snd].
  pose proof (alist_set_keys k v m (H k (alist_has_head k v m2))) as Hsame.
  rewrite IH; [ exact Hsame | ].
  intros k' Hk'. rewrite (alist_has_same_keys k' m _ Hsame).
  apply H, alist_has_tail, Hk'.
Qed.

Lemma alist_has_cons {V} k k' (v : V) (m : list (string * V)) :
  alist_has k ((k', v) :: m) = String.eqb k' k || alist_has k m.
Proof. unfold alist_has. cbn [alist_get]. destruct (String.eqb k' k); reflexivity. Qed.

Lemma alist_has_keep_declared (ps : list (string * field)) (d : dict) k :
  alist_has k (keep_declared ps d) = true → alist_has k ps = true.
Proof.
  unfold keep_declared. induction d as [ | [k0 v0] d IH ]; [ discriminate | ].
  cbn [List.filter fst]. destruct (alist_has k0 ps) eqn:E; [ | exact IH ].
  rewrite alist_has_cons. destruct (String.eqb k0 k) eqn:Ek; [ | exact IH ].
  apply String.eqb_eq in Ek. subst k0. intros _. exact E.
Qed.

Lemma alist_has_keep_declared_value (ps : list (string * field)) (d : dict) k :
  alist_has k d = false → alist_has k (keep_declared ps d) = false.
Proof.
  unfold keep_declared. induction d as [ | [k0 v0] d IH ]; [ reflexivity | ].
  rewrite alist_has_cons. intros H. apply orb_false_iff in H as [Hk Hd].
  cbn [List.filter fst]. destruct (alist_has k0 ps); [ | exact (IH Hd) ].
  rewrite alist_has_cons, Hk. exact (IH Hd).
Qed.

Lemma Dict_value_setter_keys setters i d ps value :
  (∀ entries, value = PDict entries →
     ∀ k, alist_has k entries = true → alist_has k ps = true) →
  map fst (Dict_value_setter setters i d ps value).1 = map fst ps.
Proof.
  intros Hdeclared. unfold Dict_value_setter.
  destruct (truthy value && negb (is_dict value)); [ reflexivity | ].
  set (entries := match value with PDict e => e | _ => [] end).
  assert (Hentries : ∀ k, alist_has k entries = true → alist_has k ps = true).
  { subst entries. destruct value; try discriminate. apply Hdeclared. reflexivity. }
  set (none := map (λ kc : string * field, (kc.1, PNone)) ps).
  assert (Hnone : map fst none = map fst ps) by (apply (map_fst_with (λ _, PNone))).
  assert (Hkeys : map fst (alist_update none entries) = map fst ps).
  { rewrite alist_update_keys; [ exact Hnone | ].
    intros k Hk. rewrite (alist_has_same_keys k ps none Hnone). apply Hentries, Hk. }
  unfold Dict_update_with.
  replace (if truthy (PDict (alist_update none entries))
           then PDict (alist_update none entries) else PDict [])
    with (PDict (alist_update none entries))
    by (destruct (alist_update none entries); reflexivity).
  rewrite alist_update_nil. apply Dict_update_loop_keys. right.
  intros k Hk. rewrite <- (alist_has_same_keys k ps (alist_update none entries) Hkeys).
  exact Hk.
Qed.

(** X21. A composite built with declared properties never gains or
    loses a property through [set(value)] or [update(value, **kwargs)]
    called without [include_undefined], whatever the value and whether
    the call returns or raises: its keys afterwards are its keys before,
    in the same order. *)
Theorem X21_closed_composite_keeps_keys (b : base) (i : bool)
    (ps : list (string * field)) (value : pyval) (kwargs : dict) :
  (∃ b' ps' r,
     Dict_set (FDict b i true ps) value false = (FDict b' i true ps', r)
     ∧ Dict_keys ps' = Dict_keys ps)
  ∧ (∃ ps' r,
       Dict_update (FDict b i true ps) value false kwargs = (FDict b i true ps', r)
       ∧ Dict_keys ps' = Dict_keys ps).
Proof.
  split.
  - cbn [Dict_set]. unfold Dict_set_with.
    destruct (truthy value && negb (is_dict value)) eqn:Etype;
      [ eexists _, _, _; split; reflexivity | ].
    cbn [negb]. rewrite andb_true_r.
    assert (Hsetter : ∀ b' new_value,
              (∀ entries, new_value = PDict entries →
                 ∀ k, alist_has k entries = true → alist_has k ps = true) →
              ∃ b'' ps' r,
                (let '(props, r) :=
                   Dict_value_setter (setters_of ps) i true ps new_value in
                 (FDict b' i true props, r)) = (FDict b'' i true ps', r)
                ∧ Dict_keys ps' = Dict_keys ps).
    { intros b' new_value Hdeclared.
      pose proof (Dict_value_setter_keys (setters_of ps) i true ps new_value Hdeclared)
        as Hkeys.
      destruct (Dict_value_setter (setters_of ps) i true ps new_value) as [ps' r].
      exists b', ps', r. split; [ reflexivity | exact Hkeys ]. }
    destruct (truthy value) eqn:Et.
    + destruct value as [ | | | | | dd ]; try discriminate.
      unfold Dict_drop_undefined.
      destruct (attrs_enabled b && alist_has "value" dd) eqn:Ea.
      * destruct (alist_get "value" dd) as [ [ | | | | | nv ] | ] eqn:Ev;
          try (eexists _, _, _; split; reflexivity).
        -- apply andb_true_iff in Ea as [Ha _].
           unfold Field_set_split. rewrite Ha.
           unfold alist_has at 1. rewrite alist_get_set_eq. cbn [andb default].
           apply Hsetter. intros entries [= <-] k. apply alist_has_keep_declared.
        -- unfold alist_has in Ea. rewrite Ev, andb_false_r in Ea. discriminate.
      * assert (Hsplit : Field_set_split b (PDict (keep_declared ps dd))
                         = (b, PDict (keep_declared ps dd))).
        { unfold Field_set_split. apply andb_false_iff in Ea as [ -> | Hv ];
            [ reflexivity | ].
          rewrite (alist_has_keep_declared_value ps dd "value" Hv), andb_false_r.
          reflexivity. }
        rewrite Hsplit. apply Hsetter.
        intros entries [= <-] k. apply alist_has_keep_declared.
    + assert (Hsplit : Field_set_split b value = (b, value)).
      { destruct value as [ | | | | | [ | ] ]; try discriminate; try reflexivity.
        unfold Field_set_split. rewrite andb_false_r. reflexivity. }
      rewrite Hsplit. apply Hsetter. intros entries ->.
      destruct entries; [ discriminate | discriminate ].
  - cbn [Dict_update]. unfold Dict_update_with.
    destruct (if truthy value then value else PDict []) as [ | | | | | entries ];
      try (eexists _, _; split; reflexivity).
    pose proof (Dict_update_loop_keys (setters_of ps) i false
                  (alist_update entries kwargs) ps (or_introl eq_refl)) as Hkeys.
    destruct (Dict_update_loop (setters_of ps) i false ps (alist_update entries kwargs))
      as [ps' r].
    exists ps', r. split; [ reflexivity | exact Hkeys ].
Qed.

(** ** [__deconvert_dict]: malformed records *)

Lemma deconvert_pairs_app pairs1 : ∀ pairs2 result x,
  deconvert_pairs pairs1 result = Return x →
  ∃ result', x = PDict result'
             ∧ deconvert_pairs (pairs1 ++ pairs2)%list result
               = deconvert_pairs pairs2 result'.
Proof.
  induction pairs1 as [ | [record inner] pairs1 IH ]; intros pairs2 result x H.
  - injection H as <-. exists result. split; reflexivity.
  - cbn [app deconvert_pairs] in *.
    destruct (py_contains "value" record) as [ has_value | ]; [ | discriminate ].
    destruct (py_contains "inner_dict" record) as [ has_inner | ]; [ | discriminate ].
    destruct (py_contains "key" record) as [ has_key | ]; [ | discriminate ].
    cbn [bind] in *.
    destruct (has_value && has_inner || negb has_value && negb has_inner || negb has_key);
      [ discriminate | ].
    destruct (py_getitem record "key") as [ key | ]; [ | discriminate ].
    cbn [bind] in *.
    destruct (if has_value then py_getitem record "value"
              else default (Raise (EKeyError "inner_dict")) (alist_get "inner_dict" inner))
      as [ v | ]; [ | discriminate ].
    cbn [bind] in *.
    destruct key; try discriminate. apply IH, H.
Qed.

(** X23. [__deconvert_dict] rejects a list in which, after records it
    accepts, comes a dict that has both a ["value"] and an
    ["inner_dict"] key, or neither, or no ["key"]: it raises
    [ValueError], whatever follows. *)
Theorem X23_deconvert_rejects_malformed (pre post : list pyval) (record : dict)
    (x : pyval) :
  deconvert_dict (PList pre) = Return x →
  (alist_has "value" record && alist_has "inner_dict" record)
  || (negb (alist_has "value" record) && negb (alist_has "inner_dict" record))
  || negb (alist_has "key" record) = true →
  deconvert_dict (PList (pre ++ PDict record :: post)%list)
  = Raise (EValueError "Incorrect structure of converted dict.").
Proof.
  intros Hpre Hbad.
  set (table := λ r : pyval,
         (r, match r with
             | PDict d => map (λ kv : string * pyval, (kv.1, deconvert_dict kv.2)) d
             | _ => []
             end)).
  assert (Hloop : ∀ result,
            deconvert_pairs (map table (PDict record :: post)) result
            = Raise (EValueError "Incorrect structure of converted dict.")).
  { intros result. cbn [map deconvert_pairs table py_contains bind]. rewrite Hbad.
    reflexivity. }
  destruct pre as [ | p pre ].
  - exact (Hloop []).
  - change (deconvert_dict (PList ((p :: pre) ++ PDict record :: post)%list))
      with (deconvert_pairs (map table ((p :: pre) ++ PDict record :: post)%list) []).
    change (deconvert_dict (PList (p :: pre)))
      with (deconvert_pairs (map table (p :: pre)) []) in Hpre.
    rewrite map_app.
    destruct (deconvert_pairs_app _ (map table (PDict record :: post)) [] x Hpre)
      as (result' & _ & ->).
    apply Hloop.
Qed.

Lemma X23_deconvert_rejects_malformed_witness :
  deconvert_dict
    (PList [PDict [("key", PStr "a"); ("value", PInt 1%Z)];
            PDict [("key", PStr "b"); ("value", PInt 2%Z); ("inner_dict", PList [])]])
  = Raise (EValueError "Incorrect structure of converted dict.").
Proof.
  apply (X23_deconvert_rejects_malformed
           [PDict [("key", PStr "a"); ("value", PInt 1%Z)]] []
           [("key", PStr "b"); ("value", PInt 2%Z); ("inner_dict", PList [])]
           (PDict [("a", PInt 1%Z)]));
    reflexivity.
Defined.

(** ** Item assignment on a composite *)

(** X22. On a composite, [f[key] = v] for a declared key does what
    [f.update({key: v})] does, with or without [include_undefined]: the
    property is set to [v] and no other is touched, and [f[key]] is then
    that property.  For a key that is not declared, [f[key] = v] raises
    [KeyError] and changes nothing, where [update] without
    [include_undefined] on a composite with declared properties returns
    and changes nothing. *)
Theorem X22_item_assignment_is_update (b : base) (i d : bool)
    (ps : list (string * field)) (key : string) (v : pyval) (include_undefined : bool) :
  (∀ c, alist_get key ps = Some c →
     Dict___setitem__ b i d ps key v
     = (FDict b i d (alist_set key (set_ c v).1 ps), (set_ c v).2)
     ∧ Dict_update (FDict b i d ps) (PDict [(key, v)]) include_undefined []
       = Dict___setitem__ b i d ps key v
     ∧ Dict___getitem__ (alist_set key (set_ c v).1 ps) key = Return (set_ c v).1)
  ∧ (alist_get key ps = None →
     Dict___setitem__ b i d ps key v = (FDict b i d ps, Raise (EKeyError key))
     ∧ Dict___getitem__ ps key = Raise (EKeyError key)
     ∧ (d = true →
        Dict_update (FDict b i d ps) (PDict [(key, v)]) false [] = (FDict b i d ps, Return tt))).
Proof.
  split.
  - intros c Hget.
    assert (Hset : Dict___setitem__ b i d ps key v
                   = (FDict b i d (alist_set key (set_ c v).1 ps), (set_ c v).2)).
    { unfold Dict___setitem__. rewrite Hget. destruct (set_ c v); reflexivity. }
    split; [ exact Hset | split ].
    + rewrite Hset. cbn [Dict_update]. unfold Dict_update_with.
      cbn [truthy]. rewrite alist_update_nil. cbn [Dict_update_loop].
      unfold alist_has. rewrite Hget.
      unfold setters_of. rewrite (alist_get_map set_), Hget. cbn [option_map].
      destruct (set_ c v) as [c' r]. destruct r as [ [] | e ]; reflexivity.
    + unfold Dict___getitem__. rewrite alist_get_set_eq. reflexivity.
  - intros Hget. split; [ | split ].
    + unfold Dict___setitem__. rewrite Hget. reflexivity.
    + unfold Dict___getitem__. rewrite Hget. reflexivity.
    + intros ->. cbn [Dict_update]. unfold Dict_update_with.
      cbn [truthy]. rewrite alist_update_nil. cbn [Dict_update_loop].
      unfold alist_has. rewrite Hget. reflexivity.
Qed.

Lemma X22_item_assignment_is_update_witness :
  Dict_update
    (FDict default_base false true [("a", FScalar default_base VInt PNone)])
    (PDict [("a", PInt 5%Z)]) false []
  = Dict___setitem__ default_base false true [("a", FScalar default_base VInt PNone)]
      "a" (PInt 5%Z).
Proof.
  apply (proj1 (X22_item_assignment_is_update default_base false true
                  [("a", FScalar default_base VInt PNone)] "a" (PInt 5%Z) false)
           (FScalar default_base VInt PNone) eq_refl).
Defined.
